(** * sfcCommon, sfcUtil/hashtable.c: the chained hash table

    A shallow embedding of the hash-table engine of [hashtable.c]
    (Keith Pomakis' HashTable as shipped in sfcCommon), of its sizing
    policy and of the iterator of the [UtilHashTable] facade, followed
    by the properties stated about them.

    Conventions of the embedding.
    - Keys and values are opaque references ([const void *]): a [ptr]
      is the address, [NULL] is 0.
    - A bucket chain (a [KeyValuePair *] followed through [next]) is the
      list of its nodes, head first; the empty list is the [NULL] chain.
      A pointer into a chain is the suffix of the chain that starts at
      the node pointed to.
    - [long] fields are integers in [Z].  The element count grows by one
      per allocated node and bucket counts are array lengths, so both
      stay far below [LONG_MAX]; loop counters declared [int] in the
      source range over bucket indices and are not wrapped either.
    - [float] is IEEE-754 binary32 with round-to-nearest-even, every
      operation rounded to binary32 (FLT_EVAL_METHOD 0).
    - [malloc] may fail: each function that allocates takes the outcome
      of its allocations as boolean arguments.
    - A failed [assert] aborts the program: functions that assert (or
      call a function that does) return [None] for the abort.  So does
      the one function that writes through a pointer it did not test,
      [hashTableGetFirst] after a failed allocation.
    - Calls of the release callbacks and [free] of chain nodes are
      recorded as a trace of events. *)

From Stdlib Require Import ZArith Lia QArith.QArith_base QArith.Qround Sorting.Sorted.
From Stdlib Require Import Floats.SpecFloat.
From stdpp Require Import base option list.

Open Scope Z_scope.

(** ** Machine-level values *)

Abbreviation ptr := Z (only parsing).
Definition NULL : ptr := 0.

(** The address of a release callback. *)
Abbreviation funptr := Z (only parsing).

Definition LONG_MIN : Z := - 2 ^ 63.
Definition LONG_MAX : Z := 2 ^ 63 - 1.

(** *** Single-precision arithmetic *)

Abbreviation float := spec_float (only parsing).

(** [(float) n] for a [long] n. *)
Definition float_of_long (n : Z) : float := binary_normalize 24 128 n 0 false.

(** [x / y] on [float]. *)
Definition float_div (x y : float) : float := SFdiv 24 128 x y.

(** [x > y] on [float]. *)
Definition float_gt (x y : float) : bool := SFltb y x.

(** [x < y] on [float]. *)
Definition float_lt (x y : float) : bool := SFltb x y.

(** [(long) x]: the fractional part is discarded.  The conversion is
    undefined in C when the integral part does not fit a [long]; the
    model returns what the x86-64 conversion instruction does there,
    [LONG_MIN]. *)
Definition long_of_float (x : float) : Z :=
  match x with
  | S754_zero _ => 0
  | S754_finite s m e =>
      let magnitude :=
        if 0 <=? e then Z.pos m * 2 ^ e else Z.quot (Z.pos m) (2 ^ (- e)) in
      let v := if s then - magnitude else magnitude in
      if (LONG_MIN <=? v) && (v <=? LONG_MAX) then v else LONG_MIN
  | S754_infinity _ | S754_nan => LONG_MIN
  end.

Definition float_0_0 : float := S754_zero false.
Definition float_3_0 : float := Eval cbv in float_of_long 3.
Definition float_15_0 : float := Eval cbv in float_of_long 15.

(** ** Data model *)

(** A chain node; its [next] field is the rest of the list it heads. *)
Record KeyValuePair := { key : ptr; value : ptr }.

Abbreviation chain := (list KeyValuePair) (only parsing).

(** Modelled from the spec: the declaration of [struct HashTable] lives
    in hashtable.h, which is not among the sources; the fields are the
    attributes of a Table in the data model, under the names and types
    with which hashtable.c reads and writes them.  The three ratios are
    [float], the type of the parameters of [HashTableSetIdealRatio] and
    of the local [elementToBucketRatio] they are compared with. *)
Record HashTable := {
  numOfBuckets : Z;
  numOfElements : Z;
  bucketArray : list chain;
  idealRatio : float;
  lowerRehashThreshold : float;
  upperRehashThreshold : float;
  keycmp : ptr -> ptr -> Z;
  valuecmp : ptr -> ptr -> Z;
  hashFunction : ptr -> Z;
  keyDeallocator : option funptr;
  valueDeallocator : option funptr
}.

(** Modelled from the spec: [HashTableIterator] is declared in a header
    that is not among the sources; a cursor is a bucket index and the
    current entry reference. *)
Record HashTableIterator := { bucket : Z; pair : chain }.

(** Observable effects other than the table itself. *)
Inductive Event :=
| EvCall (f : funptr) (arg : ptr)      (* a release callback is invoked *)
| EvFree (node : KeyValuePair).        (* free() of a chain node *)

(** *** Field updates *)

Definition set_bucketArray (t : HashTable) (a : list chain) : HashTable :=
  {| numOfBuckets := numOfBuckets t; numOfElements := numOfElements t;
     bucketArray := a;
     idealRatio := idealRatio t;
     lowerRehashThreshold := lowerRehashThreshold t;
     upperRehashThreshold := upperRehashThreshold t;
     keycmp := keycmp t; valuecmp := valuecmp t;
     hashFunction := hashFunction t;
     keyDeallocator := keyDeallocator t;
     valueDeallocator := valueDeallocator t |}.

Definition set_numOfElements (t : HashTable) (n : Z) : HashTable :=
  {| numOfBuckets := numOfBuckets t; numOfElements := n;
     bucketArray := bucketArray t;
     idealRatio := idealRatio t;
     lowerRehashThreshold := lowerRehashThreshold t;
     upperRehashThreshold := upperRehashThreshold t;
     keycmp := keycmp t; valuecmp := valuecmp t;
     hashFunction := hashFunction t;
     keyDeallocator := keyDeallocator t;
     valueDeallocator := valueDeallocator t |}.

Definition set_numOfBuckets (t : HashTable) (n : Z) : HashTable :=
  {| numOfBuckets := n; numOfElements := numOfElements t;
     bucketArray := bucketArray t;
     idealRatio := idealRatio t;
     lowerRehashThreshold := lowerRehashThreshold t;
     upperRehashThreshold := upperRehashThreshold t;
     keycmp := keycmp t; valuecmp := valuecmp t;
     hashFunction := hashFunction t;
     keyDeallocator := keyDeallocator t;
     valueDeallocator := valueDeallocator t |}.

(** *** Arrays and loops *)

(** [a[i]]; indices are always within the array in the source. *)
Definition bucket_at (a : list chain) (i : Z) : chain := a !!! Z.to_nat i.

(** [a[i] = c]. *)
Definition bucket_set (a : list chain) (i : Z) (c : chain) : list chain :=
  <[Z.to_nat i := c]> a.

(** [hashTable->bucketArray[i] = c]. *)
Definition store_bucket (t : HashTable) (i : Z) (c : chain) : HashTable :=
  set_bucketArray t (bucket_set (bucketArray t) i c).

(** [for (i = start; ...; i++) body], run for [count] rounds. *)
Fixpoint for_loop {St : Type} (count : nat) (i : Z) (body : Z -> St -> St) (s : St) : St :=
  match count with
  | O => s
  | S count' => for_loop count' (i + 1) body (body i s)
  end.

(** ** Default strategies *)

Definition pointercmp (pointer1 pointer2 : ptr) : Z :=
  if pointer1 =? pointer2 then 0 else 1.

Definition pointerHashFunction (pointer : ptr) : Z := Z.shiftr pointer 4.

(** ** Sizing policy *)

(** The loop of [isProbablePrime], entered with divisor [i]. *)
Fixpoint isProbablePrime_loop (fuel : nat) (oddNumber i : Z) : bool :=
  match fuel with
  | O => true
  | S fuel' =>
      if i <? 51 then
        if oddNumber =? i then true
        else if Z.rem oddNumber i =? 0 then false
        else isProbablePrime_loop fuel' oddNumber (i + 2)
      else true
  end.

(** [i] runs through 3, 5, ..., 49 and leaves the loop at 51. *)
Definition isProbablePrime (oddNumber : Z) : bool :=
  isProbablePrime_loop 25 oddNumber 3.

(** [while (!isProbablePrime(n)) n += 2], at most [fuel] tests. *)
Fixpoint advance_to_prime (fuel : nat) (n : Z) : option Z :=
  match fuel with
  | O => None
  | S fuel' =>
      if isProbablePrime n then Some n else advance_to_prime fuel' (n + 2)
  end.

(** The value from which the search starts. *)
Definition ideal_start (t : HashTable) : Z :=
  let idealNumOfBuckets :=
    long_of_float (float_div (float_of_long (numOfElements t)) (idealRatio t)) in
  if idealNumOfBuckets <? 5 then 5 else Z.lor idealNumOfBuckets 1.

Definition calculateIdealNumOfBuckets_fuel (fuel : nat) (t : HashTable) : option Z :=
  advance_to_prime fuel (ideal_start t).

(** No run of the search needs more tests than this
    (see [advance_to_prime_total]). *)
Definition search_bound : nat := 1155.

Definition calculateIdealNumOfBuckets (t : HashTable) : Z :=
  default (ideal_start t) (calculateIdealNumOfBuckets_fuel search_bound t).

(** ** Engine *)

(** [HashTableCreate]; [table_ok] and [array_ok] are the outcomes of the
    two allocations.  The result is the new table, or [NULL] on error. *)
Definition HashTableCreate (table_ok array_ok : bool) (numOfBuckets : Z)
  : option (option HashTable) :=
  if negb (0 <? numOfBuckets) then None
  else if negb table_ok then Some None
  else if negb array_ok then Some None
  else
    let bucketArray :=
      for_loop (Z.to_nat numOfBuckets) 0 (fun i a => bucket_set a i [])
               (replicate (Z.to_nat numOfBuckets) []) in
    Some (Some {| numOfBuckets := numOfBuckets; numOfElements := 0;
                  bucketArray := bucketArray;
                  idealRatio := float_3_0;
                  lowerRehashThreshold := float_0_0;
                  upperRehashThreshold := float_15_0;
                  keycmp := pointercmp; valuecmp := pointercmp;
                  hashFunction := pointerHashFunction;
                  keyDeallocator := None; valueDeallocator := None |}).

(** [while (pair != NULL && keycmp(key, pair->key) != 0) pair = pair->next;]
    The result is the part of the chain walked past and the final
    [pair] (the empty chain when it is [NULL]). *)
Fixpoint scan (cmp : ptr -> ptr -> Z) (k : ptr) (pair : chain) : chain * chain :=
  match pair with
  | [] => ([], [])
  | p :: next =>
      if cmp k (key p) =? 0 then ([], pair)
      else let '(before, found) := scan cmp k next in (p :: before, found)
  end.

(** [hashFunction(key) % numOfBuckets]; hash values are unsigned. *)
Definition hashValue_of (t : HashTable) (k : ptr) : Z :=
  hashFunction t k mod numOfBuckets t.

Definition HashTableGet (t : HashTable) (k : ptr) : ptr :=
  let hashValue := hashValue_of t k in
  match snd (scan (keycmp t) k (bucket_at (bucketArray t) hashValue)) with
  | [] => NULL
  | p :: _ => value p
  end.

Definition HashTableContainsKey (t : HashTable) (k : ptr) : bool :=
  negb (HashTableGet t k =? NULL).

Definition HashTableContainsValue (t : HashTable) (v : ptr) : bool :=
  for_loop (Z.to_nat (numOfBuckets t)) 0
    (fun i found =>
       found || existsb (fun p => valuecmp t v (value p) =? 0)
                        (bucket_at (bucketArray t) i))
    false.

(** One round of the inner loop of [HashTableRehash]: the node is
    pushed on the chain of its new bucket. *)
Definition relink (hash : ptr -> Z) (numOfBuckets : Z)
    (newBucketArray : list chain) (p : KeyValuePair) : list chain :=
  let hashValue := hash (key p) mod numOfBuckets in
  bucket_set newBucketArray hashValue (p :: bucket_at newBucketArray hashValue).

Definition HashTableRehash (array_ok : bool) (t : HashTable) (numOfBuckets0 : Z)
  : option HashTable :=
  if negb (0 <=? numOfBuckets0) then None
  else
    let numOfBuckets1 :=
      if numOfBuckets0 =? 0 then calculateIdealNumOfBuckets t else numOfBuckets0 in
    if numOfBuckets1 =? numOfBuckets t then Some t
    else if negb array_ok then Some t
    else
      let empty :=
        for_loop (Z.to_nat numOfBuckets1) 0 (fun i a => bucket_set a i [])
                 (replicate (Z.to_nat numOfBuckets1) []) in
      let newBucketArray :=
        for_loop (Z.to_nat (numOfBuckets t)) 0
          (fun i a =>
             fold_left (relink (hashFunction t) numOfBuckets1)
                       (bucket_at (bucketArray t) i) a)
          empty in
      Some (set_numOfBuckets (set_bucketArray t newBucketArray) numOfBuckets1).

(** The calls made when a key (a value) held by the table is dropped. *)
Definition release (deallocator : option funptr) (p : ptr) : list Event :=
  match deallocator with
  | Some f => [EvCall f p]
  | None => []
  end.

(** [HashTablePut]; [entry_ok] is the outcome of the allocation of a new
    node, [array_ok] that of the bucket array of an automatic rehash.
    The result is the error code, the table and the trace. *)
Definition HashTablePut (entry_ok array_ok : bool) (t : HashTable) (k v : ptr)
  : option (Z * HashTable * list Event) :=
  if (k =? NULL) || (v =? NULL) then None
  else
    let hashValue := hashValue_of t k in
    let '(before, found) := scan (keycmp t) k (bucket_at (bucketArray t) hashValue) in
    match found with
    | p :: next =>
        let ev_key := if key p =? k then [] else release (keyDeallocator t) (key p) in
        let ev_value := if value p =? v then [] else release (valueDeallocator t) (value p) in
        let p' := {| key := if key p =? k then key p else k;
                     value := if value p =? v then value p else v |} in
        Some (0, store_bucket t hashValue (before ++ p' :: next), ev_key ++ ev_value)
    | [] =>
        if negb entry_ok then Some (-1, t, [])
        else
          let newPair := {| key := k; value := v |} in
          let t1 :=
            set_numOfElements
              (store_bucket t hashValue (newPair :: bucket_at (bucketArray t) hashValue))
              (numOfElements t + 1) in
          if float_gt (upperRehashThreshold t1) (idealRatio t1) then
            let elementToBucketRatio :=
              float_div (float_of_long (numOfElements t1))
                        (float_of_long (numOfBuckets t1)) in
            if float_gt elementToBucketRatio (upperRehashThreshold t1) then
              t2 ← HashTableRehash array_ok t1 0; Some (0, t2, [])
            else Some (0, t1, [])
          else Some (0, t1, [])
    end.

(** [HashTableRemove]; [array_ok] as for [HashTablePut]. *)
Definition HashTableRemove (array_ok : bool) (t : HashTable) (k : ptr)
  : option (HashTable * list Event) :=
  let hashValue := hashValue_of t k in
  let '(before, found) := scan (keycmp t) k (bucket_at (bucketArray t) hashValue) in
  match found with
  | p :: next =>
      let ev := release (keyDeallocator t) (key p)
                ++ release (valueDeallocator t) (value p) ++ [EvFree p] in
      let t1 :=
        set_numOfElements (store_bucket t hashValue (before ++ next))
                          (numOfElements t - 1) in
      if float_gt (lowerRehashThreshold t1) float_0_0 then
        let elementToBucketRatio :=
          float_div (float_of_long (numOfElements t1))
                    (float_of_long (numOfBuckets t1)) in
        if float_lt elementToBucketRatio (lowerRehashThreshold t1) then
          t2 ← HashTableRehash array_ok t1 0; Some (t2, ev)
        else Some (t1, ev)
      else Some (t1, ev)
  | [] => Some (t, [])
  end.

(** The inner loop of [HashTableRemoveAll] and [HashTableDestroy]. *)
Definition release_chain (t : HashTable) (c : chain) : list Event :=
  flat_map (fun p => release (keyDeallocator t) (key p)
                     ++ release (valueDeallocator t) (value p) ++ [EvFree p]) c.

Definition HashTableRemoveAll (array_ok : bool) (t : HashTable)
  : option (HashTable * list Event) :=
  let '(bucketArray1, ev) :=
    for_loop (Z.to_nat (numOfBuckets t)) 0
      (fun i '(a, ev) =>
         (bucket_set a i [], ev ++ release_chain t (bucket_at a i)))
      (bucketArray t, []) in
  let t1 := set_numOfElements (set_bucketArray t bucketArray1) 0 in
  t2 ← HashTableRehash array_ok t1 5; Some (t2, ev).

Definition HashTableIsEmpty (t : HashTable) : bool := numOfElements t =? 0.

Definition HashTableSize (t : HashTable) : Z := numOfElements t.

Definition HashTableGetNumBuckets (t : HashTable) : Z := numOfBuckets t.

(** The setters assert that the function passed is not [NULL]; a
    function of the model never is. *)
Definition HashTableSetKeyComparisonFunction (t : HashTable)
    (f : ptr -> ptr -> Z) : HashTable :=
  {| numOfBuckets := numOfBuckets t; numOfElements := numOfElements t;
     bucketArray := bucketArray t;
     idealRatio := idealRatio t;
     lowerRehashThreshold := lowerRehashThreshold t;
     upperRehashThreshold := upperRehashThreshold t;
     keycmp := f; valuecmp := valuecmp t;
     hashFunction := hashFunction t;
     keyDeallocator := keyDeallocator t;
     valueDeallocator := valueDeallocator t |}.

Definition HashTableSetValueComparisonFunction (t : HashTable)
    (f : ptr -> ptr -> Z) : HashTable :=
  {| numOfBuckets := numOfBuckets t; numOfElements := numOfElements t;
     bucketArray := bucketArray t;
     idealRatio := idealRatio t;
     lowerRehashThreshold := lowerRehashThreshold t;
     upperRehashThreshold := upperRehashThreshold t;
     keycmp := keycmp t; valuecmp := f;
     hashFunction := hashFunction t;
     keyDeallocator := keyDeallocator t;
     valueDeallocator := valueDeallocator t |}.

Definition HashTableSetHashFunction (t : HashTable) (f : ptr -> Z) : HashTable :=
  {| numOfBuckets := numOfBuckets t; numOfElements := numOfElements t;
     bucketArray := bucketArray t;
     idealRatio := idealRatio t;
     lowerRehashThreshold := lowerRehashThreshold t;
     upperRehashThreshold := upperRehashThreshold t;
     keycmp := keycmp t; valuecmp := valuecmp t;
     hashFunction := f;
     keyDeallocator := keyDeallocator t;
     valueDeallocator := valueDeallocator t |}.

Definition HashTableSetDeallocationFunctions (t : HashTable)
    (keyDeallocator0 valueDeallocator0 : option funptr) : HashTable :=
  {| numOfBuckets := numOfBuckets t; numOfElements := numOfElements t;
     bucketArray := bucketArray t;
     idealRatio := idealRatio t;
     lowerRehashThreshold := lowerRehashThreshold t;
     upperRehashThreshold := upperRehashThreshold t;
     keycmp := keycmp t; valuecmp := valuecmp t;
     hashFunction := hashFunction t;
     keyDeallocator := keyDeallocator0;
     valueDeallocator := valueDeallocator0 |}.

(** ** Iterator *)

(** The loop of [hashTableGetFirst], entered at index [b]. *)
Fixpoint getFirst_loop (count : nat) (t : HashTable) (b : Z)
  : option (HashTableIterator * ptr * ptr) :=
  match count with
  | O => None
  | S count' =>
      match bucket_at (bucketArray t) b with
      | p :: next => Some ({| bucket := b; pair := p :: next |}, key p, value p)
      | [] => getFirst_loop count' t (b + 1)
      end
  end.

(** [hashTableGetFirst]; [iter_ok] is the outcome of the allocation of
    the iterator.  The source does not test it: when the allocation
    fails, the first statement of the loop stores [iter->bucket = 0]
    through the [NULL] pointer and the program does not continue, which
    is [None] here as for a failed assertion.  Otherwise the result is
    the cursor with the key and value it stands on, or the inner [None]
    for the [NULL] result. *)
Definition hashTableGetFirst (iter_ok : bool) (t : HashTable)
  : option (option (HashTableIterator * ptr * ptr)) :=
  if negb iter_ok then None
  else Some (getFirst_loop (Z.to_nat (numOfBuckets t)) t 0).

(** The [while] loop of [hashTableGetNext]. *)
Fixpoint getNext_loop (fuel : nat) (t : HashTable) (b : Z) (pr : chain)
  : option (HashTableIterator * ptr * ptr) :=
  match fuel with
  | O => None
  | S fuel' =>
      if b <? numOfBuckets t then
        match pr with
        | [] =>
            if b + 1 <? numOfBuckets t
            then getNext_loop fuel' t (b + 1) (bucket_at (bucketArray t) (b + 1))
            else None
        | p :: _ => Some ({| bucket := b; pair := pr |}, key p, value p)
        end
      else None
  end.

(** Every round but the last moves to the next bucket, so the loop
    makes at most [numOfBuckets] rounds. *)
Definition hashTableGetNext (t : HashTable) (iter : HashTableIterator)
  : option (HashTableIterator * ptr * ptr) :=
  getNext_loop (S (Z.to_nat (numOfBuckets t))) t (bucket iter) (tail (pair iter)).

(** The calls of [next] after a cursor [cur] until the absent indicator;
    each visit is recorded with the bucket index of the cursor.  [None]
    when the iteration has not ended after [fuel] visits. *)
Fixpoint iterate_from (fuel : nat) (t : HashTable)
    (cur : option (HashTableIterator * ptr * ptr)) : option (list (Z * ptr * ptr)) :=
  match cur with
  | None => Some []
  | Some (iter, k, v) =>
      match fuel with
      | O => None
      | S fuel' =>
          rest ← iterate_from fuel' t (hashTableGetNext t iter);
          Some ((bucket iter, k, v) :: rest)
      end
  end.

(** A full iteration: [first], then [next] until the absent indicator.
    [None] when [first] does not return or the iteration has not ended
    after [fuel] visits. *)
Definition full_iteration (iter_ok : bool) (fuel : nat) (t : HashTable)
  : option (list (Z * ptr * ptr)) :=
  cur ← hashTableGetFirst iter_ok t; iterate_from fuel t cur.

(** ** Teardown *)

(** [HashTableDestroy]: the trace of its loops.  The [free] of the
    bucket array and of the table itself that follow end the life of
    the table: nothing is returned. *)
Definition HashTableDestroy (t : HashTable) : list Event :=
  for_loop (Z.to_nat (numOfBuckets t)) 0
    (fun i ev => ev ++ release_chain t (bucket_at (bucketArray t) i))
    [].

(** ** Specification-level definitions *)

(** *** Sizing policy *)

(** The bucket count as the specification words it: the floor of the
    exact quotient, clamped to 5 or made odd, then advanced by 2 until
    the trial division by 3, 5, ..., 49 accepts. *)
Definition spec_trial_divisors : list Z :=
  [3; 5; 7; 9; 11; 13; 15; 17; 19; 21; 23; 25; 27; 29; 31; 33; 35; 37; 39;
   41; 43; 45; 47; 49].

Fixpoint spec_probablePrime_from (divisors : list Z) (n : Z) : bool :=
  match divisors with
  | [] => true
  | d :: rest =>
      if n =? d then true
      else if n mod d =? 0 then false
      else spec_probablePrime_from rest n
  end.

Definition spec_probablePrime (n : Z) : bool :=
  spec_probablePrime_from spec_trial_divisors n.

Fixpoint spec_advance (fuel : nat) (n : Z) : option Z :=
  match fuel with
  | O => None
  | S fuel' => if spec_probablePrime n then Some n else spec_advance fuel' (n + 2)
  end.

Definition spec_idealBucketCount (fuel : nat) (elementCount : Z) (ratio : Q) : option Z :=
  let q := Qfloor (Qdiv (inject_Z elementCount) ratio) in
  spec_advance fuel (if q <? 5 then 5 else if Z.odd q then q else q + 1).

(** The number of [j < len] for which [f] holds of [c + 2 j]. *)
Fixpoint cnt (f : Z -> bool) (c : Z) (len : nat) : nat :=
  match len with
  | O => O
  | S len' => ((if f c then 1 else 0) + cnt f (c + 2) len')%nat
  end.

Definition small_primes : list Z := [3; 5; 7; 11].
Definition big_primes : list Z := [13; 17; 19; 23; 29; 31; 37; 41; 43; 47].

Definition multiple_of (p n : Z) : bool := n mod p =? 0.

Definition has_factor_in (ps : list Z) (n : Z) : bool :=
  existsb (fun p => multiple_of p n) ps.

Definition no_small_factor (n : Z) : bool :=
  negb (has_factor_in small_primes n) && negb (has_factor_in big_primes n).

(** The least multiple of [p] that is at least [search_bound]. *)
Definition window_of (p : Z) : nat :=
  Z.to_nat (p * ((Z.of_nat search_bound + p - 1) / p)).

(** A table whose only relevant fields are the element count and the
    ideal ratio. *)
Definition sizing_table (elements : Z) (ratio : float) : HashTable :=
  {| numOfBuckets := 5; numOfElements := elements; bucketArray := replicate 5 [];
     idealRatio := ratio;
     lowerRehashThreshold := float_0_0; upperRehashThreshold := float_15_0;
     keycmp := pointercmp; valuecmp := pointercmp;
     hashFunction := pointerHashFunction;
     keyDeallocator := None; valueDeallocator := None |}.

(** *** Tables *)

(** All live entries, bucket by bucket. *)
Definition entries (t : HashTable) : list KeyValuePair := concat (bucketArray t).

(** No two entries, at different places, have keys that compare equal. *)
Definition no_equal_keys (cmp : ptr -> ptr -> Z) (l : list KeyValuePair) : Prop :=
  forall (a b : nat) (p q : KeyValuePair),
    l !! a = Some p -> l !! b = Some q -> cmp (key p) (key q) = 0 -> a = b.

(** The representation invariant.  [inv_array] is the shape of the
    model: the bucket array has [numOfBuckets] slots. *)
Record Inv (t : HashTable) : Prop := {
  inv_buckets : 0 < numOfBuckets t;
  inv_array : length (bucketArray t) = Z.to_nat (numOfBuckets t);
  inv_count : numOfElements t = Z.of_nat (sum_list (length <$> bucketArray t));
  inv_place : forall (i : nat) (c : chain) (p : KeyValuePair),
      bucketArray t !! i = Some c -> p ∈ c ->
      hashValue_of t (key p) = Z.of_nat i;
  inv_unique : no_equal_keys (keycmp t) (entries t)
}.

(** The key comparison is an equivalence relation and the hash function
    respects it. *)
Record Strategies_ok (t : HashTable) : Prop := {
  cmp_refl : forall a, keycmp t a a = 0;
  cmp_sym : forall a b, keycmp t a b = 0 -> keycmp t b a = 0;
  cmp_trans : forall a b c, keycmp t a b = 0 -> keycmp t b c = 0 -> keycmp t a c = 0;
  hash_respects : forall a b, keycmp t a b = 0 -> hashFunction t a = hashFunction t b
}.

(** The fields that no engine operation other than a setter writes. *)
Definition same_config (t t' : HashTable) : Prop :=
  keycmp t' = keycmp t /\ valuecmp t' = valuecmp t /\
  hashFunction t' = hashFunction t /\
  keyDeallocator t' = keyDeallocator t /\ valueDeallocator t' = valueDeallocator t /\
  idealRatio t' = idealRatio t /\
  lowerRehashThreshold t' = lowerRehashThreshold t /\
  upperRehashThreshold t' = upperRehashThreshold t.

Definition values_nonnull (t : HashTable) : Prop :=
  forall p, p ∈ entries t -> value p <> NULL.

(** The recursive reading of [no_equal_keys]. *)
Fixpoint distinct_keys (cmp : ptr -> ptr -> Z) (l : list KeyValuePair) : Prop :=
  match l with
  | [] => True
  | p :: l' =>
      (forall q, q ∈ l' -> cmp (key p) (key q) <> 0 /\ cmp (key q) (key p) <> 0)
      /\ distinct_keys cmp l'
  end.

(** The table as an association list: the value of the first entry whose
    key compares equal to [k]. *)
Definition assoc (cmp : ptr -> ptr -> Z) (k : ptr) (l : list KeyValuePair) : ptr :=
  match find (fun p => cmp k (key p) =? 0) l with
  | Some p => value p
  | None => NULL
  end.

(** Placement of the entries of a bucket array of [n] slots. *)
Definition placed (hash : ptr -> Z) (n : Z) (a : list chain) : Prop :=
  forall (i : nat) (c : chain) (p : KeyValuePair),
    a !! i = Some c -> p ∈ c -> hash (key p) mod n = Z.of_nat i.

(** The table that [HashTableCreate] returns. *)
Definition fresh_table (n : Z) : HashTable :=
  {| numOfBuckets := n; numOfElements := 0;
     bucketArray := replicate (Z.to_nat n) [];
     idealRatio := float_3_0;
     lowerRehashThreshold := float_0_0;
     upperRehashThreshold := float_15_0;
     keycmp := pointercmp; valuecmp := pointercmp;
     hashFunction := pointerHashFunction;
     keyDeallocator := None; valueDeallocator := None |}.

(** *** Sequences of puts *)




(** *** Operations and reachable states *)

Inductive Op :=
| OpPut (entry_ok array_ok : bool) (k v : ptr)
| OpGet (k : ptr)
| OpRemove (array_ok : bool) (k : ptr)
| OpRemoveAll (array_ok : bool)
| OpRehash (array_ok : bool) (n : Z)
| OpSetKeyComparison (f : ptr -> ptr -> Z)
| OpSetValueComparison (f : ptr -> ptr -> Z)
| OpSetHashFunction (f : ptr -> Z)
| OpSetDeallocation (keyDeallocator0 valueDeallocator0 : option funptr).

Definition step (t : HashTable) (op : Op) : option HashTable :=
  match op with
  | OpPut entry_ok array_ok k v =>
      '(_, t', _) ← HashTablePut entry_ok array_ok t k v; Some t'
  | OpGet k => let _ := HashTableGet t k in Some t
  | OpRemove array_ok k => '(t', _) ← HashTableRemove array_ok t k; Some t'
  | OpRemoveAll array_ok => '(t', _) ← HashTableRemoveAll array_ok t; Some t'
  | OpRehash array_ok n => HashTableRehash array_ok t n
  | OpSetKeyComparison f => Some (HashTableSetKeyComparisonFunction t f)
  | OpSetValueComparison f => Some (HashTableSetValueComparisonFunction t f)
  | OpSetHashFunction f => Some (HashTableSetHashFunction t f)
  | OpSetDeallocation kd vd => Some (HashTableSetDeallocationFunctions t kd vd)
  end.

Fixpoint run (t : HashTable) (ops : list Op) : option HashTable :=
  match ops with
  | [] => Some t
  | op :: rest => t' ← step t op; run t' rest
  end.

(** The discipline under which the invariant is kept: entries are put
    only while the strategies are sound, and the strategies that place
    and identify entries are replaced only while the table is empty. *)
Definition disciplined (t : HashTable) (op : Op) : Prop :=
  match op with
  | OpPut _ _ _ _ => Strategies_ok t
  | OpSetKeyComparison _ | OpSetHashFunction _ => numOfElements t = 0
  | _ => True
  end.

Fixpoint disciplined_run (t : HashTable) (ops : list Op) : Prop :=
  match ops with
  | [] => True
  | op :: rest =>
      disciplined t op /\
      match step t op with
      | Some t' => disciplined_run t' rest
      | None => True
      end
  end.

(** The operations other than the two setters that change where an
    entry belongs and which entries are equal. *)
Definition keeps_strategies (op : Op) : bool :=
  match op with
  | OpSetKeyComparison _ | OpSetHashFunction _ => false
  | _ => true
  end.

(** *** Iteration order *)

(** What a full iteration visits: bucket by bucket from index [b] on,
    every chain from its head. *)
Fixpoint visits_from (b : Z) (a : list chain) : list (Z * ptr * ptr) :=
  match a with
  | [] => []
  | c :: a' => map (fun p => (b, key p, value p)) c ++ visits_from (b + 1) a'
  end.

Definition visits (t : HashTable) : list (Z * ptr * ptr) :=
  visits_from 0 (bucketArray t).

Definition visit_bucket (x : Z * ptr * ptr) : Z := fst (fst x).
Definition visit_key (x : Z * ptr * ptr) : ptr := snd (fst x).

(** The keys of the live entries in the order of their insertion, most
    recent first, as a put and a remove change it. *)
Definition history_put (cmp : ptr -> ptr -> Z) (entry_ok : bool) (k : ptr)
    (h : list ptr) : list ptr :=
  if existsb (fun k' => cmp k k' =? 0) h
  then map (fun k' => if cmp k k' =? 0 then k else k') h
  else if entry_ok then k :: h else h.

Definition history_remove (cmp : ptr -> ptr -> Z) (k : ptr) (h : list ptr) : list ptr :=
  filter (fun k' => cmp k k' <> 0) h.

Definition history_step (t : HashTable) (op : Op) (h : list ptr) : list ptr :=
  match op with
  | OpPut entry_ok _ k _ => history_put (keycmp t) entry_ok k h
  | OpRemove _ k => history_remove (keycmp t) k h
  | OpRemoveAll _ => []
  | _ => h
  end.

Fixpoint run_history (t : HashTable) (h : list ptr) (ops : list Op)
  : option (HashTable * list ptr) :=
  match ops with
  | [] => Some (t, h)
  | op :: rest => t' ← step t op; run_history t' (history_step t op h) rest
  end.

(** Within every bucket the visits are most recently inserted first. *)
Definition newest_first (t : HashTable) (h : list ptr) (vs : list (Z * ptr * ptr)) : Prop :=
  forall b : Z,
    map visit_key (filter (fun x => visit_bucket x = b) vs)
    = filter (fun k => hashValue_of t k = b) h.

(** The same, chain by chain. *)
Definition chains_newest_first (t : HashTable) (h : list ptr) : Prop :=
  forall (i : nat) (c : chain),
    bucketArray t !! i = Some c ->
    map key c = filter (fun k => hashValue_of t k = Z.of_nat i) h.

(** No operation of the run changes the bucket count, and the strategies
    are sound throughout. *)
Fixpoint steady (t : HashTable) (ops : list Op) : Prop :=
  match ops with
  | [] => True
  | op :: rest =>
      Strategies_ok t /\
      match step t op with
      | Some t' => numOfBuckets t' = numOfBuckets t /\ steady t' rest
      | None => True
      end
  end.

(** *** A sample run *)

(** Five buckets; the keys 16 and 96 share bucket 1, the key 32 lies in
    bucket 2, and the second put of 16 overwrites the first. *)
Definition sample_ops : list Op :=
  [OpPut true true 16 1; OpPut true true 32 2; OpPut true true 16 3;
   OpPut true true 96 4].

Definition sample_table : HashTable :=
  default (fresh_table 5) (run (fresh_table 5) sample_ops).

(** *** Traces *)

(** The chain nodes that a trace frees, in order. *)
Definition freed_nodes (ev : list Event) : list KeyValuePair :=
  flat_map (fun e => match e with EvFree p => [p] | EvCall _ _ => [] end) ev.

(** The arguments with which a trace invokes the callback [f], in order. *)
Definition released_by (f : funptr) (ev : list Event) : list ptr :=
  flat_map (fun e => match e with
                     | EvCall g a => if g =? f then [a] else []
                     | EvFree _ => []
                     end) ev.

(** *** Thresholds *)

(** The three ratios that steer the automatic rehash are the same in
    both tables. *)
Definition same_thresholds (t t' : HashTable) : Prop :=
  idealRatio t' = idealRatio t /\
  lowerRehashThreshold t' = lowerRehashThreshold t /\
  upperRehashThreshold t' = upperRehashThreshold t.

(** *** A crowded table *)

(** One bucket holding the 15 keys 16, 32, ..., 240: the load at which
    the next new key triggers the automatic rehash. *)
Definition crowded_ops : list Op :=
  map (fun i => OpPut true true (16 * Z.of_nat i) (Z.of_nat i)) (seq 1 15).

Definition crowded_table : HashTable :=
  default (fresh_table 1) (run (fresh_table 1) crowded_ops).

(** *** Use under which the load stays bounded *)

(** The operations other than: a put whose automatic rehash cannot
    allocate, a rehash to a bucket count chosen by the caller, and the
    replacement of the key comparison or of the hash function. *)
Definition grows_freely (op : Op) : bool :=
  match op with
  | OpPut _ array_ok _ _ => array_ok
  | OpRehash _ n => n =? 0
  | OpSetKeyComparison _ | OpSetHashFunction _ => false
  | _ => true
  end.

(** * Proofs *)

(** ** Sizing policy *)

Section Counting.

Lemma rem_zero_iff_mod_zero (n d : Z) :
  d <> 0 -> Z.rem n d = 0 <-> n mod d = 0.
Proof.
  intros Hd. rewrite Z.rem_divide, Z.mod_divide by assumption. reflexivity.
Qed.

Lemma mod_add_multiple (n m p : Z) :
  p <> 0 -> m mod p = 0 -> (n + m) mod p = n mod p.
Proof.
  intros Hp Hm. apply Z.mod_divide in Hm; [|assumption].
  destruct Hm as [q ->]. apply Z_mod_plus_full.
Qed.

Lemma has_factor_in_shift (ps : list Z) (m n : Z) :
  Forall (fun p => p <> 0 /\ m mod p = 0) ps ->
  has_factor_in ps (n + m) = has_factor_in ps n.
Proof.
  unfold has_factor_in. induction 1 as [|p ps [Hp Hm] _ IH]; simpl.
  - reflexivity.
  - unfold multiple_of at 1 3. rewrite IH, mod_add_multiple by assumption.
    reflexivity.
Qed.

Variable f : Z -> bool.

Lemma cnt_snoc (c : Z) (len : nat) :
  cnt f c (S len) = (cnt f c len + (if f (c + 2 * Z.of_nat len) then 1 else 0))%nat.
Proof.
  revert c. induction len as [|len IH]; intros c.
  - simpl. replace (c + 2 * Z.of_nat 0) with c by lia. lia.
  - change (cnt f c (S (S len)))
      with ((if f c then 1 else 0) + cnt f (c + 2) (S len))%nat.
    rewrite IH. simpl cnt.
    replace (c + 2 + 2 * Z.of_nat len) with (c + 2 * Z.of_nat (S len)) by lia.
    lia.
Qed.

Lemma cnt_app (c : Z) (len more : nat) :
  cnt f c (len + more) = (cnt f c len + cnt f (c + 2 * Z.of_nat len) more)%nat.
Proof.
  revert c. induction len as [|len IH]; intros c.
  - simpl. replace (c + 2 * Z.of_nat 0) with c by lia. reflexivity.
  - simpl cnt. rewrite IH.
    replace (c + 2 + 2 * Z.of_nat len) with (c + 2 * Z.of_nat (S len)) by lia.
    lia.
Qed.

Lemma cnt_mono (c : Z) (len len' : nat) :
  (len <= len')%nat -> (cnt f c len <= cnt f c len')%nat.
Proof.
  intros Hle. replace len' with (len + (len' - len))%nat by lia.
  rewrite cnt_app. lia.
Qed.

Lemma cnt_bound (c : Z) (len : nat) : (cnt f c len <= len)%nat.
Proof.
  revert c. induction len as [|len IH]; intros c; simpl.
  - lia.
  - specialize (IH (c + 2)). destruct (f c); lia.
Qed.

(** Sliding a window whose length is a period of [f] keeps the count. *)
Lemma cnt_slide (len : nat) (c : Z) :
  (forall n, f (n + 2 * Z.of_nat len) = f n) ->
  cnt f (c + 2) len = cnt f c len.
Proof.
  intros Hper. destruct len as [|len].
  - reflexivity.
  - rewrite (cnt_snoc (c + 2)). simpl cnt.
    replace (c + 2 + 2 * Z.of_nat len) with (c + 2 * Z.of_nat (S len)) by lia.
    rewrite Hper. destruct (f c); lia.
Qed.

Lemma cnt_periodic (len : nat) (c : Z) (k : nat) :
  (forall n, f (n + 2 * Z.of_nat len) = f n) ->
  cnt f (c + 2 * Z.of_nat k) len = cnt f c len.
Proof.
  intros Hper. induction k as [|k IH].
  - replace (c + 2 * Z.of_nat 0) with c by lia. reflexivity.
  - replace (c + 2 * Z.of_nat (S k)) with (c + 2 * Z.of_nat k + 2) by lia.
    rewrite cnt_slide by assumption. exact IH.
Qed.

Lemma cnt_pos_witness (c : Z) (len : nat) :
  (0 < cnt f c len)%nat ->
  exists j, (j < len)%nat /\ f (c + 2 * Z.of_nat j) = true.
Proof.
  revert c. induction len as [|len IH]; intros c; simpl.
  - lia.
  - destruct (f c) eqn:Hfc.
    + intros _. exists O. split; [lia|].
      replace (c + 2 * Z.of_nat 0) with c by lia. assumption.
    + intros Hpos. destruct (IH (c + 2)) as (j & Hj & Hf); [lia|].
      exists (S j). split; [lia|].
      replace (c + 2 * Z.of_nat (S j)) with (c + 2 + 2 * Z.of_nat j) by lia.
      assumption.
Qed.

End Counting.

Lemma cnt_le_add (f g h : Z -> bool) (c : Z) (len : nat) :
  (forall n, f n = true -> g n = true \/ h n = true) ->
  (cnt f c len <= cnt g c len + cnt h c len)%nat.
Proof.
  intros Himp. revert c. induction len as [|len IH]; intros c; simpl.
  - lia.
  - specialize (IH (c + 2)). specialize (Himp c).
    destruct (f c), (g c), (h c); lia.
Qed.

(** The candidates of a window that a prime of [ps] divides are at most
    as many as the primes divide one by one. *)
Lemma cnt_has_factor_in (ps : list Z) (c : Z) (len : nat) :
  (cnt (has_factor_in ps) c len
   <= sum_list (map (fun p => cnt (multiple_of p) c len) ps))%nat.
Proof.
  induction ps as [|p ps IH]; simpl.
  - clear. revert c. induction len as [|len IH]; intros c; simpl; [lia|apply IH].
  - etransitivity; [|apply Nat.add_le_mono_l, IH].
    apply cnt_le_add. intros n. unfold has_factor_in. simpl.
    rewrite orb_true_iff. tauto.
Qed.

Lemma window_of_spec :
  Forall (fun p => 0 < p /\ (search_bound <= window_of p)%nat
                   /\ (2 * Z.of_nat (window_of p)) mod p = 0) big_primes.
Proof.
  unfold big_primes.
  repeat (apply Forall_cons; split;
          [split; [reflexivity|split; [apply Nat.leb_le|]]; vm_compute; reflexivity|]).
  apply Forall_nil. trivial.
Qed.

(** In a full window every [p]-th candidate is a multiple of [p]. *)
Lemma window_count_at_5 :
  Forall (fun p => cnt (multiple_of p) 5 (window_of p)
                   = Z.to_nat (Z.of_nat (window_of p) / p)) big_primes.
Proof.
  unfold big_primes.
  repeat (apply Forall_cons; split; [vm_compute; reflexivity|]).
  apply Forall_nil. trivial.
Qed.

Lemma small_coprime_count_at_5 :
  cnt (fun n => negb (has_factor_in small_primes n)) 5 search_bound = 480%nat.
Proof. vm_compute. reflexivity. Qed.

Lemma big_primes_budget :
  sum_list (map (fun p => Z.to_nat (Z.of_nat (window_of p) / p)) big_primes) = 460%nat.
Proof. vm_compute. reflexivity. Qed.

Lemma big_prime_count (k : nat) :
  (sum_list (map (fun p => cnt (multiple_of p) (5 + 2 * Z.of_nat k) search_bound)
                 big_primes) <= 460)%nat.
Proof.
  rewrite <- big_primes_budget.
  pose proof window_of_spec as Hw. pose proof window_count_at_5 as Hc.
  induction Hw as [|p ps (Hp & Hlen & Hper) _ IH]; cbn [map sum_list].
  - lia.
  - inversion Hc as [|? ? Hp5 Hc']; subst.
    apply Nat.add_le_mono; [|apply IH; assumption].
    rewrite <- Hp5.
    rewrite <- (cnt_periodic _ (window_of p) 5 k).
    + apply cnt_mono. assumption.
    + intros n. unfold multiple_of. rewrite mod_add_multiple by lia. reflexivity.
Qed.

(** Among 1155 consecutive odd candidates from 5 on, at least 20 have
    no prime factor below 50. *)
Lemma no_small_factor_count (k : nat) :
  (20 <= cnt no_small_factor (5 + 2 * Z.of_nat k) search_bound)%nat.
Proof.
  set (c := 5 + 2 * Z.of_nat k).
  assert (Hsmall : cnt (fun n => negb (has_factor_in small_primes n)) c search_bound
                   = 480%nat).
  { unfold c. rewrite cnt_periodic; [apply small_coprime_count_at_5|].
    intros n. f_equal. apply has_factor_in_shift.
    unfold small_primes.
    repeat (apply Forall_cons; split; [split; [discriminate|reflexivity]|]).
    apply Forall_nil. trivial. }
  pose proof (cnt_le_add (fun n => negb (has_factor_in small_primes n))
                no_small_factor (has_factor_in big_primes) c search_bound) as Hsplit.
  pose proof (cnt_has_factor_in big_primes c search_bound) as Hbig.
  pose proof (big_prime_count k) as Hbudget. fold c in Hbudget.
  assert (cnt (fun n => negb (has_factor_in small_primes n)) c search_bound
          <= cnt no_small_factor c search_bound
             + cnt (has_factor_in big_primes) c search_bound)%nat as Hle.
  { apply Hsplit. intros n Hn. unfold no_small_factor. rewrite Hn.
    destruct (has_factor_in big_primes n); auto. }
  lia.
Qed.

(** *** The probable-prime test *)

Lemma rem_eqb_mod (n d : Z) : d <> 0 -> (Z.rem n d =? 0) = (n mod d =? 0).
Proof.
  intros Hd. destruct (Z.eqb_spec (Z.rem n d) 0) as [Hr|Hr];
    destruct (Z.eqb_spec (n mod d) 0) as [Hm|Hm]; try reflexivity;
    rewrite rem_zero_iff_mod_zero in Hr by assumption; contradiction.
Qed.

(** The loop of the source is the trial division by 3, 5, ..., 49. *)
Lemma isProbablePrime_trial_division (n : Z) :
  isProbablePrime n = spec_probablePrime n.
Proof.
  unfold isProbablePrime, spec_probablePrime, spec_trial_divisors.
  cbn -[Z.rem Z.eqb Z.modulo].
  rewrite !rem_eqb_mod by discriminate. reflexivity.
Qed.

Lemma spec_probablePrime_from_accepts (ds : list Z) (n : Z) :
  (forall d, In d ds -> n mod d <> 0) -> spec_probablePrime_from ds n = true.
Proof.
  induction ds as [|d ds IH]; intros Hnd; simpl.
  - reflexivity.
  - destruct (n =? d); [reflexivity|].
    destruct (Z.eqb_spec (n mod d) 0) as [Hz|_].
    + exfalso. apply (Hnd d); [left; reflexivity|assumption].
    + apply IH. intros d' Hd'. apply Hnd. right. assumption.
Qed.

Lemma spec_probablePrime_from_sound (ds : list Z) (n : Z) :
  StronglySorted Z.lt ds -> Forall (fun d => 0 < d) ds ->
  spec_probablePrime_from ds n = true ->
  forall d, In d ds -> (d | n) -> n = d.
Proof.
  induction ds as [|a ds IH]; intros Hsort Hpos Hpp d Hin Hdiv.
  - destruct Hin.
  - apply StronglySorted_inv in Hsort as [Hsort Hlt].
    apply Forall_cons in Hpos as [Ha Hpos]. simpl in Hpp.
    destruct (Z.eqb_spec n a) as [->|Hne].
    + destruct Hin as [->|Hin]; [reflexivity|].
      rewrite Forall_forall in Hlt.
      assert (a < d) by (apply Hlt, list_elem_of_In; exact Hin).
      apply Z.divide_pos_le in Hdiv; lia.
    + destruct (Z.eqb_spec (n mod a) 0) as [Hz|Hnz]; [discriminate|].
      destruct Hin as [->|Hin].
      * exfalso. apply Hnz. apply Z.mod_divide; [lia|assumption].
      * apply IH; assumption.
Qed.

Lemma spec_trial_divisors_sorted :
  StronglySorted Z.lt spec_trial_divisors /\ Forall (fun d => 0 < d) spec_trial_divisors.
Proof.
  unfold spec_trial_divisors. split.
  - repeat (apply SSorted_cons;
            [|repeat (apply Forall_cons; split; [reflexivity|]); apply Forall_nil; trivial]).
    apply SSorted_nil.
  - repeat (apply Forall_cons; split; [reflexivity|]). apply Forall_nil. trivial.
Qed.

Lemma odd_in_trial_divisors (i : Z) :
  3 <= i <= 49 -> Z.odd i = true -> In i spec_trial_divisors.
Proof.
  intros Hrange Hodd. apply Zodd_bool_iff, Zodd_ex in Hodd as [k ->].
  assert (Hk : 1 <= k <= 24) by lia.
  assert (Hcases : In k (map Z.of_nat (seq 1 24))).
  { apply in_map_iff. exists (Z.to_nat k). split; [lia|]. apply in_seq. lia. }
  cbn in Hcases. unfold spec_trial_divisors.
  repeat (destruct Hcases as [<-|Hcases]; [cbn; tauto|]). destruct Hcases.
Qed.

Lemma trial_divisors_have_prime_factor :
  Forall (fun d => has_factor_in (small_primes ++ big_primes) d = true)
         spec_trial_divisors.
Proof.
  unfold spec_trial_divisors.
  repeat (apply Forall_cons; split; [reflexivity|]). apply Forall_nil. trivial.
Qed.

Lemma no_small_factor_probablePrime (n : Z) :
  no_small_factor n = true -> isProbablePrime n = true.
Proof.
  intros Hn. rewrite isProbablePrime_trial_division.
  apply spec_probablePrime_from_accepts. intros d Hd Hmod.
  pose proof trial_divisors_have_prime_factor as Hpf.
  rewrite Forall_forall in Hpf.
  assert (Hfac : has_factor_in (small_primes ++ big_primes) d = true)
    by (apply Hpf, list_elem_of_In; exact Hd).
  unfold has_factor_in in Hfac. apply existsb_exists in Hfac as (p & Hp & Hpd).
  unfold multiple_of in Hpd. apply Z.eqb_eq in Hpd.
  assert (Hp0 : p <> 0).
  { intros ->. cbn in Hp. repeat (destruct Hp as [Hp|Hp]; [discriminate|]).
    destruct Hp. }
  assert (Hd0 : d <> 0).
  { intros ->. cbn in Hd. repeat (destruct Hd as [Hd|Hd]; [discriminate|]).
    destruct Hd. }
  assert (Hpn : n mod p = 0).
  { apply Z.mod_divide; [assumption|].
    apply Z.divide_trans with d; apply Z.mod_divide; assumption. }
  unfold no_small_factor in Hn. apply andb_true_iff in Hn as [Hs Hb].
  assert (Hex : has_factor_in (small_primes ++ big_primes) n = true).
  { unfold has_factor_in. apply existsb_exists. exists p. split; [assumption|].
    unfold multiple_of. apply Z.eqb_eq. assumption. }
  unfold has_factor_in in Hex, Hs, Hb. rewrite existsb_app in Hex.
  destruct (existsb _ small_primes); [discriminate|].
  destruct (existsb _ big_primes); discriminate.
Qed.

Lemma isProbablePrime_no_trial_divisor (n i : Z) :
  isProbablePrime n = true -> 3 <= i <= 49 -> Z.odd i = true -> (i | n) -> n = i.
Proof.
  intros Hpp Hrange Hodd Hdiv. rewrite isProbablePrime_trial_division in Hpp.
  destruct spec_trial_divisors_sorted as [Hsort Hpos].
  eapply spec_probablePrime_from_sound; eauto using odd_in_trial_divisors.
Qed.

(** *** The search loop *)

Lemma advance_to_prime_sound (fuel : nat) (c r : Z) :
  advance_to_prime fuel c = Some r ->
  exists j, (j < fuel)%nat /\ r = c + 2 * Z.of_nat j /\ isProbablePrime r = true
            /\ forall i, (i < j)%nat -> isProbablePrime (c + 2 * Z.of_nat i) = false.
Proof.
  revert c. induction fuel as [|fuel IH]; intros c; simpl; [discriminate|].
  destruct (isProbablePrime c) eqn:Hc.
  - intros [= <-]. exists O. repeat split; [lia|lia|assumption|lia].
  - intros Hr. apply IH in Hr as (j & Hj & -> & Hpp & Hbefore).
    exists (S j). repeat split; [lia|lia|assumption|].
    intros [|i] Hi.
    + replace (c + 2 * Z.of_nat 0) with c by lia. assumption.
    + replace (c + 2 * Z.of_nat (S i)) with (c + 2 + 2 * Z.of_nat i) by lia.
      apply Hbefore. lia.
Qed.

Lemma advance_to_prime_complete (fuel : nat) (c : Z) (j : nat) :
  (j < fuel)%nat -> isProbablePrime (c + 2 * Z.of_nat j) = true ->
  exists r, advance_to_prime fuel c = Some r.
Proof.
  revert c j. induction fuel as [|fuel IH]; intros c j Hj Hpp; [lia|]. simpl.
  destruct (isProbablePrime c) eqn:Hc; [eauto|].
  destruct j as [|j].
  - replace (c + 2 * Z.of_nat 0) with c in Hpp by lia. congruence.
  - apply (IH (c + 2) j); [lia|].
    replace (c + 2 + 2 * Z.of_nat j) with (c + 2 * Z.of_nat (S j)) by lia.
    assumption.
Qed.

Lemma advance_to_prime_more_fuel (fuel fuel' : nat) (c r : Z) :
  advance_to_prime fuel c = Some r -> (fuel <= fuel')%nat ->
  advance_to_prime fuel' c = Some r.
Proof.
  revert fuel' c. induction fuel as [|fuel IH]; intros fuel' c; simpl; [discriminate|].
  intros Hr Hle. destruct fuel' as [|fuel']; [lia|]. simpl.
  destruct (isProbablePrime c); [assumption|]. apply IH; [assumption|lia].
Qed.

Lemma advance_to_prime_steps (fuel : nat) (c : Z) (j : nat) :
  isProbablePrime (c + 2 * Z.of_nat j) = true ->
  (forall i, (i < j)%nat -> isProbablePrime (c + 2 * Z.of_nat i) = false) ->
  (j < fuel)%nat -> advance_to_prime fuel c = Some (c + 2 * Z.of_nat j).
Proof.
  intros Hpp Hbefore Hj.
  destruct (advance_to_prime_complete fuel c j Hj Hpp) as [r Hr].
  rewrite Hr. apply advance_to_prime_sound in Hr as (j' & _ & -> & Hpp' & Hbefore').
  destruct (Nat.lt_trichotomy j j') as [Hlt|[->|Hgt]].
  - apply Hbefore' in Hlt. congruence.
  - reflexivity.
  - apply Hbefore in Hgt. congruence.
Qed.

(** Every search from an odd number from 5 on ends within
    [search_bound] tests. *)
Lemma advance_to_prime_total (k : nat) :
  exists r, advance_to_prime search_bound (5 + 2 * Z.of_nat k) = Some r.
Proof.
  pose proof (no_small_factor_count k) as Hcount.
  destruct (cnt_pos_witness no_small_factor (5 + 2 * Z.of_nat k) search_bound)
    as (j & Hj & Hnsf); [lia|].
  eapply advance_to_prime_complete; [exact Hj|].
  apply no_small_factor_probablePrime. assumption.
Qed.

(** *** The starting value *)

Lemma lor_1_odd (q : Z) : 0 <= q -> Z.lor q 1 = if Z.odd q then q else q + 1.
Proof.
  intros Hq. destruct q as [|p|p]; [reflexivity| |lia].
  destruct p; reflexivity.
Qed.

Lemma ideal_start_cases (t : HashTable) :
  let q := long_of_float (float_div (float_of_long (numOfElements t)) (idealRatio t)) in
  ideal_start t = if q <? 5 then 5 else if Z.odd q then q else q + 1.
Proof.
  intros q. unfold ideal_start. fold q. destruct (Z.ltb_spec q 5); [reflexivity|].
  apply lor_1_odd. lia.
Qed.

Lemma ideal_start_odd (t : HashTable) :
  exists k : nat, ideal_start t = 5 + 2 * Z.of_nat k.
Proof.
  rewrite ideal_start_cases.
  set (q := long_of_float _). destruct (Z.ltb_spec q 5) as [Hlt|Hge].
  - exists O. reflexivity.
  - destruct (Z.odd q) eqn:Hodd.
    + apply Zodd_bool_iff, Zodd_ex in Hodd as [m Hm].
      exists (Z.to_nat (m - 2)). lia.
    + assert (Heven : Z.even q = true) by (rewrite <- Z.negb_odd, Hodd; reflexivity).
      apply Zeven_bool_iff, Zeven_ex in Heven as [m Hm].
      exists (Z.to_nat (m - 2)). lia.
Qed.

(** The search: it ends after fewer than [search_bound] steps. *)
Lemma ideal_search_steps (t : HashTable) :
  exists steps : nat,
    (steps < search_bound)%nat /\
    isProbablePrime (ideal_start t + 2 * Z.of_nat steps) = true /\
    (forall i, (i < steps)%nat ->
               isProbablePrime (ideal_start t + 2 * Z.of_nat i) = false) /\
    (forall fuel, (steps < fuel)%nat ->
       calculateIdealNumOfBuckets_fuel fuel t
       = Some (ideal_start t + 2 * Z.of_nat steps)) /\
    calculateIdealNumOfBuckets t = ideal_start t + 2 * Z.of_nat steps.
Proof.
  destruct (ideal_start_odd t) as [k Hk].
  destruct (advance_to_prime_total k) as [r Hr]. rewrite <- Hk in Hr.
  pose proof Hr as Hsound.
  apply advance_to_prime_sound in Hsound as (j & Hj & -> & Hpp & Hbefore).
  exists j. split; [assumption|]. split; [assumption|]. split; [assumption|].
  split.
  - intros fuel Hfuel. unfold calculateIdealNumOfBuckets_fuel.
    apply advance_to_prime_steps; assumption.
  - unfold calculateIdealNumOfBuckets, calculateIdealNumOfBuckets_fuel.
    rewrite Hr. reflexivity.
Qed.

(** ** Single precision: the quotient by 3.0 *)

Lemma digits2_pos_bounds (p : positive) :
  2 ^ (Z.pos (digits2_pos p) - 1) <= Z.pos p < 2 ^ Z.pos (digits2_pos p).
Proof.
  induction p as [p IH|p IH|]; cbn [digits2_pos].
  - rewrite Pos2Z.inj_succ.
    replace (Z.succ (Z.pos (digits2_pos p)) - 1) with (Z.succ (Z.pos (digits2_pos p) - 1)) by lia.
    rewrite !Z.pow_succ_r by lia. lia.
  - rewrite Pos2Z.inj_succ.
    replace (Z.succ (Z.pos (digits2_pos p)) - 1) with (Z.succ (Z.pos (digits2_pos p) - 1)) by lia.
    rewrite !Z.pow_succ_r by lia. lia.
  - simpl. lia.
Qed.

Lemma digits2_pos_unique (p : positive) (d : Z) :
  2 ^ (d - 1) <= Z.pos p < 2 ^ d -> Z.pos (digits2_pos p) = d.
Proof.
  intros [Hlo Hhi]. pose proof (digits2_pos_bounds p) as [Hlo' Hhi'].
  assert (Hd : 0 < d).
  { destruct (Z.lt_ge_cases 0 d) as [H|H]; [assumption|].
    assert (2 ^ d <= 1).
    { destruct (Z.eq_dec d 0) as [->|Hne]; [simpl; lia|].
      rewrite Z.pow_neg_r by lia. lia. }
    lia. }
  destruct (Z.lt_trichotomy (Z.pos (digits2_pos p)) d) as [Hlt|[Heq|Hgt]].
  - assert (2 ^ Z.pos (digits2_pos p) <= 2 ^ (d - 1))
      by (apply Z.pow_le_mono_r; lia).
    lia.
  - assumption.
  - assert (2 ^ d <= 2 ^ (Z.pos (digits2_pos p) - 1))
      by (apply Z.pow_le_mono_r; lia).
    lia.
Qed.

Lemma iter_xO_value (p k : positive) :
  Z.pos (Pos.iter xO p k) = Z.pos p * 2 ^ Z.pos k.
Proof.
  induction k as [|k IH] using Pos.peano_ind.
  - simpl. lia.
  - rewrite Pos.iter_succ, Pos2Z.inj_succ, Z.pow_succ_r by lia.
    rewrite Pos2Z.inj_xO, IH. lia.
Qed.

(** The conversion of a count below 2^24 is exact. *)
Lemma float_of_long_exact (p : positive) :
  Z.pos p < 2 ^ 24 ->
  exists m : positive,
    float_of_long (Z.pos p) = S754_finite false m (Z.pos (digits2_pos p) - 24) /\
    Z.pos m = Z.pos p * 2 ^ (24 - Z.pos (digits2_pos p)) /\
    Z.pos (digits2_pos m) = 24.
Proof.
  intros Hp. pose proof (digits2_pos_bounds p) as [Hlo Hhi].
  set (d := Z.pos (digits2_pos p)) in *.
  assert (Hd : 1 <= d <= 24).
  { split; [unfold d; lia|].
    destruct (Z.le_gt_cases d 24) as [H|H]; [assumption|].
    assert (2 ^ 24 <= 2 ^ (d - 1)) by (apply Z.pow_le_mono_r; lia). lia. }
  assert (Hm : exists m : positive,
             shl_align p 0 (d - 24) = (m, d - 24) /\
             Z.pos m = Z.pos p * 2 ^ (24 - d)).
  { unfold shl_align. destruct (d - 24 - 0) as [|k|k] eqn:Hk; [|lia|].
    - exists p. replace (d - 24) with 0 by lia. replace (24 - d) with 0 by lia.
      split; [reflexivity|simpl; lia].
    - exists (Pos.iter xO p k). split; [reflexivity|].
      rewrite iter_xO_value. f_equal. f_equal. lia. }
  destruct Hm as (m & Halign & Hmval).
  assert (Hmd : Z.pos (digits2_pos m) = 24).
  { apply digits2_pos_unique. rewrite Hmval.
    replace (2 ^ (24 - 1)) with (2 ^ (d - 1) * 2 ^ (24 - d))
      by (rewrite <- Z.pow_add_r by lia; f_equal; lia).
    replace (2 ^ 24) with (2 ^ d * 2 ^ (24 - d))
      by (rewrite <- Z.pow_add_r by lia; f_equal; lia).
    assert (0 < 2 ^ (24 - d)) by (apply Z.pow_pos_nonneg; lia).
    split; nia. }
  exists m. split; [|split; assumption].
  unfold float_of_long, binary_normalize, binary_round.
  fold d.
  assert (Hfexp : fexp 24 128 (d + 0) = d - 24).
  { unfold fexp, emin. lia. }
  rewrite Hfexp, Halign.
  unfold binary_round_aux, shr_fexp.
  cbn [Zdigits2 shr_record_of_loc]. rewrite Hmd.
  assert (Hfexp2 : fexp 24 128 (24 + (d - 24)) = d - 24).
  { unfold fexp, emin. lia. }
  rewrite Hfexp2, Z.sub_diag. cbn [shr shr_m loc_of_shr_record round_nearest_even].
  cbn [Zdigits2]. rewrite Hmd, Hfexp2, Z.sub_diag.
  cbn [shr shr_m shr_record_of_loc].
  destruct (Z.leb_spec (d - 24) (128 - 24)); [reflexivity|lia].
Qed.

Lemma fexp_normal (d e : Z) :
  -100 <= e -> 24 <= d -> fexp 24 128 (d + e) = d + e - 24.
Proof. intros He Hd. unfold fexp, emin. lia. Qed.

Lemma shr_fexp_24 (m : positive) (e : Z) (l : location) :
  Z.pos (digits2_pos m) = 24 -> -100 <= e ->
  shr_fexp 24 128 (Z.pos m) e l = (shr_record_of_loc (Z.pos m) l, e).
Proof.
  intros Hd He. unfold shr_fexp. cbn [Zdigits2]. rewrite Hd.
  rewrite fexp_normal by lia.
  replace (24 + e - 24 - e) with 0 by lia. reflexivity.
Qed.

Lemma shr_fexp_25 (m : positive) (e : Z) (l : location) :
  Z.pos (digits2_pos m) = 25 -> -100 <= e ->
  shr_fexp 24 128 (Z.pos m) e l = (shr_1 (shr_record_of_loc (Z.pos m) l), e + 1).
Proof.
  intros Hd He. unfold shr_fexp. cbn [Zdigits2]. rewrite Hd.
  rewrite fexp_normal by lia.
  replace (25 + e - 24 - e) with 1 by lia. reflexivity.
Qed.

Lemma digits2_pos_24_or_25 (q : positive) :
  2 ^ 23 <= Z.pos q < 2 ^ 25 ->
  (Z.pos (digits2_pos q) = 24 /\ Z.pos q < 2 ^ 24) \/
  (Z.pos (digits2_pos q) = 25 /\ 2 ^ 24 <= Z.pos q).
Proof.
  intros Hq. destruct (Z.lt_ge_cases (Z.pos q) (2 ^ 24)) as [Hlt|Hge].
  - left. split; [|assumption]. apply digits2_pos_unique. simpl (24 - 1). lia.
  - right. split; [|assumption]. apply digits2_pos_unique. simpl (25 - 1). lia.
Qed.

(** Rounding a quotient of 24 or 25 digits to single precision moves it by
    at most one unit of its last place. *)
Lemma binary_round_aux_near (q : positive) (e : Z) (l : location) :
  2 ^ 23 <= Z.pos q <= 2 ^ 25 - 2 -> -100 <= e <= 0 ->
  exists (mr : positive) (er : Z),
    binary_round_aux 24 128 false (Z.pos q) e l = S754_finite false mr er /\
    ((er = e /\ Z.pos q <= Z.pos mr <= Z.pos q + 1) \/
     (er = e + 1 /\ Z.pos q - 1 <= 2 * Z.pos mr <= Z.pos q + 1)).
Proof.
  intros Hq He.
  destruct (digits2_pos_24_or_25 q) as [[Hd Hlt]|[Hd Hge]]; [lia| |].
  - (* no shift before rounding *)
    unfold binary_round_aux. rewrite shr_fexp_24 by (assumption || lia).
    set (m1 := round_nearest_even _ _).
    assert (Hm1 : Z.pos q <= m1 <= Z.pos q + 1).
    { subst m1. destruct l as [|[]]; cbn -[Z.add Z.even];
        try destruct (Z.even (Z.pos q)); lia. }
    destruct m1 as [|p1|p1]; [lia| |lia].
    destruct (Z.lt_ge_cases (Z.pos p1) (2 ^ 24)) as [Hp1|Hp1].
    + rewrite shr_fexp_24; [|apply digits2_pos_unique; simpl (24 - 1); lia|lia].
      cbn [shr_record_of_loc shr_m].
      destruct (Z.leb_spec e (128 - 24)); [|lia].
      exists p1, e. split; [reflexivity|]. left. lia.
    + assert (Hp1' : p1 = 16777216%positive) by (change (2 ^ 24) with 16777216 in *; lia).
      subst p1.
      rewrite shr_fexp_25; [|reflexivity|lia].
      cbn [shr_record_of_loc shr_1 shr_m orb].
      destruct (Z.leb_spec (e + 1) (128 - 24)); [|lia].
      exists 8388608%positive, (e + 1). split; [reflexivity|]. right.
      change (2 ^ 24) with 16777216 in *. lia.
  - (* one bit shifted out before rounding *)
    unfold binary_round_aux. rewrite shr_fexp_25 by (assumption || lia).
    set (mrs := shr_1 _).
    set (m1 := round_nearest_even _ _).
    assert (Hm1 : Z.pos q - 1 <= 2 * m1 <= Z.pos q + 1 /\ 2 ^ 23 <= m1 < 2 ^ 24).
    { subst m1 mrs. change (2 ^ 23) with 8388608 in *.
      change (2 ^ 24) with 16777216 in *. change (2 ^ 25 - 2) with 33554430 in *.
      destruct q as [p|p|]; [| |lia];
        destruct l as [|[]]; cbn -[Z.add Z.even Z.mul];
        try destruct (Z.even (Z.pos p)); lia. }
    destruct Hm1 as (Hnear & Hrange).
    destruct m1 as [|p1|p1]; [lia| |lia].
    rewrite shr_fexp_24; [|apply digits2_pos_unique; simpl (24 - 1); lia|lia].
    cbn [shr_record_of_loc shr_m].
    destruct (Z.leb_spec (e + 1) (128 - 24)); [|lia].
    exists p1, (e + 1). split; [reflexivity|]. right. lia.
Qed.

(** Dividing a 24-digit significand by 3.0: the result is the quotient
    [4 m / 3], in units of [2 ^ (e - 2)], moved by at most one unit. *)
Lemma float_div_3_near (m : positive) (e : Z) :
  Z.pos (digits2_pos m) = 24 -> -50 <= e <= 0 ->
  exists (mr : positive) (er : Z),
    float_div (S754_finite false m e) float_3_0 = S754_finite false mr er /\
    ((er = e - 2 /\ 4 * Z.pos m / 3 <= Z.pos mr <= 4 * Z.pos m / 3 + 1) \/
     (er = e - 1 /\
      4 * Z.pos m / 3 - 1 <= 2 * Z.pos mr <= 4 * Z.pos m / 3 + 1)).
Proof.
  intros Hd He.
  pose proof (digits2_pos_bounds m) as Hm. rewrite Hd in Hm.
  change (2 ^ (24 - 1)) with 8388608 in Hm. change (2 ^ 24) with 16777216 in Hm.
  unfold float_div, float_3_0, SFdiv, SFdiv_core_binary.
  cbn [Zdigits2 xorb]. rewrite Hd.
  change (Z.pos (digits2_pos 12582912)) with 24.
  assert (Hmin : Z.min (fexp 24 128 (24 + e - (24 + -22))) (e - -22) = e - 2).
  { unfold fexp, emin. lia. }
  rewrite Hmin. replace (e - -22 - (e - 2)) with 24 by lia.
  assert (Hshift : Z.shiftl (Z.pos m) 24 = Z.pos m * 16777216).
  { rewrite Z.shiftl_mul_pow2 by lia. reflexivity. }
  rewrite Hshift.
  pose proof (Z_div_mod (Z.pos m * 16777216) 12582912 eq_refl) as Hdiv.
  destruct (Z.div_eucl (Z.pos m * 16777216) 12582912) as [q r].
  destruct Hdiv as [Hqr Hr].
  assert (Hq : q = 4 * Z.pos m / 3).
  { apply Z.div_unique with (r := 4 * Z.pos m - 3 * q); lia. }
  destruct q as [|qp|qp]; [lia| |lia].
  destruct (binary_round_aux_near qp (e - 2) (new_location 12582912 r))
    as (mr & er & Hround & Hcases).
  - change (2 ^ 23) with 8388608. change (2 ^ 25 - 2) with 33554430. lia.
  - lia.
  - exists mr, er. split; [exact Hround|].
    rewrite <- Hq. destruct Hcases as [[-> Hb]|[-> Hb]]; [left|right]; split; lia.
Qed.

(** Below 2^24 elements the single-precision quotient by 3.0, truncated,
    is the integer quotient. *)
Lemma quotient_by_3_0 (n : Z) :
  0 <= n < 2 ^ 24 ->
  long_of_float (float_div (float_of_long n) float_3_0) = n / 3.
Proof.
  intros Hn. destruct n as [|p|p]; [reflexivity| |lia].
  destruct (float_of_long_exact p) as (m & Hconv & Hmval & Hmd); [lia|].
  pose proof (digits2_pos_bounds p) as Hp.
  set (d := Z.pos (digits2_pos p)) in *.
  assert (Hd : 1 <= d <= 24).
  { split; [unfold d; lia|].
    destruct (Z.le_gt_cases d 24) as [H|H]; [assumption|].
    assert (2 ^ 24 <= 2 ^ (d - 1)) by (apply Z.pow_le_mono_r; lia). lia. }
  destruct (float_div_3_near m (d - 24)) as (mr & er & Hdiv & Hcases);
    [assumption|lia|].
  rewrite Hconv, Hdiv.
  set (K := 2 ^ (24 - d)) in *.
  assert (HK : 1 <= K) by (unfold K; apply (Z.pow_le_mono_r 2 0); lia).
  set (a := Z.pos p / 3).
  pose proof (Z.div_mod (Z.pos p) 3 ltac:(lia)) as Hab.
  pose proof (Z.mod_pos_bound (Z.pos p) 3 ltac:(lia)) as Hb.
  fold a in Hab. set (b := Z.pos p mod 3) in *.
  set (q := 4 * Z.pos m / 3) in *.
  assert (Hq : 3 * q <= 4 * Z.pos m < 3 * q + 3).
  { pose proof (Z.div_mod (4 * Z.pos m) 3 ltac:(lia)).
    pose proof (Z.mod_pos_bound (4 * Z.pos m) 3 ltac:(lia)).
    fold q in H. lia. }
  assert (HmK : Z.pos m = 3 * (a * K) + b * K) by (rewrite Hmval, Hab; ring).
  assert (HbK : 0 <= b * K <= 2 * K) by nia.
  assert (Hmag : forall s : Z,
             0 < s -> er = - s ->
             a * 2 ^ s <= Z.pos mr < (a + 1) * 2 ^ s ->
             long_of_float (S754_finite false mr er) = a).
  { intros s Hs -> Hbounds. unfold long_of_float.
    destruct (Z.leb_spec 0 (- s)); [lia|]. rewrite Z.opp_involutive.
    assert (H2s : 0 < 2 ^ s) by (apply Z.pow_pos_nonneg; lia).
    rewrite Z.quot_div_nonneg by lia.
    assert (Hval : Z.pos mr / 2 ^ s = a).
    { symmetry. apply Z.div_unique with (r := Z.pos mr - a * 2 ^ s); lia. }
    rewrite Hval.
    assert (Ha : 0 <= a < 2 ^ 24) by (unfold a; split;
      [apply Z.div_pos; lia|apply Z.div_lt_upper_bound; lia]).
    change (2 ^ 24) with 16777216 in Ha. unfold LONG_MIN, LONG_MAX.
    destruct (Z.leb_spec (- 2 ^ 63) a); [|lia].
    destruct (Z.leb_spec a (2 ^ 63 - 1)); [reflexivity|lia]. }
  destruct Hcases as [[Her Hb1]|[Her Hb1]].
  - apply (Hmag (26 - d)); [lia|lia|].
    replace (2 ^ (26 - d)) with (4 * K)
      by (unfold K; replace (26 - d) with (2 + (24 - d)) by lia;
          rewrite Z.pow_add_r by lia; reflexivity).
    lia.
  - apply (Hmag (25 - d)); [lia|lia|].
    replace (2 ^ (25 - d)) with (2 * K)
      by (unfold K; replace (25 - d) with (1 + (24 - d)) by lia;
          rewrite Z.pow_add_r by lia; reflexivity).
    lia.
Qed.

Lemma spec_advance_advance_to_prime (fuel : nat) (n : Z) :
  spec_advance fuel n = advance_to_prime fuel n.
Proof.
  revert n. induction fuel as [|fuel IH]; intros n; [reflexivity|].
  cbn [spec_advance advance_to_prime].
  rewrite (isProbablePrime_trial_division n), IH. reflexivity.
Qed.

Lemma Qfloor_quotient_by_3 (n : Z) :
  Qfloor (Qdiv (inject_Z n) (3 # 1)) = n / 3.
Proof.
  unfold Qdiv, Qmult, Qinv, inject_Z, Qfloor. cbn [Qnum Qden Pos.mul].
  rewrite Z.mul_1_r. reflexivity.
Qed.

(** With the ratio 3.0 of [HashTableCreate] and fewer than 2^24 elements
    the code's bucket count is the one computed from the floor of the
    exact quotient. *)
Lemma ideal_count_from_floor (t : HashTable) :
  idealRatio t = float_3_0 -> 0 <= numOfElements t < 2 ^ 24 ->
  long_of_float (float_div (float_of_long (numOfElements t)) (idealRatio t))
  = numOfElements t / 3 /\
  spec_idealBucketCount search_bound (numOfElements t) (3 # 1)
  = Some (calculateIdealNumOfBuckets t).
Proof.
  intros Hratio Hn.
  assert (Hq : long_of_float
                 (float_div (float_of_long (numOfElements t)) (idealRatio t))
               = numOfElements t / 3)
    by (rewrite Hratio; apply quotient_by_3_0; assumption).
  split; [exact Hq|].
  destruct (ideal_search_steps t) as (steps & Hsteps & _ & _ & Hfuel & Hr).
  specialize (Hfuel search_bound Hsteps).
  unfold calculateIdealNumOfBuckets_fuel in Hfuel.
  rewrite Hr, <- Hfuel, <- spec_advance_advance_to_prime.
  pose proof (ideal_start_cases t) as Hstart. cbv zeta in Hstart.
  rewrite Hq in Hstart. rewrite Hstart.
  unfold spec_idealBucketCount. rewrite Qfloor_quotient_by_3. reflexivity.
Qed.

(** ** Arrays, loops and chains *)

Lemma length_concat_sum (a : list chain) :
  length (concat a) = sum_list (length <$> a).
Proof.
  induction a as [|c a IH]; simpl; [reflexivity|].
  rewrite length_app, IH. reflexivity.
Qed.

Lemma bucket_at_lookup (a : list chain) (i : Z) (c : chain) :
  a !! Z.to_nat i = Some c -> bucket_at a i = c.
Proof. apply list_lookup_total_correct. Qed.

Lemma lookup_bucket_at (a : list chain) (i : Z) :
  (Z.to_nat i < length a)%nat -> a !! Z.to_nat i = Some (bucket_at a i).
Proof. apply list_lookup_lookup_total_lt. Qed.

Lemma bucket_at_of_nat (a : list chain) (i : nat) (c : chain) :
  a !! i = Some c -> bucket_at a (Z.of_nat i) = c.
Proof. intros H. apply bucket_at_lookup. rewrite Nat2Z.id. exact H. Qed.

Lemma length_bucket_set (a : list chain) (i : Z) (c : chain) :
  length (bucket_set a i c) = length a.
Proof. apply length_insert. Qed.

(** The entries of an array and of the array with one chain replaced:
    the other chains are the same. *)
Lemma concat_insert_perm (a : list chain) (i : nat) (c : chain) :
  a !! i = Some c ->
  exists others, concat a ≡ₚ c ++ others /\
                 forall c', concat (<[i:=c']> a) ≡ₚ c' ++ others.
Proof.
  intros Hi. exists (concat (take i a) ++ concat (drop (S i) a)). split.
  - rewrite <- (take_drop_middle a i c Hi) at 1.
    rewrite concat_app. simpl. rewrite !(assoc_L (++)).
    apply Permutation_app_tail, Permutation_app_comm.
  - intros c'. rewrite insert_take_drop by (eapply lookup_lt_Some; eassumption).
    rewrite concat_app. simpl. rewrite !(assoc_L (++)).
    apply Permutation_app_tail, Permutation_app_comm.
Qed.

Lemma elem_of_concat_lookup (a : list chain) (p : KeyValuePair) :
  p ∈ concat a <-> exists i c, a !! i = Some c /\ p ∈ c.
Proof.
  rewrite list_elem_of_In, in_concat. split.
  - intros (c & Hc & Hp). apply list_elem_of_In, list_elem_of_lookup in Hc as [i Hi].
    exists i, c. split; [assumption|]. apply list_elem_of_In. assumption.
  - intros (i & c & Hi & Hp). exists c. split.
    + apply list_elem_of_In, list_elem_of_lookup. eauto.
    + apply list_elem_of_In. assumption.
Qed.

(** A loop over the indices of an array that only reads the array is a
    fold over its elements. *)
Lemma for_loop_read {St : Type} (f : chain -> St -> St) (done todo : list chain) (s : St) :
  for_loop (length todo) (Z.of_nat (length done))
           (fun i s => f (bucket_at (done ++ todo) i) s) s
  = fold_left (fun s c => f c s) todo s.
Proof.
  revert done s. induction todo as [|c todo IH]; intros done s; simpl.
  - reflexivity.
  - assert (E : bucket_at (done ++ c :: todo) (Z.of_nat (length done)) = c).
    { apply bucket_at_lookup. rewrite Nat2Z.id. apply list_lookup_middle. reflexivity. }
    rewrite E. specialize (IH (done ++ [c]) (f c s)).
    rewrite <- (assoc_L (++)) in IH. simpl in IH.
    rewrite length_app in IH. simpl in IH.
    replace (Z.of_nat (length done + 1)) with (Z.of_nat (length done) + 1) in IH by lia.
    exact IH.
Qed.

Lemma for_loop_read_all {St : Type} (f : chain -> St -> St) (a : list chain) (s : St) :
  for_loop (length a) 0 (fun i s => f (bucket_at a i) s) s
  = fold_left (fun s c => f c s) a s.
Proof. apply (for_loop_read f [] a s). Qed.

Lemma fold_left_concat {St : Type} (f : St -> KeyValuePair -> St) (a : list chain) (s : St) :
  fold_left (fun s c => fold_left f c s) a s = fold_left f (concat a) s.
Proof.
  revert s. induction a as [|c a IH]; intros s; simpl; [reflexivity|].
  rewrite fold_left_app. apply IH.
Qed.

(** The loop that clears a fresh array. *)
Lemma for_loop_clear (n : nat) :
  for_loop n 0 (fun i a => bucket_set a i []) (replicate n []) = replicate n [].
Proof.
  assert (H : forall count i (a : list chain),
             a = replicate (length a) [] ->
             for_loop count i (fun i a => bucket_set a i []) a = a).
  { induction count as [|count IH]; intros i a Ha; simpl; [reflexivity|].
    assert (Hset : bucket_set a i [] = a).
    { unfold bucket_set. apply list_insert_id'. intros Hlt. rewrite Ha.
      apply lookup_replicate_2. assumption. }
    rewrite Hset. apply IH. assumption. }
  apply H. rewrite length_replicate. reflexivity.
Qed.

Lemma concat_replicate_nil (m : nat) :
  concat (replicate m ([] : list KeyValuePair)) = [].
Proof. induction m as [|m IH]; simpl; [reflexivity|exact IH]. Qed.

(** *** The scan of a chain *)

Lemma scan_spec (cmp : ptr -> ptr -> Z) (k : ptr) (c before found : chain) :
  scan cmp k c = (before, found) ->
  c = before ++ found /\
  Forall (fun p => cmp k (key p) <> 0) before /\
  match found with
  | [] => True
  | p :: _ => cmp k (key p) = 0
  end.
Proof.
  revert before found. induction c as [|p c IH]; intros before found; simpl.
  - intros [= <- <-]. repeat split. constructor.
  - destruct (Z.eqb_spec (cmp k (key p)) 0) as [Heq|Hne].
    + intros [= <- <-]. repeat split; [constructor|assumption].
    + destruct (scan cmp k c) as [before' found'] eqn:Hscan.
      intros [= <- <-]. destruct (IH _ _ eq_refl) as (-> & Hbefore & Hfound).
      repeat split; [constructor; assumption|assumption].
Qed.

Lemma scan_none (cmp : ptr -> ptr -> Z) (k : ptr) (c before : chain) :
  scan cmp k c = (before, []) ->
  before = c /\ forall p, p ∈ c -> cmp k (key p) <> 0.
Proof.
  intros Hscan. apply scan_spec in Hscan as (-> & Hbefore & _).
  rewrite app_nil_r. split; [reflexivity|]. rewrite Forall_forall in Hbefore.
  assumption.
Qed.

(** *** Keys that compare equal *)

Lemma distinct_keys_app (cmp : ptr -> ptr -> Z) (l1 l2 : list KeyValuePair) :
  distinct_keys cmp (l1 ++ l2) <->
  distinct_keys cmp l1 /\ distinct_keys cmp l2 /\
  forall p q, p ∈ l1 -> q ∈ l2 ->
              cmp (key p) (key q) <> 0 /\ cmp (key q) (key p) <> 0.
Proof.
  induction l1 as [|x l1 IH]; simpl.
  - split.
    + intros H. split; [trivial|]. split; [assumption|].
      intros p q Hp. inversion Hp.
    + tauto.
  - rewrite IH. split.
    + intros (Hx & H1 & H2 & H12). split; [split|split]; try assumption.
      * intros q Hq. apply Hx, elem_of_app. left. assumption.
      * intros p q Hp Hq. apply elem_of_cons in Hp as [->|Hp].
        -- apply Hx, elem_of_app. right. assumption.
        -- apply H12; assumption.
    + intros ((Hx & H1) & H2 & H12). split; [|split; [|split]]; try assumption.
      * intros q Hq. apply elem_of_app in Hq as [Hq|Hq]; [apply Hx; assumption|].
        apply H12; [apply elem_of_cons; left; reflexivity|assumption].
      * intros p q Hp Hq. apply H12; [apply elem_of_cons; right|]; assumption.
Qed.

Lemma distinct_keys_perm (cmp : ptr -> ptr -> Z) (l l' : list KeyValuePair) :
  l ≡ₚ l' -> distinct_keys cmp l -> distinct_keys cmp l'.
Proof.
  induction 1 as [|x l l' Hperm IH|x y l|l l' l'' _ IH1 _ IH2]; simpl.
  - trivial.
  - intros [Hx Hl]. split; [|apply IH; assumption].
    intros q Hq. apply Hx. rewrite Hperm. assumption.
  - intros (Hy & Hx & Hl). split; [|split]; try assumption.
    + intros q Hq. apply elem_of_cons in Hq as [->|Hq].
      * assert (Hyx : cmp (key y) (key x) <> 0 /\ cmp (key x) (key y) <> 0)
          by (apply Hy, elem_of_cons; left; reflexivity).
        tauto.
      * apply Hx. assumption.
    + intros q Hq. apply Hy. apply elem_of_cons. right. assumption.
  - intros H. apply IH2, IH1, H.
Qed.

Lemma no_equal_keys_distinct (cmp : ptr -> ptr -> Z) (l : list KeyValuePair) :
  no_equal_keys cmp l <-> distinct_keys cmp l.
Proof.
  unfold no_equal_keys. induction l as [|x l IH]; simpl.
  - split; [trivial|]. intros _ a b p q Ha. rewrite lookup_nil in Ha. discriminate.
  - split.
    + intros H. split.
      * intros q Hq. apply list_elem_of_lookup in Hq as [j Hj]. split; intros Heq.
        -- specialize (H O (S j) x q eq_refl Hj Heq). discriminate.
        -- specialize (H (S j) O q x Hj eq_refl Heq). discriminate.
      * apply IH. intros a b p q Ha Hb Heq.
        specialize (H (S a) (S b) p q Ha Hb Heq). congruence.
    + intros [Hx Hl] a b p q Ha Hb Heq.
      destruct a as [|a], b as [|b]; simpl in Ha, Hb.
      * reflexivity.
      * injection Ha as <-. exfalso.
        destruct (Hx q) as [H1 H2]; [apply list_elem_of_lookup; eauto|contradiction].
      * injection Hb as <-. exfalso.
        destruct (Hx p) as [H1 H2]; [apply list_elem_of_lookup; eauto|contradiction].
      * f_equal. apply (proj2 IH Hl a b p q); assumption.
Qed.

Lemma distinct_keys_elem_eq (cmp : ptr -> ptr -> Z) (l : list KeyValuePair) p q :
  distinct_keys cmp l -> p ∈ l -> q ∈ l -> cmp (key p) (key q) = 0 -> p = q.
Proof.
  induction l as [|x l IH]; simpl.
  - intros _ Hp. inversion Hp.
  - intros [Hx Hl] Hp Hq Heq.
    apply elem_of_cons in Hp as [->|Hp]; apply elem_of_cons in Hq as [->|Hq].
    + reflexivity.
    + exfalso. destruct (Hx q) as [H1 H2]; [assumption|contradiction].
    + exfalso. destruct (Hx p) as [H1 H2]; [assumption|contradiction].
    + apply IH; assumption.
Qed.

(** *** The association list of a table *)

Section Assoc.

Variable cmp : ptr -> ptr -> Z.
Hypothesis cmp_sym' : forall a b, cmp a b = 0 -> cmp b a = 0.
Hypothesis cmp_trans' : forall a b c, cmp a b = 0 -> cmp b c = 0 -> cmp a c = 0.

Lemma assoc_none (k : ptr) (l : list KeyValuePair) :
  (forall p, p ∈ l -> cmp k (key p) <> 0) -> assoc cmp k l = NULL.
Proof.
  intros Hno. unfold assoc.
  destruct (find _ l) as [p|] eqn:Hfind; [|reflexivity].
  apply find_some in Hfind as [Hin Heq]. apply Z.eqb_eq in Heq.
  exfalso. apply (Hno p); [apply list_elem_of_In|]; assumption.
Qed.

Lemma assoc_elem (k : ptr) (l : list KeyValuePair) (p : KeyValuePair) :
  distinct_keys cmp l -> p ∈ l -> cmp k (key p) = 0 -> assoc cmp k l = value p.
Proof.
  intros Hd Hp Hk. unfold assoc.
  destruct (find _ l) as [q|] eqn:Hfind.
  - apply find_some in Hfind as [Hin Heq]. apply Z.eqb_eq in Heq.
    f_equal. apply (distinct_keys_elem_eq cmp l); auto.
    + apply list_elem_of_In. assumption.
    + eauto.
  - exfalso. eapply find_none in Hfind; [|apply list_elem_of_In; eassumption].
    apply Z.eqb_neq in Hfind. contradiction.
Qed.

(** Under distinct keys the order of the entries does not matter. *)
Lemma assoc_perm (k : ptr) (l l' : list KeyValuePair) :
  distinct_keys cmp l -> l ≡ₚ l' -> assoc cmp k l = assoc cmp k l'.
Proof.
  intros Hd Hperm.
  destruct (find (fun p => cmp k (key p) =? 0) l) as [p|] eqn:Hfind.
  - apply find_some in Hfind as [Hin Heq]. apply Z.eqb_eq in Heq.
    apply list_elem_of_In in Hin.
    rewrite (assoc_elem k l p), (assoc_elem k l' p); auto.
    + eapply distinct_keys_perm; eassumption.
    + rewrite <- Hperm. assumption.
  - assert (Hno : forall p, p ∈ l -> cmp k (key p) <> 0).
    { intros p Hp. apply list_elem_of_In in Hp.
      eapply find_none in Hfind; [|eassumption]. apply Z.eqb_neq. assumption. }
    rewrite !assoc_none; auto. intros p Hp. apply Hno. rewrite Hperm. assumption.
Qed.

Lemma assoc_cons (k : ptr) (p : KeyValuePair) (l : list KeyValuePair) :
  assoc cmp k (p :: l) = if cmp k (key p) =? 0 then value p else assoc cmp k l.
Proof. unfold assoc. simpl. destruct (cmp k (key p) =? 0); reflexivity. Qed.

End Assoc.

(** ** Engine: the invariant and the entries *)

Lemma same_config_refl (t : HashTable) : same_config t t.
Proof. unfold same_config. tauto. Qed.

Lemma same_config_trans (t1 t2 t3 : HashTable) :
  same_config t1 t2 -> same_config t2 t3 -> same_config t1 t3.
Proof. unfold same_config. intuition congruence. Qed.

Lemma Strategies_ok_config (t t' : HashTable) :
  same_config t t' -> Strategies_ok t -> Strategies_ok t'.
Proof.
  intros (Hk & _ & Hh & _) [Hr Hs Ht Hc].
  split; rewrite ?Hk, ?Hh; assumption.
Qed.

Lemma hashValue_range (t : HashTable) (k : ptr) :
  Inv t -> 0 <= hashValue_of t k < numOfBuckets t /\
           (Z.to_nat (hashValue_of t k) < length (bucketArray t))%nat.
Proof.
  intros Hinv. pose proof (inv_buckets t Hinv) as Hpos.
  pose proof (Z.mod_pos_bound (hashFunction t k) (numOfBuckets t) Hpos) as Hb.
  unfold hashValue_of. split; [assumption|]. rewrite (inv_array t Hinv). lia.
Qed.

Lemma elem_of_entries (t : HashTable) (p : KeyValuePair) :
  p ∈ entries t <-> exists i c, bucketArray t !! i = Some c /\ p ∈ c.
Proof. apply elem_of_concat_lookup. Qed.

Lemma Inv_distinct (t : HashTable) :
  Inv t -> distinct_keys (keycmp t) (entries t).
Proof. intros Hinv. apply no_equal_keys_distinct, inv_unique. assumption. Qed.

Lemma Inv_count_entries (t : HashTable) :
  Inv t -> numOfElements t = Z.of_nat (length (entries t)).
Proof.
  intros Hinv. rewrite (inv_count t Hinv). unfold entries.
  rewrite length_concat_sum. reflexivity.
Qed.

(** An entry that compares equal to [k] lies in the bucket of [k]. *)
Lemma equal_key_in_bucket (t : HashTable) (k : ptr) (p : KeyValuePair) :
  Inv t -> Strategies_ok t -> p ∈ entries t -> keycmp t k (key p) = 0 ->
  p ∈ bucket_at (bucketArray t) (hashValue_of t k).
Proof.
  intros Hinv Hok Hp Heq. apply elem_of_entries in Hp as (i & c & Hi & Hp).
  pose proof (inv_place t Hinv i c p Hi Hp) as Hplace.
  assert (Hh : hashValue_of t k = Z.of_nat i).
  { rewrite <- Hplace. unfold hashValue_of.
    rewrite (hash_respects t Hok k (key p) Heq). reflexivity. }
  rewrite Hh. erewrite bucket_at_of_nat; eassumption.
Qed.

Lemma bucket_subset_entries (t : HashTable) (i : Z) (p : KeyValuePair) :
  p ∈ bucket_at (bucketArray t) i -> p ∈ entries t.
Proof.
  intros Hp. unfold bucket_at in Hp. rewrite list_lookup_total_alt in Hp.
  destruct (bucketArray t !! Z.to_nat i) as [c|] eqn:Hc; simpl in Hp.
  - apply elem_of_entries. eauto.
  - inversion Hp.
Qed.

Lemma no_match_in_bucket (t : HashTable) (k : ptr) :
  Inv t -> Strategies_ok t ->
  (forall p, p ∈ bucket_at (bucketArray t) (hashValue_of t k) -> keycmp t k (key p) <> 0) ->
  forall p, p ∈ entries t -> keycmp t k (key p) <> 0.
Proof.
  intros Hinv Hok Hbucket p Hp Heq.
  apply (Hbucket p); [|assumption]. apply equal_key_in_bucket; assumption.
Qed.

(** [HashTableGet] reads the table as an association list. *)
Lemma HashTableGet_assoc (t : HashTable) (k : ptr) :
  Inv t -> Strategies_ok t ->
  HashTableGet t k = assoc (keycmp t) k (entries t).
Proof.
  intros Hinv Hok. unfold HashTableGet.
  destruct (scan (keycmp t) k (bucket_at (bucketArray t) (hashValue_of t k)))
    as [before found] eqn:Hscan. simpl.
  destruct found as [|p next].
  - apply scan_none in Hscan as [_ Hno]. symmetry. apply assoc_none.
    apply no_match_in_bucket; assumption.
  - apply scan_spec in Hscan as (Hc & _ & Heq). symmetry.
    apply assoc_elem.
    + apply (cmp_sym t Hok).
    + apply (cmp_trans t Hok).
    + apply Inv_distinct. assumption.
    + apply (bucket_subset_entries t (hashValue_of t k)). rewrite Hc.
      apply elem_of_app. right. apply elem_of_cons. left. reflexivity.
    + assumption.
Qed.

(** The table with the chain of one bucket replaced. *)
Lemma Inv_replace_chain (t t' : HashTable) (i : Z) (c c' : chain) :
  Inv t -> same_config t t' -> numOfBuckets t' = numOfBuckets t ->
  0 <= i -> bucketArray t !! Z.to_nat i = Some c ->
  bucketArray t' = bucket_set (bucketArray t) i c' ->
  numOfElements t' = numOfElements t - Z.of_nat (length c) + Z.of_nat (length c') ->
  (forall p, p ∈ c' -> hashValue_of t (key p) = i) ->
  (forall others, entries t ≡ₚ c ++ others -> distinct_keys (keycmp t) (c' ++ others)) ->
  Inv t' /\
  exists others, entries t ≡ₚ c ++ others /\ entries t' ≡ₚ c' ++ others.
Proof.
  intros Hinv Hcfg Hnb Hi Hc Harr Hn Hplace Hdist.
  destruct (concat_insert_perm (bucketArray t) (Z.to_nat i) c Hc) as (others & Hold & Hnew).
  specialize (Hnew c'). fold (entries t) in Hold.
  assert (Hentries : entries t' ≡ₚ c' ++ others).
  { unfold entries. rewrite Harr. exact Hnew. }
  split; [|exists others; split; assumption].
  destruct Hcfg as (Hk & _ & Hh & _).
  split.
  - rewrite Hnb. apply (inv_buckets t Hinv).
  - rewrite Harr, length_bucket_set, Hnb. apply (inv_array t Hinv).
  - rewrite <- length_concat_sum. fold (entries t'). rewrite Hentries, length_app.
    rewrite Hn, (Inv_count_entries t Hinv), Hold, length_app. lia.
  - intros j chain p Hj Hp. unfold hashValue_of. rewrite Hh, Hnb.
    fold (hashValue_of t (key p)). rewrite Harr in Hj. unfold bucket_set in Hj.
    apply list_lookup_insert_Some in Hj as [(<- & <- & _)|[Hne Hj]].
    + rewrite (Hplace p Hp). lia.
    + apply (inv_place t Hinv j chain p Hj Hp).
  - apply no_equal_keys_distinct. rewrite Hk.
    eapply distinct_keys_perm; [symmetry; exact Hentries|]. apply Hdist. assumption.
Qed.

(** ** Rehash *)

Lemma placed_replicate (hash : ptr -> Z) (n : Z) (m : nat) :
  placed hash n (replicate m []).
Proof.
  intros i c p Hi Hp. apply lookup_replicate in Hi as [-> _]. inversion Hp.
Qed.

Lemma relink_spec (hash : ptr -> Z) (n : Z) (a : list chain) (p : KeyValuePair) :
  0 < n -> length a = Z.to_nat n -> placed hash n a ->
  length (relink hash n a p) = Z.to_nat n /\
  placed hash n (relink hash n a p) /\
  concat (relink hash n a p) ≡ₚ p :: concat a.
Proof.
  intros Hn Hlen Hplaced. unfold relink.
  set (b := hash (key p) mod n).
  assert (Hb : 0 <= b < n) by (apply Z.mod_pos_bound; assumption).
  assert (Hlookup : a !! Z.to_nat b = Some (bucket_at a b)).
  { apply lookup_bucket_at. lia. }
  split; [rewrite length_bucket_set; assumption|]. split.
  - intros i c q Hi Hq. unfold bucket_set in Hi.
    apply list_lookup_insert_Some in Hi as [(<- & <- & _)|[Hne Hi]].
    + apply elem_of_cons in Hq as [->|Hq].
      * fold b. lia.
      * apply (Hplaced _ _ _ Hlookup Hq).
    + apply (Hplaced _ _ _ Hi Hq).
  - destruct (concat_insert_perm a (Z.to_nat b) _ Hlookup) as (others & Hold & Hnew).
    unfold bucket_set. rewrite Hnew, Hold. reflexivity.
Qed.

Lemma relink_fold_spec (hash : ptr -> Z) (n : Z) (l : list KeyValuePair) (a : list chain) :
  0 < n -> length a = Z.to_nat n -> placed hash n a ->
  length (fold_left (relink hash n) l a) = Z.to_nat n /\
  placed hash n (fold_left (relink hash n) l a) /\
  concat (fold_left (relink hash n) l a) ≡ₚ l ++ concat a.
Proof.
  intros Hn. revert a. induction l as [|p l IH]; intros a Hlen Hplaced; simpl.
  - auto.
  - destruct (relink_spec hash n a p Hn Hlen Hplaced) as (Hlen1 & Hplaced1 & Hperm1).
    destruct (IH _ Hlen1 Hplaced1) as (Hlen2 & Hplaced2 & Hperm2).
    split; [assumption|]. split; [assumption|].
    rewrite Hperm2, Hperm1. symmetry. apply Permutation_middle.
Qed.

Lemma calculateIdealNumOfBuckets_pos (t : HashTable) :
  5 <= calculateIdealNumOfBuckets t.
Proof.
  destruct (ideal_search_steps t) as (steps & _ & _ & _ & _ & ->).
  destruct (ideal_start_odd t) as [k ->]. lia.
Qed.

(** The bucket count that a rehash aims at. *)
Lemma HashTableRehash_spec (array_ok : bool) (t : HashTable) (n : Z) :
  Inv t -> 0 <= n ->
  exists t',
    HashTableRehash array_ok t n = Some t' /\
    Inv t' /\ same_config t t' /\
    entries t' ≡ₚ entries t /\
    numOfElements t' = numOfElements t /\
    (t' = t \/ numOfBuckets t' <> numOfBuckets t) /\
    (array_ok = true ->
     numOfBuckets t' = if n =? 0 then calculateIdealNumOfBuckets t else n).
Proof.
  intros Hinv Hn. unfold HashTableRehash.
  destruct (Z.leb_spec 0 n) as [_|]; [simpl|lia].
  set (n1 := if n =? 0 then calculateIdealNumOfBuckets t else n).
  assert (Hn1 : 0 < n1).
  { unfold n1. destruct (Z.eqb_spec n 0); [|lia].
    pose proof (calculateIdealNumOfBuckets_pos t). lia. }
  destruct (Z.eqb_spec n1 (numOfBuckets t)) as [Heq|Hne].
  { exists t. repeat split; try apply Hinv; auto. }
  destruct array_ok; simpl.
  2:{ exists t. repeat split; try apply Hinv; auto. discriminate. }
  eexists. split; [reflexivity|].
  rewrite for_loop_clear.
  rewrite <- (inv_array t Hinv), for_loop_read_all.
  rewrite (fold_left_concat (relink (hashFunction t) n1)).
  destruct (relink_fold_spec (hashFunction t) n1 (concat (bucketArray t))
              (replicate (Z.to_nat n1) []))
    as (Hlen & Hplaced & Hperm);
    [assumption|apply length_replicate|apply placed_replicate|].
  assert (Hentries :
            concat (fold_left (relink (hashFunction t) n1) (concat (bucketArray t))
                              (replicate (Z.to_nat n1) [])) ≡ₚ entries t).
  { rewrite Hperm, concat_replicate_nil, app_nil_r. reflexivity. }
  split; [|split; [|split; [|split; [|split]]]].
  - split; simpl.
    + assumption.
    + assumption.
    + rewrite <- length_concat_sum, Hentries. apply Inv_count_entries. assumption.
    + exact Hplaced.
    + apply no_equal_keys_distinct. unfold entries. simpl.
      eapply distinct_keys_perm; [symmetry; exact Hentries|].
      apply Inv_distinct. assumption.
  - unfold same_config. simpl. tauto.
  - exact Hentries.
  - reflexivity.
  - right. simpl. assumption.
  - reflexivity.
Qed.

Lemma HashTableRehash_same_count (array_ok : bool) (t t' : HashTable) (n : Z) :
  HashTableRehash array_ok t n = Some t' -> numOfBuckets t' = numOfBuckets t -> t' = t.
Proof.
  unfold HashTableRehash. destruct (0 <=? n); simpl; [|discriminate].
  set (n1 := if n =? 0 then calculateIdealNumOfBuckets t else n).
  destruct (Z.eqb_spec n1 (numOfBuckets t)) as [Heq|Hne]; [congruence|].
  destruct array_ok; simpl; [|congruence].
  intros [= <-]. simpl. intros Heq. contradiction.
Qed.

(** ** Put *)

Lemma HashTableRehash_total (array_ok : bool) (t : HashTable) (n : Z) :
  0 <= n -> exists t', HashTableRehash array_ok t n = Some t'.
Proof.
  intros Hn. unfold HashTableRehash.
  destruct (Z.leb_spec 0 n) as [_|]; [simpl|lia].
  destruct (_ =? numOfBuckets t); [eauto|]. destruct array_ok; simpl; eauto.
Qed.

Lemma HashTablePut_null (entry_ok array_ok : bool) (t : HashTable) (k v : ptr) :
  k = NULL \/ v = NULL -> HashTablePut entry_ok array_ok t k v = None.
Proof.
  intros H. unfold HashTablePut.
  destruct (Z.eqb_spec k NULL), (Z.eqb_spec v NULL); simpl; try reflexivity.
  tauto.
Qed.

(** The key is in the table: the entry is overwritten in place. *)
Lemma HashTablePut_found (entry_ok array_ok : bool) (t : HashTable) (k v : ptr)
    (before next : chain) (p : KeyValuePair) :
  k <> NULL -> v <> NULL ->
  scan (keycmp t) k (bucket_at (bucketArray t) (hashValue_of t k)) = (before, p :: next) ->
  HashTablePut entry_ok array_ok t k v
  = Some (0,
          store_bucket t (hashValue_of t k)
                       (before ++ {| key := k; value := v |} :: next),
          (if key p =? k then [] else release (keyDeallocator t) (key p))
          ++ (if value p =? v then [] else release (valueDeallocator t) (value p))).
Proof.
  intros Hk Hv Hscan. unfold HashTablePut.
  destruct (Z.eqb_spec k NULL); [contradiction|].
  destruct (Z.eqb_spec v NULL); [contradiction|]. simpl. rewrite Hscan.
  destruct (Z.eqb_spec (key p) k) as [->|_];
    destruct (Z.eqb_spec (value p) v) as [->|_]; reflexivity.
Qed.

(** The key is not in the table and no node can be allocated. *)
Lemma HashTablePut_no_memory (array_ok : bool) (t : HashTable) (k v : ptr)
    (before : chain) :
  k <> NULL -> v <> NULL ->
  scan (keycmp t) k (bucket_at (bucketArray t) (hashValue_of t k)) = (before, []) ->
  HashTablePut false array_ok t k v = Some (-1, t, []).
Proof.
  intros Hk Hv Hscan. unfold HashTablePut.
  destruct (Z.eqb_spec k NULL); [contradiction|].
  destruct (Z.eqb_spec v NULL); [contradiction|]. simpl. rewrite Hscan.
  reflexivity.
Qed.

(** The key is not in the table: a node is pushed on its chain, and the
    table may be rehashed. *)
Lemma HashTablePut_new (array_ok : bool) (t : HashTable) (k v : ptr) (before : chain) :
  k <> NULL -> v <> NULL ->
  scan (keycmp t) k (bucket_at (bucketArray t) (hashValue_of t k)) = (before, []) ->
  let t1 :=
    set_numOfElements
      (store_bucket t (hashValue_of t k)
         ({| key := k; value := v |} :: bucket_at (bucketArray t) (hashValue_of t k)))
      (numOfElements t + 1) in
  exists t',
    HashTablePut true array_ok t k v = Some (0, t', []) /\
    (t' = t1 \/ HashTableRehash array_ok t1 0 = Some t').
Proof.
  intros Hk Hv Hscan t1. unfold HashTablePut.
  destruct (Z.eqb_spec k NULL); [contradiction|].
  destruct (Z.eqb_spec v NULL); [contradiction|]. simpl. rewrite Hscan.
  fold t1. destruct (float_gt _ _); [|eauto].
  destruct (float_gt _ _); [|eauto].
  destruct (HashTableRehash_total array_ok t1 0) as [t' Ht']; [lia|].
  rewrite Ht'. simpl. eauto.
Qed.

Lemma distinct_keys_replace (cmp : ptr -> ptr -> Z) (p p' : KeyValuePair)
    (l : list KeyValuePair) :
  (forall a b, cmp a b = 0 -> cmp b a = 0) ->
  (forall a b c, cmp a b = 0 -> cmp b c = 0 -> cmp a c = 0) ->
  cmp (key p') (key p) = 0 ->
  distinct_keys cmp (p :: l) -> distinct_keys cmp (p' :: l).
Proof.
  intros Hsym Htrans Heq [Hp Hl]. split; [|assumption].
  intros q Hq. destruct (Hp q Hq) as [H1 H2]. split; intros H.
  - apply H1. eapply Htrans; [apply Hsym; exact Heq|exact H].
  - apply H2. eapply Htrans; [exact H|exact Heq].
Qed.

(** What a put does to a table that satisfies the invariant. *)
Lemma HashTablePut_spec (entry_ok array_ok : bool) (t : HashTable) (k v : ptr) :
  Inv t -> Strategies_ok t -> k <> NULL -> v <> NULL ->
  exists r t' ev,
    HashTablePut entry_ok array_ok t k v = Some (r, t', ev) /\
    Inv t' /\ same_config t t' /\
    ((exists p others,
         keycmp t k (key p) = 0 /\ entries t ≡ₚ p :: others /\
         entries t' ≡ₚ {| key := k; value := v |} :: others /\
         r = 0 /\ numOfElements t' = numOfElements t /\
         numOfBuckets t' = numOfBuckets t)
     \/ ((forall p, p ∈ entries t -> keycmp t k (key p) <> 0) /\
         entry_ok = true /\ r = 0 /\
         entries t' ≡ₚ {| key := k; value := v |} :: entries t /\
         numOfElements t' = numOfElements t + 1)
     \/ ((forall p, p ∈ entries t -> keycmp t k (key p) <> 0) /\
         entry_ok = false /\ r = -1 /\ t' = t /\ ev = [])).
Proof.
  intros Hinv Hok Hk Hv.
  destruct (hashValue_range t k Hinv) as [Hrange Hlt].
  pose proof (lookup_bucket_at _ _ Hlt) as Hlookup.
  set (b := hashValue_of t k) in *. set (c := bucket_at (bucketArray t) b) in *.
  destruct (scan (keycmp t) k c) as [before found] eqn:Hscan.
  destruct found as [|p next].
  - (* the key is not in the table *)
    pose proof Hscan as Hnone. apply scan_none in Hnone as [_ Hno].
    assert (Hall : forall p, p ∈ entries t -> keycmp t k (key p) <> 0)
      by (apply no_match_in_bucket; assumption).
    destruct entry_ok.
    + destruct (HashTablePut_new array_ok t k v before Hk Hv Hscan) as (t' & Hput & Ht').
      fold b c in Ht'.
      set (t1 := set_numOfElements (store_bucket t b ({| key := k; value := v |} :: c))
                                   (numOfElements t + 1)) in *.
      destruct (Inv_replace_chain t t1 b c ({| key := k; value := v |} :: c))
        as (Hinv1 & others & Hold & Hnew).
      * assumption.
      * unfold same_config. simpl. tauto.
      * reflexivity.
      * lia.
      * assumption.
      * reflexivity.
      * simpl. lia.
      * intros q Hq. apply elem_of_cons in Hq as [->|Hq]; [reflexivity|].
        rewrite <- (Nat2Z.id (Z.to_nat b)) in Hlookup.
        rewrite (inv_place t Hinv _ _ _ Hlookup Hq). lia.
      * intros others Hold. simpl. split.
        -- intros q Hq. rewrite <- Hold in Hq. split.
           ++ apply Hall. assumption.
           ++ intros H. apply (Hall q Hq). apply (cmp_sym t Hok). assumption.
        -- eapply distinct_keys_perm; [exact Hold|]. apply Inv_distinct. assumption.
      * assert (Hentries1 : entries t1 ≡ₚ {| key := k; value := v |} :: entries t).
        { rewrite Hnew, Hold. reflexivity. }
        assert (Hcfg1 : same_config t t1) by (unfold same_config; simpl; tauto).
        destruct Ht' as [->|Hrehash].
        -- exists 0, t1, []. split; [assumption|]. split; [assumption|].
           split; [assumption|]. right. left. auto.
        -- destruct (HashTableRehash_spec array_ok t1 0 Hinv1)
             as (t2 & Hr2 & Hinv2 & Hcfg2 & Hperm2 & Hn2 & _); [lia|].
           rewrite Hrehash in Hr2. injection Hr2 as Ht2. subst t2.
           exists 0, t', []. split; [assumption|]. split; [assumption|].
           split; [apply (same_config_trans t t1 t'); assumption|]. right. left.
           split; [assumption|]. split; [reflexivity|]. split; [reflexivity|].
           split; [rewrite Hperm2; assumption|]. rewrite Hn2. reflexivity.
    + exists (-1), t, []. split; [eapply HashTablePut_no_memory; eassumption|].
      split; [assumption|]. split; [apply same_config_refl|]. right. right. auto.
  - (* the key is in the table *)
    pose proof (HashTablePut_found entry_ok array_ok t k v before next p Hk Hv Hscan)
      as Hput. fold b in Hput.
    apply scan_spec in Hscan as (Hc & _ & Heq).
    set (p' := {| key := k; value := v |}) in *.
    set (t1 := store_bucket t b (before ++ p' :: next)) in *.
    destruct (Inv_replace_chain t t1 b c (before ++ p' :: next))
      as (Hinv1 & others & Hold & Hnew).
    + assumption.
    + unfold same_config. simpl. tauto.
    + reflexivity.
    + lia.
    + assumption.
    + reflexivity.
    + simpl. rewrite Hc, !length_app. simpl. lia.
    + intros q Hq.
      assert (Hcases : q = p' \/ q ∈ c).
      { rewrite Hc. rewrite !elem_of_app, !elem_of_cons in *. tauto. }
      destruct Hcases as [->|Hq']; [reflexivity|].
      rewrite <- (Nat2Z.id (Z.to_nat b)) in Hlookup.
      rewrite (inv_place t Hinv _ _ _ Hlookup Hq'). lia.
    + intros others Hold.
      eapply distinct_keys_perm;
        [rewrite <- (assoc_L (++)); apply Permutation_middle|].
      apply (distinct_keys_replace (keycmp t) p p');
        [apply (cmp_sym t Hok)|apply (cmp_trans t Hok)|exact Heq|].
      eapply distinct_keys_perm; [|apply Inv_distinct; exact Hinv].
      rewrite Hold, Hc, <- (assoc_L (++)). symmetry. apply Permutation_middle.
    + eexists 0, t1, _. split; [exact Hput|]. split; [assumption|].
      split; [unfold same_config; simpl; tauto|]. left.
      exists p, (before ++ next ++ others).
      split; [assumption|]. split; [|split; [|auto]].
      * rewrite Hold, Hc, <- (assoc_L (++)). symmetry. apply Permutation_middle.
      * rewrite Hnew, <- (assoc_L (++)). symmetry. apply Permutation_middle.
Qed.

(** ** Remove *)

(** The trace of the removal of one node. *)
Lemma HashTableRemove_absent (array_ok : bool) (t : HashTable) (k : ptr) (before : chain) :
  scan (keycmp t) k (bucket_at (bucketArray t) (hashValue_of t k)) = (before, []) ->
  HashTableRemove array_ok t k = Some (t, []).
Proof. intros Hscan. unfold HashTableRemove. rewrite Hscan. reflexivity. Qed.

Lemma HashTableRemove_found (array_ok : bool) (t : HashTable) (k : ptr)
    (before next : chain) (p : KeyValuePair) :
  scan (keycmp t) k (bucket_at (bucketArray t) (hashValue_of t k)) = (before, p :: next) ->
  let t1 :=
    set_numOfElements (store_bucket t (hashValue_of t k) (before ++ next))
                      (numOfElements t - 1) in
  exists t',
    HashTableRemove array_ok t k
    = Some (t', release (keyDeallocator t) (key p)
                ++ release (valueDeallocator t) (value p) ++ [EvFree p]) /\
    (t' = t1 \/ HashTableRehash array_ok t1 0 = Some t').
Proof.
  intros Hscan t1. unfold HashTableRemove. rewrite Hscan. fold t1.
  destruct (float_gt _ _); [|eauto].
  destruct (float_lt _ _); [|eauto].
  destruct (HashTableRehash_total array_ok t1 0) as [t' Ht']; [lia|].
  rewrite Ht'. simpl. eauto.
Qed.

Lemma HashTableRemove_spec (array_ok : bool) (t : HashTable) (k : ptr) :
  Inv t ->
  exists t' ev,
    HashTableRemove array_ok t k = Some (t', ev) /\
    Inv t' /\ same_config t t' /\
    ((exists p,
         p ∈ bucket_at (bucketArray t) (hashValue_of t k) /\
         keycmp t k (key p) = 0 /\ entries t ≡ₚ p :: entries t' /\
         numOfElements t' = numOfElements t - 1 /\
         ev = release (keyDeallocator t) (key p)
              ++ release (valueDeallocator t) (value p) ++ [EvFree p])
     \/ ((forall p, p ∈ bucket_at (bucketArray t) (hashValue_of t k) ->
                    keycmp t k (key p) <> 0) /\
         t' = t /\ ev = [])).
Proof.
  intros Hinv.
  destruct (hashValue_range t k Hinv) as [Hrange Hlt].
  pose proof (lookup_bucket_at _ _ Hlt) as Hlookup.
  set (b := hashValue_of t k) in *. set (c := bucket_at (bucketArray t) b) in *.
  destruct (scan (keycmp t) k c) as [before found] eqn:Hscan.
  destruct found as [|p next].
  - exists t, []. split; [eapply HashTableRemove_absent; eassumption|].
    split; [assumption|]. split; [apply same_config_refl|]. right.
    apply scan_none in Hscan as [_ Hno]. auto.
  - destruct (HashTableRemove_found array_ok t k before next p Hscan) as (t' & Hrm & Ht').
    fold b in Ht'.
    set (t1 := set_numOfElements (store_bucket t b (before ++ next))
                                 (numOfElements t - 1)) in *.
    apply scan_spec in Hscan as (Hc & _ & Heq).
    destruct (Inv_replace_chain t t1 b c (before ++ next))
      as (Hinv1 & others & Hold & Hnew).
    + assumption.
    + unfold same_config. simpl. tauto.
    + reflexivity.
    + lia.
    + assumption.
    + reflexivity.
    + simpl. rewrite Hc, !length_app. simpl. lia.
    + intros q Hq.
      assert (Hq' : q ∈ c).
      { rewrite Hc. rewrite !elem_of_app, ?elem_of_cons in *. tauto. }
      rewrite <- (Nat2Z.id (Z.to_nat b)) in Hlookup.
      rewrite (inv_place t Hinv _ _ _ Hlookup Hq'). lia.
    + intros others Hold.
      assert (Hd : distinct_keys (keycmp t) (p :: (before ++ next) ++ others)).
      { eapply distinct_keys_perm; [|apply Inv_distinct; exact Hinv].
        rewrite Hold, Hc, <- !(assoc_L (++)). symmetry. apply Permutation_middle. }
      apply Hd.
    + assert (Hentries1 : entries t ≡ₚ p :: entries t1).
      { rewrite Hnew, Hold, Hc, <- !(assoc_L (++)). symmetry. apply Permutation_middle. }
      assert (Hp : p ∈ c).
      { rewrite Hc. apply elem_of_app. right. apply elem_of_cons. left. reflexivity. }
      assert (Hcfg1 : same_config t t1) by (unfold same_config; simpl; tauto).
      destruct Ht' as [->|Hrehash].
      * eexists t1, _. split; [exact Hrm|]. split; [assumption|]. split; [assumption|].
        left. exists p. auto.
      * destruct (HashTableRehash_spec array_ok t1 0 Hinv1)
          as (t2 & Hr2 & Hinv2 & Hcfg2 & Hperm2 & Hn2 & _); [lia|].
        rewrite Hrehash in Hr2. injection Hr2 as Ht2. subst t2.
        eexists t', _. split; [exact Hrm|]. split; [assumption|].
        split; [apply (same_config_trans t t1 t'); assumption|].
        left. exists p. split; [assumption|]. split; [assumption|].
        split; [rewrite Hperm2; assumption|]. split; [|reflexivity].
        rewrite Hn2. reflexivity.
Qed.

(** ** RemoveAll *)

Lemma insert_middle {A : Type} (l1 l2 : list A) (x y : A) :
  <[length l1 := y]> (l1 ++ x :: l2) = l1 ++ y :: l2.
Proof. induction l1 as [|z l1 IH]; simpl; [reflexivity|]. f_equal. exact IH. Qed.

Lemma clear_loop (t : HashTable) (todo : list chain) (d : nat) (ev : list Event) :
  for_loop (length todo) (Z.of_nat d)
    (fun i '(a, ev) => (bucket_set a i [], ev ++ release_chain t (bucket_at a i)))
    (replicate d [] ++ todo, ev)
  = (replicate (d + length todo) [], ev ++ flat_map (release_chain t) todo).
Proof.
  revert d ev. induction todo as [|c todo IH]; intros d ev; simpl.
  - rewrite !app_nil_r, Nat.add_0_r. reflexivity.
  - assert (Hlen : length (replicate d ([] : chain)) = d) by apply length_replicate.
    assert (Hat : bucket_at (replicate d [] ++ c :: todo) (Z.of_nat d) = c).
    { apply bucket_at_lookup. rewrite Nat2Z.id. apply list_lookup_middle. symmetry. assumption. }
    assert (Hset : bucket_set (replicate d [] ++ c :: todo) (Z.of_nat d) []
                   = replicate (S d) [] ++ todo).
    { unfold bucket_set. rewrite Nat2Z.id.
      pose proof (insert_middle (replicate d ([] : chain)) todo c []) as Hmid.
      rewrite Hlen in Hmid. rewrite Hmid.
      rewrite replicate_S_end, <- (assoc_L (++)). reflexivity. }
    rewrite Hat, Hset.
    replace (Z.of_nat d + 1) with (Z.of_nat (S d)) by lia.
    rewrite IH. rewrite <- (assoc_L (++)).
    replace (S d + length todo)%nat with (d + S (length todo))%nat by lia.
    reflexivity.
Qed.

Lemma Inv_empty (t : HashTable) (n : nat) :
  0 < numOfBuckets t -> Z.to_nat (numOfBuckets t) = n ->
  bucketArray t = replicate n [] -> numOfElements t = 0 -> Inv t.
Proof.
  intros Hpos Hn Harr Hcount.
  assert (Hentries : entries t = []).
  { unfold entries. rewrite Harr. apply concat_replicate_nil. }
  split.
  - assumption.
  - rewrite Harr, length_replicate. congruence.
  - rewrite <- length_concat_sum. fold (entries t). rewrite Hentries. assumption.
  - rewrite Harr. intros i c p Hi Hp. apply lookup_replicate in Hi as [-> _].
    inversion Hp.
  - rewrite Hentries. intros a b p q Ha. rewrite lookup_nil in Ha. discriminate.
Qed.

Lemma HashTableRemoveAll_spec (array_ok : bool) (t : HashTable) :
  0 < numOfBuckets t -> length (bucketArray t) = Z.to_nat (numOfBuckets t) ->
  exists t',
    HashTableRemoveAll array_ok t
    = Some (t', flat_map (release_chain t) (bucketArray t)) /\
    Inv t' /\ same_config t t' /\ entries t' = [] /\ numOfElements t' = 0 /\
    (array_ok = true -> numOfBuckets t' = 5).
Proof.
  intros Hpos Hlen. unfold HashTableRemoveAll.
  pose proof (clear_loop t (bucketArray t) 0 []) as Hloop.
  change (Z.of_nat 0) with 0 in Hloop. simpl in Hloop.
  rewrite <- Hlen, Hloop.
  set (t1 := set_numOfElements
               (set_bucketArray t (replicate (length (bucketArray t)) [])) 0).
  assert (Hinv1 : Inv t1).
  { apply (Inv_empty t1 (length (bucketArray t))); simpl; auto. }
  destruct (HashTableRehash_spec array_ok t1 5 Hinv1)
    as (t' & Hr & Hinv' & Hcfg & Hperm & Hn & _ & Hnb); [lia|].
  rewrite Hr. simpl. exists t'. split; [reflexivity|]. split; [assumption|].
  split; [|split; [|split]].
  - apply (same_config_trans t t1 t'); [|assumption].
    unfold same_config. simpl. tauto.
  - assert (Hnil : entries t1 = []) by (unfold entries; simpl; apply concat_replicate_nil).
    rewrite Hnil in Hperm. apply Permutation_nil_r. assumption.
  - rewrite Hn. reflexivity.
  - assumption.
Qed.

(** ** Iterator *)

Lemma drop_cons_lookup {A : Type} (l : list A) (i : nat) (x : A) (rest : list A) :
  drop i l = x :: rest -> l !! i = Some x /\ drop (S i) l = rest.
Proof.
  intros Hdrop. split.
  - pose proof (lookup_drop l i 0) as H. rewrite Hdrop, Nat.add_0_r in H.
    symmetry. exact H.
  - replace (S i) with (i + 1)%nat by lia. rewrite <- drop_drop, Hdrop. reflexivity.
Qed.

(** From a position in the chain of bucket [b], the iteration visits the
    rest of the chain and then the buckets after [b]. *)
Lemma iterate_from_next (t : HashTable) :
  length (bucketArray t) = Z.to_nat (numOfBuckets t) ->
  forall (rest : list chain) (b : nat) (pr : chain) (fuelN fuel : nat),
    drop (S b) (bucketArray t) = rest ->
    (b < length (bucketArray t))%nat ->
    (length rest < fuelN)%nat ->
    (length pr + length (concat rest) <= fuel)%nat ->
    iterate_from fuel t (getNext_loop fuelN t (Z.of_nat b) pr)
    = Some (map (fun p => (Z.of_nat b, key p, value p)) pr
            ++ visits_from (Z.of_nat b + 1) rest).
Proof.
  intros Hlen rest.
  assert (Hnext : forall (b : nat) (p : KeyValuePair) (pr : chain),
             hashTableGetNext t {| bucket := Z.of_nat b; pair := p :: pr |}
             = getNext_loop (S (Z.to_nat (numOfBuckets t))) t (Z.of_nat b) pr)
    by reflexivity.
  induction rest as [|c rest IHrest]; intros b pr.
  - (* [b] is the last bucket *)
    induction pr as [|p pr IHpr]; intros fuelN fuel Hdrop Hb HfuelN Hfuel.
    + destruct fuelN as [|fuelN]; [simpl in HfuelN; lia|]. simpl.
      assert (S b = length (bucketArray t)).
      { apply drop_nil_inv in Hdrop. lia. }
      destruct (Z.ltb_spec (Z.of_nat b) (numOfBuckets t)); [|lia].
      destruct (Z.ltb_spec (Z.of_nat b + 1) (numOfBuckets t)); [lia|].
      destruct fuel; reflexivity.
    + destruct fuelN as [|fuelN]; [simpl in HfuelN; lia|]. simpl getNext_loop.
      destruct (Z.ltb_spec (Z.of_nat b) (numOfBuckets t)); [|lia].
      destruct fuel as [|fuel]; [simpl in Hfuel; lia|].
      simpl iterate_from. rewrite Hnext.
      rewrite IHpr; [reflexivity|assumption|assumption|cbn [length]; lia|].
      cbn [length concat] in *. lia.
  - induction pr as [|p pr IHpr]; intros fuelN fuel Hdrop Hb HfuelN Hfuel.
    + destruct fuelN as [|fuelN]; [simpl in HfuelN; lia|]. simpl getNext_loop.
      apply drop_cons_lookup in Hdrop as [Hc Hdrop].
      pose proof (lookup_lt_Some _ _ _ Hc) as Hlt.
      destruct (Z.ltb_spec (Z.of_nat b) (numOfBuckets t)); [|lia].
      destruct (Z.ltb_spec (Z.of_nat b + 1) (numOfBuckets t)); [|lia].
      replace (Z.of_nat b + 1) with (Z.of_nat (S b)) by lia.
      rewrite (bucket_at_of_nat _ _ _ Hc).
      rewrite (IHrest (S b) c fuelN fuel); try assumption.
      * simpl. replace (Z.of_nat (S b)) with (Z.of_nat b + 1) by lia. reflexivity.
      * simpl in HfuelN. lia.
      * simpl in Hfuel. rewrite length_app in Hfuel. lia.
    + destruct fuelN as [|fuelN]; [simpl in HfuelN; lia|]. simpl getNext_loop.
      destruct (Z.ltb_spec (Z.of_nat b) (numOfBuckets t)); [|lia].
      destruct fuel as [|fuel]; [simpl in Hfuel; lia|].
      simpl iterate_from. rewrite Hnext.
      rewrite IHpr; [reflexivity|assumption|assumption| |cbn [length] in *; lia].
      assert (length (c :: rest) = (length (bucketArray t) - S b)%nat)
        by (rewrite <- Hdrop, length_drop; reflexivity).
      lia.
Qed.

Lemma iterate_from_first (t : HashTable) :
  length (bucketArray t) = Z.to_nat (numOfBuckets t) ->
  forall (todo : list chain) (b fuel : nat),
    drop b (bucketArray t) = todo ->
    (length (concat todo) <= fuel)%nat ->
    iterate_from fuel t (getFirst_loop (length todo) t (Z.of_nat b))
    = Some (visits_from (Z.of_nat b) todo).
Proof.
  intros Hlen todo. induction todo as [|c todo IH]; intros b fuel Hdrop Hfuel.
  - destruct fuel; reflexivity.
  - apply drop_cons_lookup in Hdrop as [Hc Hdrop]. simpl getFirst_loop.
    rewrite (bucket_at_of_nat _ _ _ Hc). destruct c as [|p next].
    + replace (Z.of_nat b + 1) with (Z.of_nat (S b)) by lia.
      rewrite IH; [|assumption|assumption].
      simpl. replace (Z.of_nat (S b)) with (Z.of_nat b + 1) by lia. reflexivity.
    + destruct fuel as [|fuel]; [simpl in Hfuel; lia|].
      simpl iterate_from.
      change (hashTableGetNext t {| bucket := Z.of_nat b; pair := p :: next |})
        with (getNext_loop (S (Z.to_nat (numOfBuckets t))) t (Z.of_nat b) next).
      rewrite (iterate_from_next t Hlen todo b next); try assumption.
      * reflexivity.
      * eapply lookup_lt_Some. eassumption.
      * apply lookup_lt_Some in Hc.
        assert (length todo = (length (bucketArray t) - S b)%nat)
          by (rewrite <- Hdrop, length_drop; reflexivity).
        lia.
      * simpl in Hfuel. rewrite length_app in Hfuel. lia.
Qed.

(** With its iterator allocated a full iteration ends, and visits the
    buckets in order. *)
Lemma full_iteration_visits (t : HashTable) (fuel : nat) :
  length (bucketArray t) = Z.to_nat (numOfBuckets t) ->
  (length (entries t) <= fuel)%nat ->
  full_iteration true fuel t = Some (visits t).
Proof.
  intros Hlen Hfuel. unfold full_iteration, hashTableGetFirst, visits. simpl.
  rewrite <- Hlen. apply (iterate_from_first t Hlen (bucketArray t) 0 fuel).
  - reflexivity.
  - assumption.
Qed.

(** Without it, [hashTableGetFirst] does not return. *)
Lemma full_iteration_no_memory (t : HashTable) (fuel : nat) :
  hashTableGetFirst false t = None /\ full_iteration false fuel t = None.
Proof. split; reflexivity. Qed.

(** The first cursor of a table without entries is the [NULL] result. *)
Lemma getFirst_no_entries (t : HashTable) :
  length (bucketArray t) = Z.to_nat (numOfBuckets t) ->
  entries t = [] -> hashTableGetFirst true t = Some None.
Proof.
  intros Hlen Hnil.
  pose proof (full_iteration_visits t 0 Hlen) as Hfull.
  rewrite Hnil in Hfull. specialize (Hfull (Nat.le_refl _)).
  unfold full_iteration, hashTableGetFirst in *. simpl in *.
  destruct (getFirst_loop _ t 0) as [[[iter k] v]|]; [|reflexivity].
  simpl in Hfull. discriminate.
Qed.

Lemma visits_from_entries (b : Z) (a : list chain) :
  map (fun x => {| key := visit_key x; value := snd x |}) (visits_from b a) = concat a.
Proof.
  revert b. induction a as [|c a IH]; intros b; simpl; [reflexivity|].
  rewrite map_app, IH, map_map. f_equal.
  clear. induction c as [|[k v] c IH]; simpl; [reflexivity|]. f_equal. exact IH.
Qed.

Lemma visits_from_lower (b : Z) (a : list chain) (x : Z * ptr * ptr) :
  x ∈ visits_from b a -> b <= visit_bucket x.
Proof.
  revert b. induction a as [|c a IH]; intros b; simpl.
  - intros H. inversion H.
  - rewrite elem_of_app. intros [Hx|Hx].
    + apply list_elem_of_In, in_map_iff in Hx as (p & <- & _).
      unfold visit_bucket. simpl. lia.
    + apply IH in Hx. lia.
Qed.

Lemma visits_from_ascending (b : Z) (a : list chain) :
  StronglySorted (fun x y => visit_bucket x <= visit_bucket y) (visits_from b a).
Proof.
  revert b. induction a as [|c a IH]; intros b; simpl; [constructor|].
  induction c as [|p c IHc]; simpl; [apply IH|].
  constructor; [exact IHc|]. apply Forall_forall. intros y Hy.
  unfold visit_bucket at 1. simpl.
  apply elem_of_app in Hy as [Hy|Hy].
  - apply list_elem_of_In, in_map_iff in Hy as (q & <- & _).
    unfold visit_bucket. simpl. lia.
  - apply visits_from_lower in Hy. lia.
Qed.

(** The visits recorded for bucket [b] are its chain, head first. *)
Lemma visits_from_bucket (b0 : Z) (a : list chain) (b : Z) :
  filter (fun x => visit_bucket x = b) (visits_from b0 a)
  = match a !! Z.to_nat (b - b0) with
    | Some c => if decide (b0 <= b) then map (fun p => (b, key p, value p)) c else []
    | None => []
    end.
Proof.
  revert b0. induction a as [|c a IH]; intros b0; simpl; [reflexivity|].
  rewrite filter_app, IH.
  assert (Hhead : filter (fun x : Z * ptr * ptr => visit_bucket x = b)
                         (map (fun p => (b0, key p, value p)) c)
                  = if decide (b0 = b) then map (fun p => (b, key p, value p)) c else []).
  { clear. induction c as [|p c IH]; simpl.
    - destruct (decide (b0 = b)); reflexivity.
    - rewrite filter_cons. unfold visit_bucket at 1. simpl.
      rewrite IH. destruct (decide (b0 = b)); [subst|]; reflexivity. }
  rewrite Hhead. destruct (decide (b0 = b)) as [->|Hne].
  - rewrite Z.sub_diag. simpl.
    replace (Z.to_nat (b - (b + 1))) with O by lia.
    destruct (decide (b <= b)); [|lia].
    destruct (a !! O); [|apply app_nil_r].
    destruct (decide (b + 1 <= b)); [lia|]. apply app_nil_r.
  - simpl. destruct (decide (b0 <= b)) as [Hle|Hgt].
    + replace (Z.to_nat (b - b0)) with (S (Z.to_nat (b - (b0 + 1)))) by lia.
      simpl. destruct (a !! _); [|reflexivity].
      destruct (decide (b0 + 1 <= b)); [reflexivity|lia].
    + destruct (a !! Z.to_nat (b - (b0 + 1))).
      * destruct (decide (b0 + 1 <= b)); [lia|].
        destruct (Z.to_nat (b - b0)); [reflexivity|]. simpl.
        destruct (a !! _); reflexivity.
      * destruct (Z.to_nat (b - b0)); [reflexivity|]. simpl.
        destruct (a !! _); reflexivity.
Qed.

(** ** Create and the setters *)

Lemma HashTableCreate_fresh (n : Z) :
  0 < n -> HashTableCreate true true n = Some (Some (fresh_table n)).
Proof.
  intros Hn. unfold HashTableCreate.
  destruct (Z.ltb_spec 0 n); [simpl|lia]. rewrite for_loop_clear. reflexivity.
Qed.

Lemma HashTableCreate_inv (table_ok array_ok : bool) (n : Z) (t : HashTable) :
  HashTableCreate table_ok array_ok n = Some (Some t) -> 0 < n /\ t = fresh_table n.
Proof.
  unfold HashTableCreate. destruct (Z.ltb_spec 0 n); simpl; [|discriminate].
  destruct table_ok; simpl; [|discriminate].
  destruct array_ok; simpl; [|discriminate].
  rewrite for_loop_clear. intros [= <-]. auto.
Qed.

Lemma Inv_fresh (n : Z) : 0 < n -> Inv (fresh_table n).
Proof. intros Hn. apply (Inv_empty _ (Z.to_nat n)); auto. Qed.

(** The default strategies are sound. *)
Lemma Strategies_ok_pointer (t : HashTable) :
  keycmp t = pointercmp -> hashFunction t = pointerHashFunction -> Strategies_ok t.
Proof.
  intros Hk Hh. split; rewrite ?Hk, ?Hh; unfold pointercmp.
  - intros a. rewrite Z.eqb_refl. reflexivity.
  - intros a b. destruct (Z.eqb_spec a b); [subst; rewrite Z.eqb_refl; auto|discriminate].
  - intros a b c. destruct (Z.eqb_spec a b); [subst; auto|discriminate].
  - intros a b. destruct (Z.eqb_spec a b); [subst; auto|discriminate].
Qed.

Lemma Strategies_ok_fresh (n : Z) : Strategies_ok (fresh_table n).
Proof. apply Strategies_ok_pointer; reflexivity. Qed.

(** The invariant reads five fields only. *)
Lemma Inv_same_fields (t t' : HashTable) :
  Inv t ->
  numOfBuckets t' = numOfBuckets t -> numOfElements t' = numOfElements t ->
  bucketArray t' = bucketArray t ->
  keycmp t' = keycmp t -> hashFunction t' = hashFunction t ->
  Inv t'.
Proof.
  intros [H1 H2 H3 H4 H5] Hnb Hne Harr Hk Hh.
  split; unfold entries, hashValue_of in *; rewrite ?Hnb, ?Hne, ?Harr, ?Hk, ?Hh;
    assumption.
Qed.

Lemma Inv_no_entries (t : HashTable) :
  Inv t -> numOfElements t = 0 -> entries t = [].
Proof.
  intros Hinv H0. rewrite (Inv_count_entries t Hinv) in H0.
  destruct (entries t); [reflexivity|simpl in H0; lia].
Qed.

(** On an empty table the strategies can be replaced. *)
Lemma Inv_empty_strategies (t t' : HashTable) :
  Inv t -> numOfElements t = 0 ->
  numOfBuckets t' = numOfBuckets t -> numOfElements t' = numOfElements t ->
  bucketArray t' = bucketArray t ->
  Inv t'.
Proof.
  intros Hinv H0 Hnb Hne Harr.
  pose proof (Inv_no_entries t Hinv H0) as Hnil.
  destruct Hinv as [H1 H2 H3 H4 H5].
  split; unfold entries in *; rewrite ?Hnb, ?Hne, ?Harr; try assumption.
  - intros i c p Hi Hp. exfalso.
    assert (Hin : p ∈ concat (bucketArray t)) by (apply elem_of_concat_lookup; eauto).
    rewrite Hnil in Hin. inversion Hin.
  - rewrite Hnil. intros a b p q Ha. rewrite lookup_nil in Ha. discriminate.
Qed.

Lemma step_Inv (t t' : HashTable) (op : Op) :
  Inv t -> disciplined t op -> step t op = Some t' -> Inv t'.
Proof.
  intros Hinv Hdisc Hstep. destruct op; simpl in Hstep, Hdisc.
  - destruct (Z.eq_dec k NULL) as [Hk|Hk];
      [rewrite HashTablePut_null in Hstep by auto; discriminate|].
    destruct (Z.eq_dec v NULL) as [Hv|Hv];
      [rewrite HashTablePut_null in Hstep by auto; discriminate|].
    destruct (HashTablePut_spec entry_ok array_ok t k v Hinv Hdisc Hk Hv)
      as (r & t1 & ev & Hput & Hinv1 & _).
    rewrite Hput in Hstep. simpl in Hstep. congruence.
  - congruence.
  - destruct (HashTableRemove_spec array_ok t k Hinv) as (t1 & ev & Hrm & Hinv1 & _).
    rewrite Hrm in Hstep. simpl in Hstep. congruence.
  - destruct (HashTableRemoveAll_spec array_ok t (inv_buckets t Hinv) (inv_array t Hinv))
      as (t1 & Hrm & Hinv1 & _).
    rewrite Hrm in Hstep. simpl in Hstep. congruence.
  - destruct (Z.le_gt_cases 0 n) as [Hn|Hn].
    + destruct (HashTableRehash_spec array_ok t n Hinv Hn) as (t1 & Hr & Hinv1 & _).
      congruence.
    + unfold HashTableRehash in Hstep.
      destruct (Z.leb_spec 0 n); [lia|]. discriminate.
  - injection Hstep as <-. apply (Inv_empty_strategies t); auto.
  - injection Hstep as <-. apply (Inv_same_fields t); auto.
  - injection Hstep as <-. apply (Inv_empty_strategies t); auto.
  - injection Hstep as <-. apply (Inv_same_fields t); auto.
Qed.

Lemma run_Inv (t0 t : HashTable) (ops : list Op) :
  Inv t0 -> disciplined_run t0 ops -> run t0 ops = Some t -> Inv t.
Proof.
  revert t0. induction ops as [|op ops IH]; intros t0 Hinv Hdisc Hrun; simpl in *.
  - congruence.
  - destruct Hdisc as [Hop Hrest].
    destruct (step t0 op) as [t1|] eqn:Hstep; simpl in Hrun; [|discriminate].
    apply (IH t1); [eapply step_Inv; eassumption|assumption|assumption].
Qed.

(** ** Lookups after updates *)

Lemma HashTableGet_config (t t' : HashTable) (k : ptr) :
  Inv t -> Inv t' -> Strategies_ok t -> same_config t t' ->
  entries t' ≡ₚ entries t -> HashTableGet t' k = HashTableGet t k.
Proof.
  intros Hinv Hinv' Hok Hcfg Hperm.
  pose proof (Strategies_ok_config t t' Hcfg Hok) as Hok'.
  rewrite !HashTableGet_assoc by assumption.
  destruct Hcfg as (Hk & _). rewrite Hk.
  apply assoc_perm;
    [apply (cmp_sym t Hok)|apply (cmp_trans t Hok)| |assumption].
  rewrite <- Hk. apply Inv_distinct. assumption.
Qed.

Lemma cmp_equal_iff (t : HashTable) (k k1 k2 : ptr) :
  Strategies_ok t -> keycmp t k1 k2 = 0 ->
  (keycmp t k k1 =? 0) = (keycmp t k k2 =? 0).
Proof.
  intros Hok H12.
  destruct (Z.eqb_spec (keycmp t k k1) 0) as [H1|H1];
    destruct (Z.eqb_spec (keycmp t k k2) 0) as [H2|H2]; try reflexivity; exfalso.
  - apply H2. eapply (cmp_trans t Hok); eassumption.
  - apply H1. eapply (cmp_trans t Hok); [eassumption|].
    apply (cmp_sym t Hok). assumption.
Qed.

(** A lookup after a put. *)
Lemma HashTableGet_put (entry_ok array_ok : bool) (t t' : HashTable) (k v r : Z)
    (ev : list Event) (k' : ptr) :
  Inv t -> Strategies_ok t ->
  HashTablePut entry_ok array_ok t k v = Some (r, t', ev) ->
  HashTableGet t' k'
  = if (r =? 0) && (keycmp t k' k =? 0) then v else HashTableGet t k'.
Proof.
  intros Hinv Hok Hput.
  destruct (Z.eq_dec k NULL) as [Hk|Hk];
    [rewrite HashTablePut_null in Hput by auto; discriminate|].
  destruct (Z.eq_dec v NULL) as [Hv|Hv];
    [rewrite HashTablePut_null in Hput by auto; discriminate|].
  destruct (HashTablePut_spec entry_ok array_ok t k v Hinv Hok Hk Hv)
    as (r1 & t1 & ev1 & Hput1 & Hinv1 & Hcfg & Hcases).
  rewrite Hput in Hput1. injection Hput1 as <- <- <-.
  pose proof (Strategies_ok_config t t' Hcfg Hok) as Hok'.
  pose proof (Inv_distinct t Hinv) as Hd. pose proof (Inv_distinct t' Hinv1) as Hd'.
  assert (Hkc : keycmp t' = keycmp t) by apply Hcfg.
  rewrite !HashTableGet_assoc by assumption. rewrite Hkc in *.
  destruct Hcases as [(p & others & Heq & Hold & Hnew & -> & _)
                     |[(Hno & _ & -> & Hnew & _)|(_ & _ & -> & -> & _)]].
  - rewrite (assoc_perm (keycmp t) (cmp_sym t Hok) (cmp_trans t Hok) k' _ _ Hd' Hnew).
    rewrite (assoc_perm (keycmp t) (cmp_sym t Hok) (cmp_trans t Hok) k' _ _ Hd Hold).
    rewrite !assoc_cons. simpl.
    rewrite <- (cmp_equal_iff t k' k (key p) Hok Heq).
    destruct (keycmp t k' k =? 0); reflexivity.
  - rewrite (assoc_perm (keycmp t) (cmp_sym t Hok) (cmp_trans t Hok) k' _ _ Hd' Hnew).
    rewrite assoc_cons. reflexivity.
  - reflexivity.
Qed.

(** A lookup after the removal of [k]. *)
Lemma HashTableGet_remove (array_ok : bool) (t t' : HashTable) (k : ptr)
    (ev : list Event) :
  Inv t -> Strategies_ok t ->
  HashTableRemove array_ok t k = Some (t', ev) ->
  HashTableGet t' k = NULL.
Proof.
  intros Hinv Hok Hrm.
  destruct (HashTableRemove_spec array_ok t k Hinv)
    as (t1 & ev1 & Hrm1 & Hinv1 & Hcfg & Hcases).
  rewrite Hrm in Hrm1. injection Hrm1 as <- <-.
  pose proof (Strategies_ok_config t t' Hcfg Hok) as Hok'.
  assert (Hkc : keycmp t' = keycmp t) by apply Hcfg.
  rewrite HashTableGet_assoc by assumption. apply assoc_none. rewrite Hkc.
  destruct Hcases as [(p & _ & Heq & Hperm & _)|(Hno & -> & _)].
  - intros q Hq Hkq.
    assert (Hd : distinct_keys (keycmp t) (p :: entries t')).
    { eapply distinct_keys_perm; [exact Hperm|]. apply Inv_distinct. assumption. }
    destruct Hd as [Hp _]. destruct (Hp q Hq) as [Hpq _]. apply Hpq.
    eapply (cmp_trans t Hok); [|exact Hkq]. apply (cmp_sym t Hok). assumption.
  - apply no_match_in_bucket; assumption.
Qed.

(** Values stay non-null. *)
Lemma values_nonnull_perm (t t' : HashTable) :
  entries t' ≡ₚ entries t -> values_nonnull t -> values_nonnull t'.
Proof. intros Hperm Hnn p Hp. apply Hnn. rewrite <- Hperm. assumption. Qed.

Lemma step_values_nonnull (t t' : HashTable) (op : Op) :
  Inv t -> disciplined t op -> step t op = Some t' ->
  values_nonnull t -> values_nonnull t'.
Proof.
  intros Hinv Hdisc Hstep Hnn. destruct op; simpl in Hstep, Hdisc.
  - destruct (Z.eq_dec k NULL) as [Hk|Hk];
      [rewrite HashTablePut_null in Hstep by auto; discriminate|].
    destruct (Z.eq_dec v NULL) as [Hv|Hv];
      [rewrite HashTablePut_null in Hstep by auto; discriminate|].
    destruct (HashTablePut_spec entry_ok array_ok t k v Hinv Hdisc Hk Hv)
      as (r & t1 & ev & Hput & _ & _ & Hcases).
    rewrite Hput in Hstep. simpl in Hstep. injection Hstep as <-.
    intros q Hq.
    destruct Hcases as [(p & others & _ & Hold & Hnew & _)
                       |[(_ & _ & _ & Hnew & _)|(_ & _ & _ & -> & _)]].
    + rewrite Hnew in Hq. apply elem_of_cons in Hq as [->|Hq]; [assumption|].
      apply Hnn. rewrite Hold. apply elem_of_cons. right. assumption.
    + rewrite Hnew in Hq. apply elem_of_cons in Hq as [->|Hq]; [assumption|].
      apply Hnn. assumption.
    + apply Hnn. assumption.
  - injection Hstep as <-. exact Hnn.
  - destruct (HashTableRemove_spec array_ok t k Hinv)
      as (t1 & ev & Hrm & _ & _ & Hcases).
    rewrite Hrm in Hstep. simpl in Hstep. injection Hstep as <-.
    destruct Hcases as [(p & _ & _ & Hperm & _)|(_ & -> & _)]; [|assumption].
    intros q Hq. apply Hnn. rewrite Hperm. apply elem_of_cons. right. assumption.
  - destruct (HashTableRemoveAll_spec array_ok t (inv_buckets t Hinv) (inv_array t Hinv))
      as (t1 & Hrm & _ & _ & Hnil & _).
    rewrite Hrm in Hstep. simpl in Hstep. injection Hstep as <-.
    intros q Hq. rewrite Hnil in Hq. inversion Hq.
  - destruct (Z.le_gt_cases 0 n) as [Hn|Hn].
    + destruct (HashTableRehash_spec array_ok t n Hinv Hn)
        as (t1 & Hr & _ & _ & Hperm & _).
      rewrite Hr in Hstep. injection Hstep as <-.
      eapply values_nonnull_perm; eassumption.
    + unfold HashTableRehash in Hstep.
      destruct (Z.leb_spec 0 n); [lia|]. discriminate.
  - injection Hstep as <-. exact Hnn.
  - injection Hstep as <-. exact Hnn.
  - injection Hstep as <-. exact Hnn.
  - injection Hstep as <-. exact Hnn.
Qed.

Lemma run_values_nonnull (t0 t : HashTable) (ops : list Op) :
  Inv t0 -> disciplined_run t0 ops -> run t0 ops = Some t ->
  values_nonnull t0 -> values_nonnull t.
Proof.
  revert t0. induction ops as [|op ops IH]; intros t0 Hinv Hdisc Hrun Hnn; simpl in *.
  - injection Hrun as <-. exact Hnn.
  - destruct Hdisc as [Hop Hrest].
    destruct (step t0 op) as [t1|] eqn:Hstep; simpl in Hrun; [|discriminate].
    apply (IH t1); try assumption.
    + eapply step_Inv; eassumption.
    + eapply step_values_nonnull; eassumption.
Qed.

(** Without the two setters the strategies stay sound, and every run is
    disciplined. *)
Lemma step_Strategies_ok (t t' : HashTable) (op : Op) :
  Inv t -> Strategies_ok t -> keeps_strategies op = true ->
  step t op = Some t' -> Strategies_ok t'.
Proof.
  intros Hinv Hok Hkeep Hstep. destruct op; simpl in Hstep, Hkeep; try discriminate.
  - destruct (Z.eq_dec k NULL) as [Hk|Hk];
      [rewrite HashTablePut_null in Hstep by auto; discriminate|].
    destruct (Z.eq_dec v NULL) as [Hv|Hv];
      [rewrite HashTablePut_null in Hstep by auto; discriminate|].
    destruct (HashTablePut_spec entry_ok array_ok t k v Hinv Hok Hk Hv)
      as (r & t1 & ev & Hput & _ & Hcfg & _).
    rewrite Hput in Hstep. simpl in Hstep. injection Hstep as <-.
    eapply Strategies_ok_config; eassumption.
  - injection Hstep as <-. assumption.
  - destruct (HashTableRemove_spec array_ok t k Hinv) as (t1 & ev & Hrm & _ & Hcfg & _).
    rewrite Hrm in Hstep. simpl in Hstep. injection Hstep as <-.
    eapply Strategies_ok_config; eassumption.
  - destruct (HashTableRemoveAll_spec array_ok t (inv_buckets t Hinv) (inv_array t Hinv))
      as (t1 & Hrm & _ & Hcfg & _).
    rewrite Hrm in Hstep. simpl in Hstep. injection Hstep as <-.
    eapply Strategies_ok_config; eassumption.
  - destruct (Z.le_gt_cases 0 n) as [Hn|Hn].
    + destruct (HashTableRehash_spec array_ok t n Hinv Hn) as (t1 & Hr & _ & Hcfg & _).
      rewrite Hr in Hstep. injection Hstep as <-.
      eapply Strategies_ok_config; eassumption.
    + unfold HashTableRehash in Hstep.
      destruct (Z.leb_spec 0 n); [lia|]. discriminate.
  - injection Hstep as <-. destruct Hok as [H1 H2 H3 H4]. split; assumption.
  - injection Hstep as <-. destruct Hok as [H1 H2 H3 H4]. split; assumption.
Qed.

Lemma disciplined_without_setters (t0 : HashTable) (ops : list Op) :
  Inv t0 -> Strategies_ok t0 -> forallb keeps_strategies ops = true ->
  disciplined_run t0 ops.
Proof.
  revert t0. induction ops as [|op ops IH]; intros t0 Hinv Hok Hkeep; simpl.
  - trivial.
  - simpl in Hkeep. apply andb_true_iff in Hkeep as [Hop Hkeep].
    assert (Hdisc : disciplined t0 op).
    { destruct op; simpl; try trivial; discriminate. }
    split; [exact Hdisc|].
    destruct (step t0 op) as [t1|] eqn:Hstep; [|trivial].
    apply IH; [eapply step_Inv; eassumption| |assumption].
    eapply step_Strategies_ok; eassumption.
Qed.


(** ** The order of insertion *)

Section KeyLists.

Context {A : Type} (P : A -> Prop) `{forall x, Decision (P x)}.

Lemma filter_all (l : list A) : (forall x, x ∈ l -> P x) -> filter P l = l.
Proof.
  induction l as [|x l IH]; intros Hall; [reflexivity|].
  rewrite filter_cons_True by (apply Hall, elem_of_cons; left; reflexivity).
  f_equal. apply IH. intros y Hy. apply Hall, elem_of_cons. right. assumption.
Qed.

Lemma filter_none (l : list A) : (forall x, x ∈ l -> ~ P x) -> filter P l = [].
Proof.
  induction l as [|x l IH]; intros Hall; [reflexivity|].
  rewrite filter_cons_False by (apply Hall, elem_of_cons; left; reflexivity).
  apply IH. intros y Hy. apply Hall, elem_of_cons. right. assumption.
Qed.

Lemma filter_map_commute (f : A -> A) (l : list A) :
  (forall x, x ∈ l -> P (f x) <-> P x) ->
  filter P (map f l) = map f (filter P l).
Proof.
  induction l as [|x l IH]; intros Heq; [reflexivity|]. simpl.
  assert (Hx : P (f x) <-> P x) by (apply Heq, elem_of_cons; left; reflexivity).
  assert (IH' : filter P (map f l) = map f (filter P l)).
  { apply IH. intros y Hy. apply Heq, elem_of_cons. right. assumption. }
  rewrite !filter_cons.
  destruct (decide (P (f x))), (decide (P x)); simpl; rewrite IH'; tauto.
Qed.

Lemma map_id_on (f : A -> A) (l : list A) :
  (forall x, x ∈ l -> f x = x) -> map f l = l.
Proof.
  induction l as [|x l IH]; intros Hid; [reflexivity|]. simpl.
  rewrite Hid by (apply elem_of_cons; left; reflexivity). f_equal.
  apply IH. intros y Hy. apply Hid, elem_of_cons. right. assumption.
Qed.

Lemma filter_iff (Q : A -> Prop) `{forall x, Decision (Q x)} (l : list A) :
  (forall x, P x <-> Q x) -> filter P l = filter Q l.
Proof.
  intros Hiff. induction l as [|x l IH]; [reflexivity|]. rewrite !filter_cons.
  destruct (decide (P x)), (decide (Q x)); rewrite IH; try reflexivity;
    exfalso; specialize (Hiff x); tauto.
Qed.

Lemma filter_filter_comm (Q : A -> Prop) `{forall x, Decision (Q x)} (l : list A) :
  filter P (filter Q l) = filter Q (filter P l).
Proof.
  induction l as [|x l IH]; [reflexivity|]. rewrite !filter_cons.
  destruct (decide (Q x)), (decide (P x)); rewrite ?filter_cons;
    repeat case_decide; try tauto; rewrite IH; reflexivity.
Qed.

End KeyLists.

Lemma elem_of_map_key (c : chain) (k : ptr) :
  k ∈ map key c <-> exists p, p ∈ c /\ key p = k.
Proof.
  rewrite list_elem_of_In, in_map_iff. split; intros (p & H1 & H2); exists p.
  - split; [apply list_elem_of_In|]; assumption.
  - split; [|apply list_elem_of_In]; assumption.
Qed.

(** The node found by a scan is the only one of its chain whose key
    compares equal to [k]. *)
Lemma chain_match_unique (t : HashTable) (i : nat) (k : ptr)
    (before next : chain) (p : KeyValuePair) :
  Inv t -> Strategies_ok t ->
  bucketArray t !! i = Some (before ++ p :: next) ->
  keycmp t k (key p) = 0 ->
  forall q, q ∈ before ++ next -> keycmp t k (key q) <> 0.
Proof.
  intros Hinv Hok Hc Heq q Hq Hkq.
  destruct (concat_insert_perm _ _ _ Hc) as (others & Hold & _).
  assert (Hd : distinct_keys (keycmp t) (p :: (before ++ next) ++ others)).
  { eapply distinct_keys_perm; [|apply Inv_distinct; exact Hinv].
    fold (entries t) in Hold. rewrite Hold, <- !(assoc_L (++)).
    symmetry. apply Permutation_middle. }
  destruct Hd as [Hp _].
  destruct (Hp q) as [Hpq _]; [apply elem_of_app; left; assumption|].
  apply Hpq. eapply (cmp_trans t Hok); [|exact Hkq].
  apply (cmp_sym t Hok). assumption.
Qed.

Section History.

Variables (t : HashTable) (h : list ptr).
Hypothesis Hinv : Inv t.
Hypothesis Hok : Strategies_ok t.
Hypothesis Hcnf : chains_newest_first t h.

Lemma history_key_in_chain (k0 : ptr) :
  k0 ∈ h ->
  exists p, p ∈ bucket_at (bucketArray t) (hashValue_of t k0) /\ key p = k0.
Proof.
  intros Hk0. destruct (hashValue_range t k0 Hinv) as [Hrange Hlt].
  pose proof (lookup_bucket_at _ _ Hlt) as Hlookup.
  apply elem_of_map_key. rewrite (Hcnf _ _ Hlookup).
  apply list_elem_of_filter. split; [lia|assumption].
Qed.

Lemma chain_key_in_history (i : nat) (c : chain) (p : KeyValuePair) :
  bucketArray t !! i = Some c -> p ∈ c -> key p ∈ h.
Proof.
  intros Hc Hp.
  assert (Hin : key p ∈ map key c) by (apply elem_of_map_key; eauto).
  rewrite (Hcnf _ _ Hc) in Hin. apply list_elem_of_filter in Hin. tauto.
Qed.

Lemma history_has_key (k : ptr) (before found : chain) :
  scan (keycmp t) k (bucket_at (bucketArray t) (hashValue_of t k)) = (before, found) ->
  existsb (fun k' => keycmp t k k' =? 0) h = match found with [] => false | _ => true end.
Proof.
  intros Hscan. destruct (hashValue_range t k Hinv) as [Hrange Hlt].
  pose proof (lookup_bucket_at _ _ Hlt) as Hlookup.
  destruct found as [|p next].
  - apply scan_none in Hscan as [_ Hno].
    destruct (existsb _ h) eqn:Hex; [|reflexivity]. exfalso.
    apply existsb_exists in Hex as (k0 & Hk0 & Heq). apply Z.eqb_eq in Heq.
    apply list_elem_of_In in Hk0.
    destruct (history_key_in_chain k0 Hk0) as (q & Hq & <-).
    unfold hashValue_of in Hq.
    rewrite <- (hash_respects t Hok k (key q) Heq) in Hq.
    apply (Hno q Hq Heq).
  - apply scan_spec in Hscan as (Hc & _ & Heq).
    apply existsb_exists. exists (key p). split; [|apply Z.eqb_eq; assumption].
    apply list_elem_of_In. eapply chain_key_in_history; [exact Hlookup|].
    rewrite Hc. apply elem_of_app. right. apply elem_of_cons. left. reflexivity.
Qed.

(** The chain of one bucket is replaced and the history is updated. *)
Lemma chains_newest_first_update (t' : HashTable) (h' : list ptr) (b : Z) (c' : chain) :
  numOfBuckets t' = numOfBuckets t -> hashFunction t' = hashFunction t ->
  0 <= b ->
  bucketArray t' = bucket_set (bucketArray t) b c' ->
  map key c' = filter (fun k => hashValue_of t k = b) h' ->
  (forall i : nat, Z.of_nat i <> b ->
     filter (fun k => hashValue_of t k = Z.of_nat i) h'
     = filter (fun k => hashValue_of t k = Z.of_nat i) h) ->
  chains_newest_first t' h'.
Proof.
  intros Hnb Hh Hb Harr Hc' Hother i c Hi.
  assert (Hhv : forall k, hashValue_of t' k = hashValue_of t k).
  { intros k. unfold hashValue_of. rewrite Hnb, Hh. reflexivity. }
  rewrite (filter_iff (fun k => hashValue_of t' k = Z.of_nat i)
                      (fun k => hashValue_of t k = Z.of_nat i))
    by (intros k; rewrite Hhv; reflexivity).
  rewrite Harr in Hi. unfold bucket_set in Hi.
  apply list_lookup_insert_Some in Hi as [(<- & <- & _)|[Hne Hi]].
  - rewrite Z2Nat.id by assumption. exact Hc'.
  - rewrite Hother by lia. apply Hcnf. assumption.
Qed.

End History.

Lemma put_history (entry_ok array_ok : bool) (t t' : HashTable) (h : list ptr)
    (k v r : Z) (ev : list Event) :
  Inv t -> Strategies_ok t -> chains_newest_first t h ->
  HashTablePut entry_ok array_ok t k v = Some (r, t', ev) ->
  numOfBuckets t' = numOfBuckets t ->
  chains_newest_first t' (history_put (keycmp t) entry_ok k h).
Proof.
  intros Hinv Hok Hcnf Hput Hnb.
  destruct (Z.eq_dec k NULL) as [Hk|Hk];
    [rewrite HashTablePut_null in Hput by auto; discriminate|].
  destruct (Z.eq_dec v NULL) as [Hv|Hv];
    [rewrite HashTablePut_null in Hput by auto; discriminate|].
  destruct (hashValue_range t k Hinv) as [Hrange Hlt].
  pose proof (lookup_bucket_at _ _ Hlt) as Hlookup.
  pose proof (Hcnf _ _ Hlookup) as Hchain. rewrite Z2Nat.id in Hchain by lia.
  set (b := hashValue_of t k) in *. set (c := bucket_at (bucketArray t) b) in *.
  destruct (scan (keycmp t) k c) as [before found] eqn:Hscan.
  pose proof (history_has_key t h Hinv Hok Hcnf k before found Hscan) as Hex.
  assert (Hbucket : forall k0, keycmp t k k0 = 0 -> hashValue_of t k0 = b).
  { intros k0 Heq. unfold b, hashValue_of.
    rewrite (hash_respects t Hok k k0 Heq). reflexivity. }
  unfold history_put. rewrite Hex. destruct found as [|p next].
  - (* a new key *)
    destruct entry_ok.
    + destruct (HashTablePut_new array_ok t k v before Hk Hv Hscan) as (t1 & Hput1 & Ht1).
      rewrite Hput in Hput1. injection Hput1 as _ <- _.
      fold b c in Ht1.
      assert (Ht' : t' = set_numOfElements
                           (store_bucket t b ({| key := k; value := v |} :: c))
                           (numOfElements t + 1)).
      { destruct Ht1 as [Ht1|Ht1]; [assumption|].
        eapply HashTableRehash_same_count; [exact Ht1|]. simpl. assumption. }
      apply (chains_newest_first_update t h Hcnf t' (k :: h) b
               ({| key := k; value := v |} :: c));
        try (rewrite Ht'; reflexivity); [lia| |].
      * simpl. rewrite filter_cons_True by reflexivity. f_equal. assumption.
      * intros i Hi. apply filter_cons_False. fold b. lia.
    + rewrite (HashTablePut_no_memory array_ok t k v before Hk Hv Hscan) in Hput.
      injection Hput as _ <- _. assumption.
  - (* the key of an entry is overwritten *)
    rewrite (HashTablePut_found entry_ok array_ok t k v before next p Hk Hv Hscan) in Hput.
    injection Hput as _ <- _. fold b.
    apply scan_spec in Hscan as (Hc & Hbefore & Heq).
    rewrite Hc in Hlookup.
    pose proof (chain_match_unique t _ k before next p Hinv Hok Hlookup Heq) as Huniq.
    set (f := fun k' : Z => if keycmp t k k' =? 0 then k else k').
    assert (Hf0 : forall k0, keycmp t k k0 = 0 -> f k0 = k).
    { intros k0 H0. unfold f. rewrite H0. reflexivity. }
    assert (Hf1 : forall k0, keycmp t k k0 <> 0 -> f k0 = k0).
    { intros k0 H0. unfold f. destruct (Z.eqb_spec (keycmp t k k0) 0); tauto. }
    assert (Hfb : forall i k0, hashValue_of t (f k0) = i <-> hashValue_of t k0 = i).
    { intros i k0. destruct (Z.eq_dec (keycmp t k k0) 0) as [H0|H0].
      - rewrite (Hf0 _ H0), (Hbucket _ H0). reflexivity.
      - rewrite (Hf1 _ H0). reflexivity. }
    apply (chains_newest_first_update t h Hcnf _ (map f h) b
             (before ++ {| key := k; value := v |} :: next));
      try reflexivity; [lia| |].
    + rewrite (filter_map_commute (fun k0 => hashValue_of t k0 = b) f)
        by (intros; apply Hfb).
      rewrite <- Hchain, Hc, !map_app. simpl.
      rewrite (Hf0 _ Heq). f_equal; [|f_equal].
      * symmetry. apply map_id_on. intros k0 Hk0.
        apply elem_of_map_key in Hk0 as (q & Hq & <-). apply Hf1.
        apply Huniq, elem_of_app. left. assumption.
      * symmetry. apply map_id_on. intros k0 Hk0.
        apply elem_of_map_key in Hk0 as (q & Hq & <-). apply Hf1.
        apply Huniq, elem_of_app. right. assumption.
    + intros i Hi.
      rewrite (filter_map_commute (fun k0 => hashValue_of t k0 = Z.of_nat i) f)
        by (intros; apply Hfb).
      apply map_id_on. intros k0 Hk0. apply list_elem_of_filter in Hk0 as [Hk0 _].
      apply Hf1. intros H0. apply Hbucket in H0. lia.
Qed.

Lemma remove_history (array_ok : bool) (t t' : HashTable) (h : list ptr)
    (k : ptr) (ev : list Event) :
  Inv t -> Strategies_ok t -> chains_newest_first t h ->
  HashTableRemove array_ok t k = Some (t', ev) ->
  numOfBuckets t' = numOfBuckets t ->
  chains_newest_first t' (history_remove (keycmp t) k h).
Proof.
  intros Hinv Hok Hcnf Hrm Hnb.
  destruct (hashValue_range t k Hinv) as [Hrange Hlt].
  pose proof (lookup_bucket_at _ _ Hlt) as Hlookup.
  pose proof (Hcnf _ _ Hlookup) as Hchain. rewrite Z2Nat.id in Hchain by lia.
  set (b := hashValue_of t k) in *. set (c := bucket_at (bucketArray t) b) in *.
  destruct (scan (keycmp t) k c) as [before found] eqn:Hscan.
  pose proof (history_has_key t h Hinv Hok Hcnf k before found Hscan) as Hex.
  assert (Hbucket : forall k0, keycmp t k k0 = 0 -> hashValue_of t k0 = b).
  { intros k0 Heq. unfold b, hashValue_of.
    rewrite (hash_respects t Hok k k0 Heq). reflexivity. }
  unfold history_remove. destruct found as [|p next].
  - rewrite (HashTableRemove_absent array_ok t k before Hscan) in Hrm.
    injection Hrm as <- _.
    rewrite filter_all; [assumption|]. intros k0 Hk0 H0.
    assert (Htrue : existsb (fun k' => keycmp t k k' =? 0) h = true).
    { apply existsb_exists. exists k0. split; [apply list_elem_of_In; assumption|].
      apply Z.eqb_eq. assumption. }
    congruence.
  - destruct (HashTableRemove_found array_ok t k before next p Hscan) as (t1 & Hrm1 & Ht1).
    rewrite Hrm in Hrm1. injection Hrm1 as <- _. fold b in Ht1.
    assert (Ht' : t' = set_numOfElements (store_bucket t b (before ++ next))
                                         (numOfElements t - 1)).
    { destruct Ht1 as [Ht1|Ht1]; [assumption|].
      eapply HashTableRehash_same_count; [exact Ht1|]. simpl. assumption. }
    apply scan_spec in Hscan as (Hc & Hbefore & Heq).
    rewrite Hc in Hlookup.
    pose proof (chain_match_unique t _ k before next p Hinv Hok Hlookup Heq) as Huniq.
    apply (chains_newest_first_update t h Hcnf t' _ b (before ++ next));
      try (rewrite Ht'; reflexivity); [lia| |].
    + rewrite filter_filter_comm, <- Hchain, Hc, !map_app. simpl.
      rewrite filter_app, filter_cons_False by tauto.
      rewrite !filter_all; [reflexivity| |].
      * intros k0 Hk0. apply elem_of_map_key in Hk0 as (q & Hq & <-).
        apply Huniq, elem_of_app. right. assumption.
      * intros k0 Hk0. apply elem_of_map_key in Hk0 as (q & Hq & <-).
        apply Huniq, elem_of_app. left. assumption.
    + intros i Hi. rewrite filter_filter_comm. apply filter_all.
      intros k0 Hk0 H0. apply list_elem_of_filter in Hk0 as [Hk0 _].
      apply Hbucket in H0. lia.
Qed.

Lemma chains_newest_first_empty (t : HashTable) :
  entries t = [] -> chains_newest_first t [].
Proof.
  intros Hnil i c Hi. rewrite filter_nil.
  destruct c as [|p c]; [reflexivity|]. exfalso.
  assert (Hp : p ∈ entries t).
  { apply elem_of_entries. exists i, (p :: c). split; [assumption|].
    apply elem_of_cons. left. reflexivity. }
  rewrite Hnil in Hp. inversion Hp.
Qed.

Lemma history_empty (t : HashTable) (h : list ptr) :
  Inv t -> chains_newest_first t h -> entries t = [] -> h = [].
Proof.
  intros Hinv Hcnf Hnil. destruct h as [|k0 h]; [reflexivity|]. exfalso.
  destruct (history_key_in_chain t (k0 :: h) Hinv Hcnf k0) as (p & Hp & _).
  - apply elem_of_cons. left. reflexivity.
  - apply bucket_subset_entries in Hp. rewrite Hnil in Hp. inversion Hp.
Qed.

Lemma step_history (t t' : HashTable) (op : Op) (h : list ptr) :
  Inv t -> Strategies_ok t -> disciplined t op -> chains_newest_first t h ->
  step t op = Some t' -> numOfBuckets t' = numOfBuckets t ->
  chains_newest_first t' (history_step t op h).
Proof.
  intros Hinv Hok Hdisc Hcnf Hstep Hnb. destruct op; simpl in *.
  - destruct (HashTablePut entry_ok array_ok t k v) as [[[r t1] ev]|] eqn:Hput;
      simpl in Hstep; [|discriminate].
    injection Hstep as <-. eapply put_history; eassumption.
  - injection Hstep as <-. assumption.
  - destruct (HashTableRemove array_ok t k) as [[t1 ev]|] eqn:Hrm;
      simpl in Hstep; [|discriminate].
    injection Hstep as <-. eapply remove_history; eassumption.
  - destruct (HashTableRemoveAll_spec array_ok t (inv_buckets t Hinv) (inv_array t Hinv))
      as (t1 & Hrm & _ & _ & Hnil & _).
    rewrite Hrm in Hstep. simpl in Hstep. injection Hstep as <-.
    apply chains_newest_first_empty. assumption.
  - apply HashTableRehash_same_count in Hstep; [|assumption]. subst t'. assumption.
  - injection Hstep as <-.
    pose proof (Inv_no_entries t Hinv Hdisc) as Hnil.
    rewrite (history_empty t h Hinv Hcnf Hnil).
    apply chains_newest_first_empty. assumption.
  - injection Hstep as <-. exact Hcnf.
  - injection Hstep as <-.
    pose proof (Inv_no_entries t Hinv Hdisc) as Hnil.
    rewrite (history_empty t h Hinv Hcnf Hnil).
    apply chains_newest_first_empty. assumption.
  - injection Hstep as <-. exact Hcnf.
Qed.

Lemma run_history_run (t0 t : HashTable) (h0 h : list ptr) (ops : list Op) :
  run_history t0 h0 ops = Some (t, h) -> run t0 ops = Some t.
Proof.
  revert t0 h0. induction ops as [|op ops IH]; intros t0 h0; simpl.
  - intros [= <- _]. reflexivity.
  - destruct (step t0 op) as [t1|]; simpl; [|discriminate]. apply IH.
Qed.

Lemma run_history_spec (t0 t : HashTable) (h0 h : list ptr) (ops : list Op) :
  Inv t0 -> chains_newest_first t0 h0 ->
  disciplined_run t0 ops -> steady t0 ops ->
  run_history t0 h0 ops = Some (t, h) ->
  chains_newest_first t h.
Proof.
  revert t0 h0. induction ops as [|op ops IH]; intros t0 h0 Hinv Hcnf Hdisc Hsteady; simpl.
  - intros [= <- <-]. assumption.
  - simpl in Hdisc, Hsteady. destruct Hdisc as [Hop Hdisc]. destruct Hsteady as [Hok Hsteady].
    destruct (step t0 op) as [t1|] eqn:Hstep; simpl; [|discriminate].
    destruct Hsteady as [Hnb Hsteady].
    apply IH; try assumption.
    + eapply step_Inv; eassumption.
    + eapply step_history; eassumption.
Qed.

(** The visits of a table whose chains are most recent first. *)
Lemma chains_newest_first_visits (t : HashTable) (h : list ptr) :
  Inv t -> chains_newest_first t h -> newest_first t h (visits t).
Proof.
  intros Hinv Hcnf b. unfold visits. rewrite visits_from_bucket, Z.sub_0_r.
  assert (Hrange : forall k, 0 <= hashValue_of t k < numOfBuckets t)
    by (intros k; apply hashValue_range; assumption).
  destruct (decide (0 <= b)) as [Hb|Hb].
  - destruct (bucketArray t !! Z.to_nat b) as [c|] eqn:Hc.
    + rewrite map_map.
      rewrite (map_ext (fun p => visit_key (b, key p, value p)) key)
        by reflexivity.
      rewrite (Hcnf _ _ Hc), Z2Nat.id by assumption. reflexivity.
    + apply lookup_ge_None in Hc. rewrite (inv_array t Hinv) in Hc.
      symmetry. apply filter_none. intros k _ Hk. specialize (Hrange k). lia.
  - assert (Hnone : filter (fun k => hashValue_of t k = b) h = []).
    { apply filter_none. intros k _ Hk. specialize (Hrange k). lia. }
    rewrite Hnone. destruct (bucketArray t !! Z.to_nat b); reflexivity.
Qed.

(** The chains of a table agree with the order in which an iteration
    visits its keys. *)
Lemma chains_newest_first_entries (t : HashTable) :
  Inv t -> chains_newest_first t (map key (entries t)).
Proof.
  intros Hinv i c Hi. unfold entries.
  rewrite <- (take_drop_middle (bucketArray t) i c Hi) at 1.
  rewrite concat_app. simpl. rewrite !map_app, !filter_app.
  rewrite (filter_none _ (map key (concat (take i (bucketArray t))))).
  - rewrite (filter_none _ (map key (concat (drop (S i) (bucketArray t))))).
    + rewrite app_nil_r. simpl. symmetry. apply filter_all.
      intros k Hk. apply elem_of_map_key in Hk as (p & Hp & <-).
      apply (inv_place t Hinv i c p Hi Hp).
    + intros k Hk Hb. apply elem_of_map_key in Hk as (p & Hp & <-).
      apply elem_of_concat_lookup in Hp as (j & c' & Hj & Hp).
      rewrite lookup_drop in Hj.
      pose proof (inv_place t Hinv _ c' p Hj Hp) as Hplace. lia.
  - intros k Hk Hb. apply elem_of_map_key in Hk as (p & Hp & <-).
    apply elem_of_concat_lookup in Hp as (j & c' & Hj & Hp).
    apply lookup_take_Some in Hj as [Hj Hlt].
    pose proof (inv_place t Hinv _ c' p Hj Hp) as Hplace. lia.
Qed.

(** ** The sample run *)

Lemma sample_run : run (fresh_table 5) sample_ops = Some sample_table.
Proof. vm_compute. reflexivity. Qed.

Lemma sample_disciplined : disciplined_run (fresh_table 5) sample_ops.
Proof.
  unfold sample_ops. vm_compute.
  repeat split; apply Strategies_ok_pointer; reflexivity.
Qed.

Lemma sample_steady : steady (fresh_table 5) sample_ops.
Proof.
  unfold sample_ops. vm_compute.
  repeat split; apply Strategies_ok_pointer; reflexivity.
Qed.

Lemma Inv_sample : Inv sample_table.
Proof.
  apply (run_Inv (fresh_table 5) sample_table sample_ops).
  - apply Inv_fresh. lia.
  - exact sample_disciplined.
  - exact sample_run.
Qed.

Lemma Strategies_ok_sample : Strategies_ok sample_table.
Proof. apply Strategies_ok_pointer; reflexivity. Qed.

Lemma sample_entries :
  entries sample_table
  = [{| key := 96; value := 4 |}; {| key := 16; value := 3 |};
     {| key := 32; value := 2 |}].
Proof. vm_compute. reflexivity. Qed.

(** The three puts of the first scenario: two entries, and the second
    value put for the key 16 is the one retrieved. *)
Example scenario_put_get :
  exists t,
    run (fresh_table 7) [OpPut true true 16 1; OpPut true true 32 2; OpPut true true 16 3]
    = Some t /\
    HashTableSize t = 2 /\ HashTableGet t 16 = 3 /\ HashTableGet t 32 = 2 /\
    HashTableGet t 48 = NULL.
Proof. eexists. split; [vm_compute; reflexivity|]. repeat split. Qed.

(** With the default thresholds a single bucket is rehashed when it
    receives its 16th entry: the ratio 16 exceeds 15, the ideal count is
    16 / 3.0 = 5, and every key is still retrieved. *)
Example scenario_auto_rehash :
  let puts := map (fun i => OpPut true true (16 * Z.of_nat i) (Z.of_nat i)) (seq 1 16) in
  exists t15 t16,
    run (fresh_table 1) (take 15 puts) = Some t15 /\
    run (fresh_table 1) puts = Some t16 /\
    HashTableGetNumBuckets t15 = 1 /\ HashTableGetNumBuckets t16 = 5 /\
    HashTableSize t16 = 16 /\
    forallb (fun i => HashTableGet t16 (16 * Z.of_nat i) =? Z.of_nat i) (seq 1 16) = true.
Proof.
  eexists _, _. split; [vm_compute; reflexivity|].
  split; [vm_compute; reflexivity|]. repeat split.
Qed.

(** RemoveAll on the sample table. *)
Example scenario_removeAll :
  exists t ev,
    HashTableRemoveAll true sample_table = Some (t, ev) /\
    HashTableSize t = 0 /\ full_iteration true 0 t = Some [] /\
    HashTableGetNumBuckets t = 5 /\
    ev = [EvFree {| key := 96; value := 4 |}; EvFree {| key := 16; value := 3 |};
          EvFree {| key := 32; value := 2 |}].
Proof. eexists _, _. split; [vm_compute; reflexivity|]. repeat split. Qed.

(** * Results *)

(** ** The sizing policy *)

(** C10: the search of [calculateIdealNumOfBuckets] terminates for every
    table, whatever its element count and ideal ratio: after fewer than
    1155 steps of 2 from the starting value the candidate is accepted by
    [isProbablePrime], no candidate before it is, every run with more
    fuel than steps returns it, and so does the function. *)
Theorem calculateIdealNumOfBuckets_terminates (t : HashTable) :
  exists steps : nat,
    (steps < search_bound)%nat /\
    isProbablePrime (ideal_start t + 2 * Z.of_nat steps) = true /\
    (forall i, (i < steps)%nat ->
               isProbablePrime (ideal_start t + 2 * Z.of_nat i) = false) /\
    (forall fuel, (steps < fuel)%nat ->
       calculateIdealNumOfBuckets_fuel fuel t
       = Some (ideal_start t + 2 * Z.of_nat steps)) /\
    calculateIdealNumOfBuckets t = ideal_start t + 2 * Z.of_nat steps.
Proof. exact (ideal_search_steps t). Qed.

(** C6, as the code has it: for every table the ideal bucket count is
    odd, at least 5, and divisible by no odd integer of [3, 49] other
    than itself; it is reached from the single-precision quotient
    [(float) numOfElements / idealRatio] truncated to a [long], set to 5
    when below 5 and otherwise made odd, by steps of 2 up to the first
    candidate that the trial division by 3, 5, ..., 49 accepts.  With
    the ratio 3.0 that [HashTableCreate] installs and fewer than 2^24
    elements that quotient is the floor of [numOfElements / 3], and the
    result is the count the specification describes. *)
Theorem calculateIdealNumOfBuckets_result (t : HashTable) :
  let q := long_of_float (float_div (float_of_long (numOfElements t)) (idealRatio t)) in
  let start := if q <? 5 then 5 else if Z.odd q then q else q + 1 in
  let r := calculateIdealNumOfBuckets t in
  Z.odd r = true /\ 5 <= r /\
  (forall i, 3 <= i <= 49 -> Z.odd i = true -> (i | r) -> r = i) /\
  (exists j, 0 <= j /\ r = start + 2 * j /\ isProbablePrime r = true /\
             forall i, 0 <= i < j -> isProbablePrime (start + 2 * i) = false) /\
  (idealRatio t = float_3_0 -> 0 <= numOfElements t < 2 ^ 24 ->
   q = numOfElements t / 3 /\
   spec_idealBucketCount search_bound (numOfElements t) (3 # 1) = Some r).
Proof.
  intros q start r.
  destruct (ideal_search_steps t)
    as (steps & _ & Hpp & Hbefore & _ & Hr).
  fold r in Hr. pose proof (ideal_start_cases t) as Hstart.
  cbv zeta in Hstart. fold q in Hstart. fold start in Hstart.
  rewrite Hstart in Hr, Hpp, Hbefore. rewrite <- Hr in Hpp.
  destruct (ideal_start_odd t) as [k Hk]. rewrite Hstart in Hk.
  split; [|split; [|split; [|split]]].
  - rewrite Hr, Hk.
    replace (5 + 2 * Z.of_nat k + 2 * Z.of_nat steps)
      with (2 * (Z.of_nat k + Z.of_nat steps + 2) + 1) by lia.
    apply Z.odd_odd.
  - lia.
  - intros i. apply isProbablePrime_no_trial_divisor. assumption.
  - exists (Z.of_nat steps). split; [lia|]. split; [assumption|].
    split; [assumption|]. intros i Hi.
    replace i with (Z.of_nat (Z.to_nat i)) by lia. apply Hbefore. lia.
  - intros Hratio Hn. exact (ideal_count_from_floor t Hratio Hn).
Qed.

Lemma calculateIdealNumOfBuckets_result_witness :
  let t := sizing_table 100 float_3_0 in
  idealRatio t = float_3_0 /\ 0 <= numOfElements t < 2 ^ 24 /\
  long_of_float (float_div (float_of_long (numOfElements t)) (idealRatio t))
  = numOfElements t / 3 /\
  spec_idealBucketCount search_bound (numOfElements t) (3 # 1)
  = Some (calculateIdealNumOfBuckets t).
Proof.
  intros t.
  assert (Hratio : idealRatio t = float_3_0) by reflexivity.
  assert (Hn : 0 <= numOfElements t < 2 ^ 24) by (simpl; lia).
  split; [exact Hratio|]. split; [exact Hn|].
  destruct (calculateIdealNumOfBuckets_result t) as (_ & _ & _ & _ & Hfloor).
  exact (Hfloor Hratio Hn).
Defined.

(** C6 as stated fails from 2^24 elements on: with 16777223 elements
    and the ratio 3.0 the single-precision quotient is 5592408, above
    the floor 5592407 of the exact quotient, and the code returns
    5592409 where the search from the floor returns 5592407. *)
Lemma calculateIdealNumOfBuckets_not_from_floor :
  let t := sizing_table 16777223 float_3_0 in
  long_of_float (float_div (float_of_long (numOfElements t)) (idealRatio t)) = 5592408 /\
  Qfloor (Qdiv (inject_Z 16777223) (3 # 1)) = 5592407 /\
  calculateIdealNumOfBuckets t = 5592409 /\
  spec_idealBucketCount 1 16777223 (3 # 1) = Some 5592407 /\
  spec_idealBucketCount 1 16777223 (3 # 1) <> Some (calculateIdealNumOfBuckets t).
Proof.
  cbv zeta. repeat split; try (vm_compute; reflexivity).
  vm_compute. discriminate.
Qed.

(** ** Put and get *)



(** ** Size *)

(** C2 as stated fails on a table whose hash function was replaced
    while it held an entry.  After [create 5] and a put of the key 16,
    which lies in bucket 1, the hash function is replaced by a constant
    one: the key 16 is looked for in bucket 0 from then on.  A put of
    the key 16 adds a second entry and the size grows from 1 to 2; a
    remove of the key 16 finds nothing and the size stays 1. *)
Lemma size_after_setter :
  exists t0 t t1 t2 ev1 ev2,
    HashTableCreate true true 5 = Some (Some t0) /\
    run t0 [OpPut true true 16 1; OpSetHashFunction (fun _ => 0)] = Some t /\
    {| key := 16; value := 1 |} ∈ entries t /\ keycmp t 16 16 = 0 /\
    HashTableSize t = 1 /\
    HashTablePut true true t 16 7 = Some (0, t1, ev1) /\ HashTableSize t1 = 2 /\
    HashTableRemove true t 16 = Some (t2, ev2) /\ HashTableSize t2 = 1 /\
    HashTableGet t2 16 = NULL /\ {| key := 16; value := 1 |} ∈ entries t2.
Proof.
  eexists (fresh_table 5), _, _, _, _, _.
  split; [apply HashTableCreate_fresh; lia|].
  split; [vm_compute; reflexivity|].
  split; [apply elem_of_cons; left; reflexivity|].
  split; [reflexivity|]. split; [reflexivity|].
  split; [vm_compute; reflexivity|]. split; [reflexivity|].
  split; [vm_compute; reflexivity|]. split; [reflexivity|].
  split; [reflexivity|]. apply elem_of_cons. left. reflexivity.
Qed.

(** C2, as the code has it: on a table that satisfies the invariant and
    whose key comparison is an equivalence respected by the hash function:
    a put of a key that compares equal to the key of an entry leaves the
    size unchanged and stores the value; a put of a key that compares
    equal to none, when the node can be allocated, increases the size by
    exactly 1; a remove of a key that compares equal to the key of an
    entry decreases the size by exactly 1, after which [get] is absent;
    a remove of a key that compares equal to none leaves the size. *)
Theorem put_remove_size (entry_ok array_ok : bool) (t : HashTable) (k v : ptr) :
  Inv t -> Strategies_ok t ->
  (k <> NULL -> v <> NULL ->
   (exists p, p ∈ entries t /\ keycmp t k (key p) = 0) ->
   exists t' ev,
     HashTablePut entry_ok array_ok t k v = Some (0, t', ev) /\
     HashTableSize t' = HashTableSize t /\ HashTableGet t' k = v) /\
  (k <> NULL -> v <> NULL ->
   (forall p, p ∈ entries t -> keycmp t k (key p) <> 0) ->
   exists t' ev,
     HashTablePut true array_ok t k v = Some (0, t', ev) /\
     HashTableSize t' = HashTableSize t + 1) /\
  ((exists p, p ∈ entries t /\ keycmp t k (key p) = 0) ->
   exists t' ev,
     HashTableRemove array_ok t k = Some (t', ev) /\
     HashTableSize t' = HashTableSize t - 1 /\ HashTableGet t' k = NULL) /\
  ((forall p, p ∈ entries t -> keycmp t k (key p) <> 0) ->
   exists t' ev,
     HashTableRemove array_ok t k = Some (t', ev) /\
     HashTableSize t' = HashTableSize t).
Proof.
  intros Hinv Hok. unfold HashTableSize. split; [|split; [|split]].
  - intros Hk Hv (p0 & Hp0 & Heq0).
    destruct (HashTablePut_spec entry_ok array_ok t k v Hinv Hok Hk Hv)
      as (r & t' & ev & Hput & _ & _ & Hcases).
    pose proof (HashTableGet_put entry_ok array_ok t t' k v r ev k Hinv Hok Hput) as Hget.
    rewrite (cmp_refl t Hok k) in Hget.
    destruct Hcases as [(p & others & _ & _ & _ & -> & Hn & _)
                       |[(Hno & _)|(Hno & _)]].
    + exists t', ev. auto.
    + exfalso. apply (Hno p0); assumption.
    + exfalso. apply (Hno p0); assumption.
  - intros Hk Hv Hno.
    destruct (HashTablePut_spec true array_ok t k v Hinv Hok Hk Hv)
      as (r & t' & ev & Hput & _ & _ & Hcases).
    destruct Hcases as [(p & others & Heq & Hold & _)
                       |[(_ & _ & -> & _ & Hn)|(_ & Hfalse & _)]].
    + exfalso. apply (Hno p); [|assumption]. rewrite Hold.
      apply elem_of_cons. left. reflexivity.
    + exists t', ev. auto.
    + discriminate.
  - intros (p0 & Hp0 & Heq0).
    destruct (HashTableRemove_spec array_ok t k Hinv)
      as (t' & ev & Hrm & _ & _ & Hcases).
    exists t', ev. split; [assumption|].
    split; [|eapply HashTableGet_remove; eassumption].
    destruct Hcases as [(p & _ & _ & _ & Hn & _)|(Hno & _)]; [assumption|].
    exfalso. apply (Hno p0); [|assumption].
    apply equal_key_in_bucket; assumption.
  - intros Hno.
    destruct (HashTableRemove_spec array_ok t k Hinv)
      as (t' & ev & Hrm & _ & _ & Hcases).
    exists t', ev. split; [assumption|].
    destruct Hcases as [(p & Hp & Heq & _)|(_ & -> & _)]; [|reflexivity].
    exfalso. apply (Hno p); [|assumption].
    eapply bucket_subset_entries. eassumption.
Qed.

Lemma put_remove_size_witness :
  Inv sample_table /\ Strategies_ok sample_table /\
  (exists t' ev,
      HashTablePut true true sample_table 16 9 = Some (0, t', ev) /\
      HashTableSize t' = HashTableSize sample_table /\ HashTableGet t' 16 = 9) /\
  (exists t' ev,
      HashTablePut true true sample_table 48 9 = Some (0, t', ev) /\
      HashTableSize t' = HashTableSize sample_table + 1) /\
  (exists t' ev,
      HashTableRemove true sample_table 16 = Some (t', ev) /\
      HashTableSize t' = HashTableSize sample_table - 1 /\
      HashTableGet t' 16 = NULL) /\
  (exists t' ev,
      HashTableRemove true sample_table 48 = Some (t', ev) /\
      HashTableSize t' = HashTableSize sample_table).
Proof.
  assert (Hpresent : exists p, p ∈ entries sample_table
                               /\ keycmp sample_table 16 (key p) = 0).
  { exists {| key := 16; value := 3 |}. split; [|reflexivity].
    rewrite sample_entries. apply elem_of_cons. right.
    apply elem_of_cons. left. reflexivity. }
  assert (Habsent : forall p, p ∈ entries sample_table
                              -> keycmp sample_table 48 (key p) <> 0).
  { intros p Hp. rewrite sample_entries in Hp.
    repeat (apply elem_of_cons in Hp as [->|Hp]; [discriminate|]).
    inversion Hp. }
  destruct (put_remove_size true true sample_table 16 9
              Inv_sample Strategies_ok_sample) as (Hput & _ & Hremove & _).
  destruct (put_remove_size true true sample_table 48 9
              Inv_sample Strategies_ok_sample) as (_ & Hnew & _ & Hmissing).
  split; [exact Inv_sample|]. split; [exact Strategies_ok_sample|].
  split; [apply Hput; [discriminate|discriminate|exact Hpresent]|].
  split; [apply Hnew; [discriminate|discriminate|exact Habsent]|].
  split; [apply Hremove; exact Hpresent|apply Hmissing; exact Habsent].
Defined.

(** ** The invariant *)

(** C3 as stated fails: a setter applied to a populated table breaks the
    invariant.  After [create 5] and a put of the key 16, which lies in
    bucket 1, replacing the hash function by a constant one leaves the
    entry in a bucket that is not that of its hash. *)
Lemma invariant_broken_by_setter :
  exists t0 t,
    HashTableCreate true true 5 = Some (Some t0) /\
    run t0 [OpPut true true 16 1; OpSetHashFunction (fun _ => 0)] = Some t /\
    bucketArray t !! 1%nat = Some [{| key := 16; value := 1 |}] /\
    hashValue_of t 16 = 0 /\
    ~ Inv t.
Proof.
  eexists (fresh_table 5), _.
  split; [apply HashTableCreate_fresh; lia|].
  split; [vm_compute; reflexivity|].
  split; [reflexivity|]. split; [reflexivity|].
  intros Hinv.
  pose proof (inv_place _ Hinv 1%nat [{| key := 16; value := 1 |}]
                {| key := 16; value := 1 |} eq_refl) as Hplace.
  specialize (Hplace ltac:(apply elem_of_cons; left; reflexivity)).
  discriminate.
Qed.

(** C3, as the code has it: the representation invariant (a positive
    bucket count, an element count equal to the total length of the
    chains, every entry in the bucket of its hash, no two entries with
    keys that compare equal) holds in every state reached from [create]
    by put, get, remove, removeAll, rehash and the setters, provided
    that every put is made while the key comparison is an equivalence
    respected by the hash function, and that the key comparison and the
    hash function are replaced only while the table is empty. *)
Theorem invariant_of_disciplined_runs (table_ok array_ok : bool) (n : Z)
    (t0 t : HashTable) (ops : list Op) :
  HashTableCreate table_ok array_ok n = Some (Some t0) ->
  disciplined_run t0 ops -> run t0 ops = Some t -> Inv t.
Proof.
  intros Hcreate Hdisc Hrun.
  apply HashTableCreate_inv in Hcreate as [Hn ->].
  apply (run_Inv (fresh_table n) t ops); [apply Inv_fresh|..]; assumption.
Qed.

Lemma invariant_of_disciplined_runs_witness :
  HashTableCreate true true 5 = Some (Some (fresh_table 5)) /\
  disciplined_run (fresh_table 5) sample_ops /\
  run (fresh_table 5) sample_ops = Some sample_table /\
  Inv sample_table.
Proof.
  assert (Hcreate : HashTableCreate true true 5 = Some (Some (fresh_table 5)))
    by (apply HashTableCreate_fresh; lia).
  split; [exact Hcreate|]. split; [exact sample_disciplined|].
  split; [exact sample_run|].
  exact (invariant_of_disciplined_runs true true 5 (fresh_table 5) sample_table
           sample_ops Hcreate sample_disciplined sample_run).
Defined.

(** ** Rehash *)

Lemma HashTableRehash_noop (array_ok : bool) (t : HashTable) :
  0 < numOfBuckets t -> HashTableRehash array_ok t (numOfBuckets t) = Some t.
Proof.
  intros Hpos. unfold HashTableRehash.
  destruct (Z.leb_spec 0 (numOfBuckets t)); [simpl|lia].
  destruct (Z.eqb_spec (numOfBuckets t) 0); [lia|].
  rewrite Z.eqb_refl. reflexivity.
Qed.

(** C4 as stated fails on a table whose hash function was replaced
    while it held an entry.  After [create 5], a put of the key 16 with
    the value 1, the replacement of the hash function by a constant one
    and a second put of the key 16, with the value 7, the table holds
    the key twice, in bucket 1 and in bucket 0, and [get 16] is 7.  A
    rehash to 3 buckets moves both entries to bucket 0, the older one
    in front: [get 16] is 1 afterwards. *)
Lemma rehash_after_setter :
  exists t0 t t',
    HashTableCreate true true 5 = Some (Some t0) /\
    run t0 [OpPut true true 16 1; OpSetHashFunction (fun _ => 0);
            OpPut true true 16 7] = Some t /\
    HashTableGet t 16 = 7 /\
    HashTableRehash true t 3 = Some t' /\
    HashTableGet t' 16 = 1.
Proof.
  eexists (fresh_table 5), _, _.
  split; [apply HashTableCreate_fresh; lia|].
  split; [vm_compute; reflexivity|].
  split; [reflexivity|].
  split; [vm_compute; reflexivity|]. reflexivity.
Qed.

(** C4, as the code has it: on a table that satisfies the invariant and
    whose key comparison is an equivalence respected by the hash
    function, a rehash to [n >= 1] buckets, whether or not the new
    bucket array can be allocated, keeps the size and the result of
    every [get]; when [n] is the current bucket count it returns the
    table as it is. *)
Theorem rehash_preserves (array_ok : bool) (t : HashTable) (n : Z) :
  Inv t -> Strategies_ok t -> 1 <= n ->
  exists t',
    HashTableRehash array_ok t n = Some t' /\
    HashTableSize t' = HashTableSize t /\
    (forall k, HashTableGet t' k = HashTableGet t k) /\
    (n = numOfBuckets t -> t' = t).
Proof.
  intros Hinv Hok Hn.
  destruct (HashTableRehash_spec array_ok t n Hinv)
    as (t' & Hr & Hinv' & Hcfg & Hperm & Hsize & _); [lia|].
  exists t'. split; [assumption|]. split; [assumption|]. split.
  - intros k. apply HashTableGet_config; assumption.
  - intros ->. rewrite HashTableRehash_noop in Hr by lia. congruence.
Qed.

Lemma rehash_preserves_witness :
  Inv sample_table /\ Strategies_ok sample_table /\ 1 <= 3 /\
  exists t',
    HashTableRehash true sample_table 3 = Some t' /\
    HashTableSize t' = HashTableSize sample_table /\
    (forall k, HashTableGet t' k = HashTableGet sample_table k) /\
    (3 = numOfBuckets sample_table -> t' = sample_table).
Proof.
  assert (Hn : 1 <= 3) by lia.
  split; [exact Inv_sample|]. split; [exact Strategies_ok_sample|].
  split; [exact Hn|].
  exact (rehash_preserves true sample_table 3 Inv_sample Strategies_ok_sample Hn).
Defined.

(** ** Allocation failure *)



(** ** RemoveAll *)


Lemma release_chain_concat (t : HashTable) (a : list chain) :
  flat_map (release_chain t) a = release_chain t (concat a).
Proof.
  induction a as [|c a IH]; simpl; [reflexivity|].
  rewrite IH. unfold release_chain. rewrite flat_map_app. reflexivity.
Qed.




(** ** ContainsKey *)

(** C9 as stated fails on a table whose hash function was replaced
    while it held an entry.  After [create 5] and a put of the key 16
    with the value 1, the hash function is replaced by a constant one:
    the entry is still there, its value is not null, and [containsKey]
    reports false for its key. *)
Lemma containsKey_after_setter :
  exists t0 t,
    HashTableCreate true true 5 = Some (Some t0) /\
    run t0 [OpPut true true 16 1; OpSetHashFunction (fun _ => 0)] = Some t /\
    {| key := 16; value := 1 |} ∈ entries t /\ keycmp t 16 16 = 0 /\
    values_nonnull t /\
    HashTableGet t 16 = NULL /\
    HashTableContainsKey t 16 = false.
Proof.
  eexists (fresh_table 5), _.
  split; [apply HashTableCreate_fresh; lia|].
  split; [vm_compute; reflexivity|].
  split; [apply elem_of_cons; left; reflexivity|].
  split; [reflexivity|]. split; [|split; reflexivity].
  intros p Hp. apply elem_of_cons in Hp as [->|Hp]; [discriminate|inversion Hp].
Qed.

(** C9, as the code has it: [containsKey k] is true exactly when
    [get k] is not the absent indicator; in every state reached, under
    the discipline of the invariant, from a table that holds no null
    value (such as the table that [create] returns), no value is null,
    since put refuses them, and while the strategies are sound
    [containsKey k] is true exactly when [k] compares equal to the key
    of an entry. *)
Theorem containsKey_iff_get (t0 t : HashTable) (ops : list Op) (k : ptr) :
  (HashTableContainsKey t k = true <-> HashTableGet t k <> NULL) /\
  (Inv t0 -> values_nonnull t0 -> disciplined_run t0 ops -> run t0 ops = Some t ->
   Strategies_ok t ->
   (HashTableContainsKey t k = true <->
    exists p, p ∈ entries t /\ keycmp t k (key p) = 0)).
Proof.
  assert (Hiff : HashTableContainsKey t k = true <-> HashTableGet t k <> NULL).
  { unfold HashTableContainsKey.
    destruct (Z.eqb_spec (HashTableGet t k) NULL) as [Heq|Hne]; simpl.
    - split; [discriminate|contradiction].
    - tauto. }
  split; [exact Hiff|].
  intros Hinv0 Hnn0 Hdisc Hrun Hok.
  pose proof (run_Inv t0 t ops Hinv0 Hdisc Hrun) as Hinv.
  pose proof (run_values_nonnull t0 t ops Hinv0 Hdisc Hrun Hnn0) as Hnn.
  rewrite Hiff, HashTableGet_assoc by assumption. split.
  - unfold assoc. intros Hget.
    destruct (find _ (entries t)) as [p|] eqn:Hfind; [|contradiction].
    apply find_some in Hfind as [Hin Heq]. apply Z.eqb_eq in Heq.
    exists p. split; [apply list_elem_of_In; exact Hin|exact Heq].
  - intros (p & Hp & Heq).
    rewrite (assoc_elem (keycmp t) (cmp_sym t Hok) (cmp_trans t Hok) k _ p);
      [apply Hnn; assumption|apply Inv_distinct; assumption|assumption|assumption].
Qed.

Lemma containsKey_iff_get_witness :
  Inv (fresh_table 5) /\ values_nonnull (fresh_table 5) /\
  disciplined_run (fresh_table 5) sample_ops /\
  run (fresh_table 5) sample_ops = Some sample_table /\
  Strategies_ok sample_table /\
  (exists p, p ∈ entries sample_table /\ keycmp sample_table 96 (key p) = 0) /\
  HashTableContainsKey sample_table 96 = true.
Proof.
  assert (Hinv : Inv (fresh_table 5)) by (apply Inv_fresh; lia).
  assert (Hnn : values_nonnull (fresh_table 5)) by (intros p Hp; inversion Hp).
  assert (Hpresent : exists p, p ∈ entries sample_table
                               /\ keycmp sample_table 96 (key p) = 0).
  { exists {| key := 96; value := 4 |}. split; [|reflexivity].
    rewrite sample_entries. apply elem_of_cons. left. reflexivity. }
  split; [exact Hinv|]. split; [exact Hnn|]. split; [exact sample_disciplined|].
  split; [exact sample_run|]. split; [exact Strategies_ok_sample|].
  split; [exact Hpresent|].
  exact (proj2 (proj2 (containsKey_iff_get (fresh_table 5) sample_table sample_ops 96)
                  Hinv Hnn sample_disciplined sample_run Strategies_ok_sample)
           Hpresent).
Defined.

(** ** Iteration *)

Lemma visits_lookup_entries (t : HashTable) (a : nat) (x : Z * ptr * ptr) :
  visits t !! a = Some x ->
  entries t !! a = Some {| key := visit_key x; value := snd x |}.
Proof.
  intros Hx. unfold entries. rewrite <- (visits_from_entries 0 (bucketArray t)).
  fold (visits t).
  change (map ?f ?l) with (f <$> l). rewrite list_lookup_fmap, Hx. reflexivity.
Qed.

(** C5 as stated fails after a rehash.  The keys 32 and 64 are put in
    this order in a table of one bucket, which is then rehashed to two
    buckets: both keys go to bucket 0, where the iteration visits 32,
    the older one, first. *)
Lemma iteration_order_after_rehash :
  exists t h vs,
    HashTableCreate true true 1 = Some (Some (fresh_table 1)) /\
    disciplined_run (fresh_table 1)
      [OpPut true true 32 1; OpPut true true 64 2; OpRehash true 2] /\
    run_history (fresh_table 1) []
      [OpPut true true 32 1; OpPut true true 64 2; OpRehash true 2] = Some (t, h) /\
    full_iteration true (Z.to_nat (HashTableSize t)) t = Some vs /\
    h = [64; 32] /\ vs = [(0, 32, 1); (0, 64, 2)] /\
    ~ newest_first t h vs.
Proof.
  eexists _, _, _.
  split; [apply HashTableCreate_fresh; lia|].
  split; [vm_compute; repeat split; apply Strategies_ok_pointer; reflexivity|].
  split; [vm_compute; reflexivity|].
  split; [vm_compute; reflexivity|].
  split; [reflexivity|]. split; [reflexivity|].
  intros Hnf. specialize (Hnf 0). vm_compute in Hnf. discriminate.
Qed.

(** C5, as the code has it: on every table that satisfies the invariant
    and in every state reached from it under the discipline of the
    invariant, a full iteration ends after exactly [size] visits, visits
    no two keys that compare equal, visits the buckets in ascending
    index order and every chain from its head; as long as the strategies
    are sound and no operation changes the bucket count, the keys put
    since are visited, within their bucket, most recently inserted first
    and before the keys that were there, which keep their order; on an
    empty table [first] returns the absent indicator.  All this is for
    an iteration whose iterator can be allocated: [first] does not test
    that allocation, and does not return when it fails.  The history
    starts from the order in which the keys are visited at the outset,
    which is empty for the table that [create] returns. *)
Theorem iteration_order (t0 t : HashTable) (ops : list Op) (h : list ptr) :
  Inv t0 ->
  disciplined_run t0 ops ->
  run_history t0 (map key (entries t0)) ops = Some (t, h) ->
  exists vs,
    full_iteration true (Z.to_nat (HashTableSize t)) t = Some vs /\
    Z.of_nat (length vs) = HashTableSize t /\
    (forall a b x y,
        vs !! a = Some x -> vs !! b = Some y ->
        keycmp t (visit_key x) (visit_key y) = 0 -> a = b) /\
    StronglySorted (fun x y => visit_bucket x <= visit_bucket y) vs /\
    (forall b, 0 <= b < numOfBuckets t ->
        filter (fun x => visit_bucket x = b) vs
        = map (fun p => (b, key p, value p)) (bucket_at (bucketArray t) b)) /\
    (steady t0 ops -> newest_first t h vs) /\
    (HashTableSize t = 0 -> hashTableGetFirst true t = Some None) /\
    hashTableGetFirst false t = None.
Proof.
  intros Hinv0 Hdisc Hrun.
  pose proof (run_history_run _ _ _ _ _ Hrun) as Hrun'.
  pose proof (run_Inv _ _ _ Hinv0 Hdisc Hrun') as Hinv.
  pose proof (Inv_count_entries t Hinv) as Hcount.
  assert (Hfull : full_iteration true (Z.to_nat (HashTableSize t)) t
                  = Some (visits t)).
  { apply full_iteration_visits; [apply (inv_array t Hinv)|].
    unfold HashTableSize. lia. }
  assert (Hlen : length (visits t) = length (entries t)).
  { unfold entries. rewrite <- (visits_from_entries 0 (bucketArray t)).
    rewrite length_map. reflexivity. }
  exists (visits t). split; [exact Hfull|].
  split; [unfold HashTableSize; lia|].
  split; [|split; [|split; [|split; [|split; [|reflexivity]]]]].
  - intros a b x y Ha Hb Heq.
    apply visits_lookup_entries in Ha, Hb.
    apply (inv_unique t Hinv a b _ _ Ha Hb). exact Heq.
  - apply visits_from_ascending.
  - intros b Hb. unfold visits. rewrite visits_from_bucket, Z.sub_0_r.
    rewrite lookup_bucket_at by (rewrite (inv_array t Hinv); lia).
    destruct (decide (0 <= b)); [reflexivity|lia].
  - intros Hsteady. apply chains_newest_first_visits; [assumption|].
    apply (run_history_spec t0 t (map key (entries t0)) h ops); try assumption.
    apply chains_newest_first_entries. assumption.
  - intros Hzero. apply getFirst_no_entries; [apply (inv_array t Hinv)|].
    apply Inv_no_entries; assumption.
Qed.

Lemma iteration_order_witness :
  Inv (fresh_table 5) /\
  disciplined_run (fresh_table 5) sample_ops /\
  run_history (fresh_table 5) (map key (entries (fresh_table 5))) sample_ops
  = Some (sample_table, [96; 32; 16]) /\
  steady (fresh_table 5) sample_ops /\
  exists vs,
    full_iteration true (Z.to_nat (HashTableSize sample_table)) sample_table = Some vs /\
    Z.of_nat (length vs) = HashTableSize sample_table /\
    (forall a b x y,
        vs !! a = Some x -> vs !! b = Some y ->
        keycmp sample_table (visit_key x) (visit_key y) = 0 -> a = b) /\
    StronglySorted (fun x y => visit_bucket x <= visit_bucket y) vs /\
    (forall b, 0 <= b < numOfBuckets sample_table ->
        filter (fun x => visit_bucket x = b) vs
        = map (fun p => (b, key p, value p))
              (bucket_at (bucketArray sample_table) b)) /\
    newest_first sample_table [96; 32; 16] vs /\
    (HashTableSize sample_table = 0 ->
     hashTableGetFirst true sample_table = Some None) /\
    hashTableGetFirst false sample_table = None.
Proof.
  assert (Hinv : Inv (fresh_table 5)) by (apply Inv_fresh; lia).
  assert (Hrun : run_history (fresh_table 5) (map key (entries (fresh_table 5)))
                             sample_ops
                 = Some (sample_table, [96; 32; 16]))
    by (vm_compute; reflexivity).
  split; [exact Hinv|]. split; [exact sample_disciplined|].
  split; [exact Hrun|]. split; [exact sample_steady|].
  destruct (iteration_order (fresh_table 5) sample_table sample_ops
              [96; 32; 16] Hinv sample_disciplined Hrun)
    as (vs & H1 & H2 & H3 & H4 & H5 & H6 & H7 & H8).
  exists vs. split; [exact H1|]. split; [exact H2|]. split; [exact H3|].
  split; [exact H4|]. split; [exact H5|]. split; [exact (H6 sample_steady)|].
  split; [exact H7|exact H8].
Defined.

(** * Further properties *)

(** ** The probable-prime test and the bucket counts it yields *)

Lemma spec_probablePrime_from_only_self (ds : list Z) (n : Z) :
  (forall d, In d ds -> n mod d = 0 -> n = d) ->
  spec_probablePrime_from ds n = true.
Proof.
  induction ds as [|d ds IH]; intros Hself; simpl.
  - reflexivity.
  - destruct (Z.eqb_spec n d) as [_|Hne]; [reflexivity|].
    destruct (Z.eqb_spec (n mod d) 0) as [Hz|_].
    + exfalso. apply Hne, Hself; [left; reflexivity|assumption].
    + apply IH. intros d' Hd'. apply Hself. right. assumption.
Qed.

Lemma trial_divisors_range (d : Z) : In d spec_trial_divisors -> 3 <= d <= 49.
Proof.
  unfold spec_trial_divisors. cbn [In]. intros H.
  repeat (destruct H as [<-|H]; [lia|]). destruct H.
Qed.

Lemma isProbablePrime_of_prime (p : Z) : Z.prime p -> isProbablePrime p = true.
Proof.
  intros [Hp1 Hp]. rewrite (isProbablePrime_trial_division p).
  apply spec_probablePrime_from_only_self. intros d Hd Hmod.
  apply trial_divisors_range in Hd.
  assert (Hdiv : (d | p)) by (apply Z.mod_divide; [lia|assumption]).
  destruct (Z.lt_trichotomy d p) as [Hlt|[Heq|Hgt]].
  - exfalso. apply (Hp d); [lia|assumption].
  - symmetry. assumption.
  - apply Z.divide_pos_le in Hdiv; lia.
Qed.

(** An odd number below 53 * 53 that the test accepts is prime. *)
Lemma prime_of_isProbablePrime (n : Z) :
  Z.odd n = true -> 1 < n < 2809 -> isProbablePrime n = true -> Z.prime n.
Proof.
  intros Hodd Hn Hpp. split; [lia|]. intros a Ha [b Hab].
  assert (Hb : 1 < b < n) by nia.
  assert (Hsmall : exists d e, n = d * e /\ 1 < d /\ d <= e).
  { destruct (Z.le_gt_cases a b) as [Hle|Hgt].
    - exists a, b. split; [lia|]. split; lia.
    - exists b, a. split; [lia|]. split; lia. }
  destruct Hsmall as (d & e & Hde & Hd1 & Hdle).
  assert (Hd52 : d <= 52) by nia.
  assert (Hdodd : Z.odd d = true).
  { rewrite Hde, Z.odd_mul in Hodd. apply andb_true_iff in Hodd. tauto. }
  assert (Hd3 : 3 <= d).
  { destruct (Z.eq_dec d 2) as [->|Hne]; [discriminate|lia]. }
  assert (Hdn : (d | n)) by (exists e; lia).
  destruct (Z.le_gt_cases d 49) as [H49|H49].
  - pose proof (isProbablePrime_no_trial_divisor n d Hpp ltac:(lia) Hdodd Hdn). nia.
  - assert (Hd51 : d = 51).
    { destruct (Z.eq_dec d 50) as [->|H50]; [discriminate|].
      destruct (Z.eq_dec d 52) as [->|H52]; [discriminate|]. lia. }
    subst d.
    assert (H3 : (3 | n)) by (exists (17 * e); lia).
    pose proof (isProbablePrime_no_trial_divisor n 3 Hpp ltac:(lia) eq_refl H3). lia.
Qed.

Lemma odd_prime (p : Z) : Z.prime p -> 3 <= p -> Z.odd p = true.
Proof.
  intros [_ Hp] H3. destruct (Z.odd p) eqn:Hodd; [reflexivity|exfalso].
  rewrite <- Z.negb_even in Hodd. apply negb_false_iff, Z.even_spec in Hodd.
  destruct Hodd as [m Hm].
  apply (Hp 2); [lia|]. exists m. lia.
Qed.

(** The search ends at the first accepted candidate: no accepted odd
    candidate lies between the start and the result. *)
Lemma ideal_count_first_accepted (t : HashTable) (c : Z) :
  Z.odd c = true -> ideal_start t <= c -> isProbablePrime c = true ->
  calculateIdealNumOfBuckets t <= c.
Proof.
  intros Hodd Hc Hpp.
  destruct (ideal_search_steps t) as (steps & _ & _ & Hbefore & _ & ->).
  destruct (ideal_start_odd t) as [k Hk].
  apply Zodd_bool_iff, Zodd_ex in Hodd as [m Hm].
  destruct (Z.le_gt_cases (ideal_start t + 2 * Z.of_nat steps) c) as [Hle|Hgt];
    [assumption|exfalso].
  assert (Hi : c = ideal_start t + 2 * Z.of_nat (Z.to_nat (m - 2 - Z.of_nat k))) by lia.
  rewrite Hi in Hpp. rewrite Hbefore in Hpp; [discriminate|lia].
Qed.

(** X1: the probable-prime test accepts every prime; on odd numbers
    below 2809 = 53 * 53 it accepts nothing else; 2809 itself is
    accepted although it is not prime. *)
Theorem isProbablePrime_exact :
  (forall p, Z.prime p -> isProbablePrime p = true) /\
  (forall n, Z.odd n = true -> 1 < n < 2809 ->
             isProbablePrime n = true -> Z.prime n) /\
  isProbablePrime 2809 = true /\ ~ Z.prime 2809.
Proof.
  split; [exact isProbablePrime_of_prime|].
  split; [exact prime_of_isProbablePrime|].
  split; [reflexivity|].
  intros [_ Hp]. apply (Hp 53); [lia|]. exists 53. reflexivity.
Qed.

Lemma isProbablePrime_exact_witness :
  Z.odd 2803 = true /\ 1 < 2803 < 2809 /\ isProbablePrime 2803 = true /\
  Z.prime 2803.
Proof.
  assert (Hodd : Z.odd 2803 = true) by reflexivity.
  assert (Hrange : 1 < 2803 < 2809) by lia.
  assert (Hpp : isProbablePrime 2803 = true) by reflexivity.
  split; [exact Hodd|]. split; [exact Hrange|]. split; [exact Hpp|].
  destruct isProbablePrime_exact as (_ & Hprime & _).
  exact (Hprime 2803 Hodd Hrange Hpp).
Defined.

(** X2: with the ratio 3.0 of [HashTableCreate] and at most 8400
    elements, the bucket count chosen by [calculateIdealNumOfBuckets]
    is the least prime that is at least 5 and at least a third of the
    element count. *)
Theorem ideal_count_least_prime (t : HashTable) :
  idealRatio t = float_3_0 -> 0 <= numOfElements t <= 8400 ->
  let r := calculateIdealNumOfBuckets t in
  Z.prime r /\ 5 <= r /\ numOfElements t / 3 <= r /\
  (forall p, Z.prime p -> 5 <= p -> numOfElements t / 3 <= p -> r <= p).
Proof.
  intros Hratio Hn r.
  assert (Hq : long_of_float
                 (float_div (float_of_long (numOfElements t)) (idealRatio t))
               = numOfElements t / 3).
  { rewrite Hratio. apply quotient_by_3_0. change (2 ^ 24) with 16777216. lia. }
  pose proof (ideal_start_cases t) as Hstart. cbv zeta in Hstart.
  rewrite Hq in Hstart.
  set (q := numOfElements t / 3) in *.
  assert (Hq0 : 0 <= q <= 2800).
  { unfold q. split; [apply Z.div_pos; lia|].
    apply Z.div_le_upper_bound; lia. }
  assert (Hstart_ge : q <= ideal_start t /\ 5 <= ideal_start t <= 2801).
  { rewrite Hstart. destruct (Z.ltb_spec q 5); [lia|].
    destruct (Z.odd q) eqn:Hodd; [|lia].
    assert (q <> 2800) by (intros Heq; rewrite Heq in Hodd; discriminate). lia. }
  assert (Hodd_start : forall c, Z.odd c = true -> 5 <= c -> q <= c ->
                                 ideal_start t <= c).
  { intros c Hc H5 Hqc. rewrite Hstart. destruct (Z.ltb_spec q 5); [lia|].
    destruct (Z.odd q) eqn:Hodd; [lia|].
    assert (q <> c) by (intros Heq; rewrite Heq, Hc in Hodd; discriminate). lia. }
  destruct (ideal_search_steps t) as (steps & _ & Hpp & _ & _ & Hr).
  fold r in Hr. rewrite <- Hr in Hpp.
  assert (Hr_le : r <= 2801).
  { apply ideal_count_first_accepted; [reflexivity|lia|reflexivity]. }
  assert (Hr_odd : Z.odd r = true).
  { destruct (ideal_start_odd t) as [k Hk]. rewrite Hr, Hk.
    replace (5 + 2 * Z.of_nat k + 2 * Z.of_nat steps)
      with (2 * (Z.of_nat k + Z.of_nat steps + 2) + 1) by lia.
    apply Z.odd_odd. }
  split; [apply prime_of_isProbablePrime; [assumption|lia|assumption]|].
  split; [lia|]. split; [lia|].
  intros p Hp H5 Hqp.
  apply ideal_count_first_accepted.
  - apply odd_prime; [assumption|lia].
  - apply Hodd_start; [apply odd_prime; [assumption|lia]|assumption|assumption].
  - apply isProbablePrime_of_prime. assumption.
Qed.

Lemma ideal_count_least_prime_witness :
  let t := sizing_table 100 float_3_0 in
  idealRatio t = float_3_0 /\ 0 <= numOfElements t <= 8400 /\
  Z.prime (calculateIdealNumOfBuckets t) /\
  5 <= calculateIdealNumOfBuckets t /\
  numOfElements t / 3 <= calculateIdealNumOfBuckets t /\
  (forall p, Z.prime p -> 5 <= p -> numOfElements t / 3 <= p ->
             calculateIdealNumOfBuckets t <= p).
Proof.
  intros t.
  assert (Hratio : idealRatio t = float_3_0) by reflexivity.
  assert (Hn : 0 <= numOfElements t <= 8400) by (simpl; lia).
  split; [exact Hratio|]. split; [exact Hn|].
  exact (ideal_count_least_prime t Hratio Hn).
Defined.

(** ** Searching by value *)

Lemma contains_fold (g : KeyValuePair -> bool) (a : list chain) (found : bool) :
  fold_left (fun found c => found || existsb g c) a found
  = found || existsb g (concat a).
Proof.
  revert found. induction a as [|c a IH]; intros found; simpl.
  - rewrite orb_false_r. reflexivity.
  - rewrite IH, existsb_app, orb_assoc. reflexivity.
Qed.

Lemma HashTableContainsValue_entries (t : HashTable) (v : ptr) :
  length (bucketArray t) = Z.to_nat (numOfBuckets t) ->
  HashTableContainsValue t v
  = existsb (fun p => valuecmp t v (value p) =? 0) (entries t).
Proof.
  intros Hlen. unfold HashTableContainsValue, entries. rewrite <- Hlen.
  rewrite (for_loop_read_all
             (fun c found => found || existsb (fun p => valuecmp t v (value p) =? 0) c)).
  rewrite contains_fold. reflexivity.
Qed.

Lemma HashTableContainsValue_spec (t : HashTable) (v : ptr) :
  Inv t ->
  (HashTableContainsValue t v = true <->
   exists p, p ∈ entries t /\ valuecmp t v (value p) = 0).
Proof.
  intros Hinv. rewrite HashTableContainsValue_entries by apply Hinv.
  rewrite existsb_exists. split.
  - intros (p & Hp & Hv). exists p. split; [apply list_elem_of_In; exact Hp|].
    apply Z.eqb_eq. exact Hv.
  - intros (p & Hp & Hv). exists p. split; [apply list_elem_of_In; exact Hp|].
    apply Z.eqb_eq. exact Hv.
Qed.

(** X3: [HashTableContainsValue] answers 1 exactly when some stored
    entry has a value that the value comparison reports equal to the
    value asked for. *)
Theorem containsValue_iff (t : HashTable) (v : ptr) :
  Inv t ->
  (HashTableContainsValue t v = true <->
   exists p, p ∈ entries t /\ valuecmp t v (value p) = 0).
Proof. exact (HashTableContainsValue_spec t v). Qed.

Lemma containsValue_iff_witness :
  Inv sample_table /\
  (HashTableContainsValue sample_table 4 = true <->
   exists p, p ∈ entries sample_table /\ valuecmp sample_table 4 (value p) = 0).
Proof.
  assert (Hinv : Inv sample_table) by exact Inv_sample.
  split; [exact Hinv|]. exact (containsValue_iff sample_table 4 Hinv).
Defined.

(** X4: after a successful put of a value that the value comparison
    reports equal to itself, [HashTableContainsValue] finds that value,
    whether the put added an entry or replaced one. *)
Theorem put_then_containsValue (entry_ok array_ok : bool) (t t' : HashTable)
    (k v : ptr) (ev : list Event) :
  Inv t -> Strategies_ok t -> valuecmp t v v = 0 ->
  HashTablePut entry_ok array_ok t k v = Some (0, t', ev) ->
  HashTableContainsValue t' v = true.
Proof.
  intros Hinv Hok Hvv Hput.
  destruct (Z.eq_dec k NULL) as [Hk|Hk];
    [rewrite HashTablePut_null in Hput by auto; discriminate|].
  destruct (Z.eq_dec v NULL) as [Hv|Hv];
    [rewrite HashTablePut_null in Hput by auto; discriminate|].
  destruct (HashTablePut_spec entry_ok array_ok t k v Hinv Hok Hk Hv)
    as (r1 & t1 & ev1 & Hput1 & Hinv1 & Hcfg & Hcases).
  rewrite Hput in Hput1. injection Hput1 as <- <- <-.
  assert (Hvc : valuecmp t' = valuecmp t) by apply Hcfg.
  apply HashTableContainsValue_spec; [assumption|].
  exists {| key := k; value := v |}. rewrite Hvc. split; [|exact Hvv].
  destruct Hcases as [(p & others & _ & _ & Hnew & _)
                     |[(_ & _ & _ & Hnew & _)|(_ & _ & Hr & _)]].
  - rewrite Hnew. left.
  - rewrite Hnew. left.
  - discriminate.
Qed.

Lemma put_then_containsValue_witness :
  Inv sample_table /\ Strategies_ok sample_table /\
  valuecmp sample_table 9 9 = 0 /\
  exists t' ev,
    HashTablePut true true sample_table 48 9 = Some (0, t', ev) /\
    HashTableContainsValue t' 9 = true.
Proof.
  assert (Hinv : Inv sample_table) by exact Inv_sample.
  assert (Hok : Strategies_ok sample_table) by exact Strategies_ok_sample.
  assert (Hvv : valuecmp sample_table 9 9 = 0) by reflexivity.
  split; [exact Hinv|]. split; [exact Hok|]. split; [exact Hvv|].
  destruct (HashTablePut true true sample_table 48 9) as [[[r t'] ev]|] eqn:Hput;
    [|vm_compute in Hput; discriminate].
  assert (Hr : r = 0) by (vm_compute in Hput; congruence).
  subst r. exists t', ev. split; [reflexivity|].
  exact (put_then_containsValue true true sample_table t' 48 9 ev Hinv Hok Hvv Hput).
Defined.

(** ** Creation *)

Lemma entries_fresh (n : Z) : entries (fresh_table n) = [].
Proof. unfold entries. simpl. apply concat_replicate_nil. Qed.

Lemma HashTableGet_no_entries (t : HashTable) (k : ptr) :
  Inv t -> entries t = [] -> HashTableGet t k = NULL.
Proof.
  intros Hinv Hnil. unfold HashTableGet.
  destruct (hashValue_range t k Hinv) as [_ Hlt].
  pose proof (lookup_bucket_at (bucketArray t) (hashValue_of t k) Hlt) as Hc.
  assert (Hempty : bucket_at (bucketArray t) (hashValue_of t k) = []).
  { destruct (bucket_at (bucketArray t) (hashValue_of t k)) as [|p c] eqn:Hb;
      [reflexivity|exfalso].
    assert (Hin : p ∈ entries t).
    { apply elem_of_entries. eexists _, _. split; [exact Hc|]. left. }
    rewrite Hnil in Hin. inversion Hin. }
  rewrite Hempty. reflexivity.
Qed.

(** X5: [HashTableCreate] aborts on a bucket count that is not
    positive, returns [NULL] when one of its two allocations fails, and
    otherwise returns an empty table of the requested bucket count: its
    size is 0, no key and no value is found in it, a remove leaves it as
    it is, and [hashTableGetFirst] returns [NULL] on it when the
    iterator can be allocated (when it cannot, [hashTableGetFirst]
    writes through the null pointer and does not return). *)
Theorem create_empty (table_ok array_ok : bool) (n : Z) :
  (n <= 0 -> HashTableCreate table_ok array_ok n = None) /\
  (0 < n -> table_ok && array_ok = false ->
   HashTableCreate table_ok array_ok n = Some None) /\
  (0 < n ->
   exists t,
     HashTableCreate true true n = Some (Some t) /\
     HashTableSize t = 0 /\ HashTableIsEmpty t = true /\
     HashTableGetNumBuckets t = n /\
     (forall k, HashTableGet t k = NULL /\ HashTableContainsKey t k = false) /\
     (forall v, HashTableContainsValue t v = false) /\
     (forall iter_ok,
        hashTableGetFirst iter_ok t = if iter_ok then Some None else None) /\
     (forall array_ok' k, HashTableRemove array_ok' t k = Some (t, []))).
Proof.
  split; [|split].
  - intros Hn. unfold HashTableCreate.
    destruct (Z.ltb_spec 0 n); [lia|reflexivity].
  - intros Hn Hfail. unfold HashTableCreate.
    destruct (Z.ltb_spec 0 n); [|lia].
    destruct table_ok; [|reflexivity]. destruct array_ok; [discriminate|reflexivity].
  - intros Hn. exists (fresh_table n).
    pose proof (Inv_fresh n Hn) as Hinv.
    pose proof (entries_fresh n) as Hnil.
    assert (Hget : forall k, HashTableGet (fresh_table n) k = NULL)
      by (intros k; apply HashTableGet_no_entries; assumption).
    split; [apply HashTableCreate_fresh; assumption|].
    split; [reflexivity|]. split; [reflexivity|]. split; [reflexivity|].
    split; [|split; [|split]].
    + intros k. split; [apply Hget|].
      unfold HashTableContainsKey. rewrite Hget. reflexivity.
    + intros v. rewrite HashTableContainsValue_entries by apply Hinv.
      rewrite Hnil. reflexivity.
    + intros [|]; [|reflexivity].
      apply getFirst_no_entries; [apply Hinv|assumption].
    + intros array_ok' k.
      destruct (HashTableRemove_spec array_ok' (fresh_table n) k Hinv)
        as (t' & ev & Hrm & _ & _ & [(p & Hp & _)|(_ & -> & ->)]).
      * apply bucket_subset_entries in Hp. rewrite Hnil in Hp. inversion Hp.
      * exact Hrm.
Qed.

Lemma create_empty_witness :
  HashTableCreate true true 0 = None /\
  HashTableCreate true false 5 = Some None /\
  exists t,
    HashTableCreate true true 5 = Some (Some t) /\
    HashTableSize t = 0 /\ HashTableIsEmpty t = true /\
    HashTableGetNumBuckets t = 5 /\
    (forall k, HashTableGet t k = NULL /\ HashTableContainsKey t k = false) /\
    (forall v, HashTableContainsValue t v = false) /\
    (forall iter_ok,
       hashTableGetFirst iter_ok t = if iter_ok then Some None else None) /\
    (forall array_ok' k, HashTableRemove array_ok' t k = Some (t, [])).
Proof.
  split; [|split].
  - destruct (create_empty true true 0) as (Habort & _). apply Habort. lia.
  - destruct (create_empty true false 5) as (_ & Hnull & _).
    apply Hnull; [lia|reflexivity].
  - destruct (create_empty true true 5) as (_ & _ & Hnew). apply Hnew. lia.
Defined.

(** ** Put *)

Lemma HashTablePut_some (entry_ok array_ok : bool) (t : HashTable) (k v : ptr) :
  k <> NULL -> v <> NULL ->
  exists r t' ev, HashTablePut entry_ok array_ok t k v = Some (r, t', ev).
Proof.
  intros Hk Hv.
  destruct (scan (keycmp t) k (bucket_at (bucketArray t) (hashValue_of t k)))
    as [before [|p next]] eqn:Hscan.
  - destruct entry_ok.
    + destruct (HashTablePut_new array_ok t k v before Hk Hv Hscan)
        as (t' & Hput & _). eauto.
    + rewrite (HashTablePut_no_memory array_ok t k v before Hk Hv Hscan). eauto.
  - rewrite (HashTablePut_found entry_ok array_ok t k v before next p Hk Hv Hscan).
    eauto.
Qed.

(** X6: [HashTablePut] stops on a failed assertion exactly when the key
    or the value is [NULL]; with any other arguments it returns,
    whatever the table and the outcome of the allocations. *)
Theorem put_aborts_iff (entry_ok array_ok : bool) (t : HashTable) (k v : ptr) :
  HashTablePut entry_ok array_ok t k v = None <-> k = NULL \/ v = NULL.
Proof.
  split; [|apply HashTablePut_null].
  intros Hnone. destruct (Z.eq_dec k NULL) as [Hk|Hk]; [left; assumption|].
  destruct (Z.eq_dec v NULL) as [Hv|Hv]; [right; assumption|].
  destruct (HashTablePut_some entry_ok array_ok t k v Hk Hv) as (r & t' & ev & Hput).
  rewrite Hput in Hnone. discriminate.
Qed.

Lemma put_aborts_iff_witness :
  HashTablePut true true sample_table NULL 7 = None /\
  (HashTablePut true true sample_table 48 7 = None -> 48 = NULL \/ 7 = NULL).
Proof.
  split.
  - apply (put_aborts_iff true true sample_table NULL 7). left. reflexivity.
  - apply (put_aborts_iff true true sample_table 48 7).
Defined.

(** X7: the error code of [HashTablePut] is 0 or -1, and it is -1
    exactly when no stored key compares equal to the new one and the
    node for it cannot be allocated; the outcome of the allocation of a
    bucket array for an automatic rehash has no influence on it. *)
Theorem put_return_code (entry_ok array_ok : bool) (t : HashTable) (k v : ptr) :
  Inv t -> Strategies_ok t -> k <> NULL -> v <> NULL ->
  exists r t' ev,
    HashTablePut entry_ok array_ok t k v = Some (r, t', ev) /\
    (r = 0 \/ r = -1) /\
    (r = -1 <->
     entry_ok = false /\ forall p, p ∈ entries t -> keycmp t k (key p) <> 0).
Proof.
  intros Hinv Hok Hk Hv.
  destruct (HashTablePut_spec entry_ok array_ok t k v Hinv Hok Hk Hv)
    as (r & t' & ev & Hput & _ & _ & Hcases).
  exists r, t', ev. split; [exact Hput|].
  destruct Hcases as [(p & others & Heq & Hold & _ & -> & _)
                     |[(Hno & -> & -> & _)|(Hno & -> & -> & _)]].
  - split; [left; reflexivity|]. split; [discriminate|].
    intros [_ Hno]. exfalso. apply (Hno p); [|exact Heq].
    rewrite Hold. left.
  - split; [left; reflexivity|]. split; [discriminate|]. intros [? _]. discriminate.
  - split; [right; reflexivity|]. split; [|reflexivity]. intros _. split; [reflexivity|exact Hno].
Qed.

Lemma put_return_code_witness :
  Inv sample_table /\ Strategies_ok sample_table /\ 48 <> NULL /\ 9 <> NULL /\
  exists r t' ev,
    HashTablePut false true sample_table 48 9 = Some (r, t', ev) /\
    (r = 0 \/ r = -1) /\
    (r = -1 <->
     false = false /\
     forall p, p ∈ entries sample_table -> keycmp sample_table 48 (key p) <> 0).
Proof.
  split; [exact Inv_sample|]. split; [exact Strategies_ok_sample|].
  split; [discriminate|]. split; [discriminate|].
  apply (put_return_code false true sample_table 48 9);
    [exact Inv_sample|exact Strategies_ok_sample|discriminate|discriminate].
Defined.

Lemma concat_insert_at (a : list chain) (j : nat) (before next : chain)
    (p q : KeyValuePair) :
  a !! j = Some (before ++ p :: next) ->
  exists i : nat,
    concat a !! i = Some p /\
    concat (<[j := before ++ q :: next]> a) = <[i := q]> (concat a).
Proof.
  intros Hj.
  pose proof (take_drop_middle a j _ Hj) as Hsplit.
  assert (Hlen : length (take j a) = j).
  { apply length_take_le. apply lookup_lt_Some in Hj. lia. }
  revert Hsplit Hlen. generalize (take j a) (drop (S j) a). intros l1 l2 <- <-.
  rewrite insert_middle, !concat_app, !concat_cons.
  assert (Hshape : forall x : KeyValuePair,
             concat l1 ++ (before ++ x :: next) ++ concat l2
             = (concat l1 ++ before) ++ x :: (next ++ concat l2)).
  { intros x. rewrite <- !app_assoc. reflexivity. }
  exists (length (concat l1 ++ before)). rewrite !Hshape. split.
  - apply list_lookup_middle. reflexivity.
  - rewrite insert_middle. reflexivity.
Qed.

Lemma store_bucket_same (t : HashTable) (i : Z) :
  (Z.to_nat i < length (bucketArray t))%nat ->
  store_bucket t i (bucket_at (bucketArray t) i) = t.
Proof.
  intros Hi. unfold store_bucket, bucket_set.
  rewrite list_insert_id by (apply lookup_bucket_at; assumption).
  destruct t. reflexivity.
Qed.

(** The entry that the scan of a put or a remove stops at is the one
    entry of the table whose key compares equal. *)
Lemma scan_finds_entry (t : HashTable) (k : ptr) (p : KeyValuePair) :
  Inv t -> Strategies_ok t -> p ∈ entries t -> keycmp t k (key p) = 0 ->
  exists before next,
    scan (keycmp t) k (bucket_at (bucketArray t) (hashValue_of t k))
    = (before, p :: next) /\
    bucket_at (bucketArray t) (hashValue_of t k) = before ++ p :: next.
Proof.
  intros Hinv Hok Hp Hkp.
  pose proof (equal_key_in_bucket t k p Hinv Hok Hp Hkp) as Hbucket.
  destruct (scan (keycmp t) k (bucket_at (bucketArray t) (hashValue_of t k)))
    as [before found] eqn:Hscan.
  pose proof (scan_spec _ _ _ _ _ Hscan) as (Hsplit & Hbefore & Hfound).
  destruct found as [|p0 next].
  - exfalso. rewrite app_nil_r in Hsplit. rewrite Hsplit in Hbucket.
    rewrite Forall_forall in Hbefore. apply (Hbefore p Hbucket). exact Hkp.
  - assert (Hp0 : p0 ∈ entries t).
    { apply (bucket_subset_entries t (hashValue_of t k)). rewrite Hsplit.
      apply elem_of_app. right. left. }
    assert (Heq : p0 = p).
    { apply (distinct_keys_elem_eq (keycmp t) (entries t));
        [apply Inv_distinct; assumption|assumption|assumption|].
      apply (cmp_trans t Hok) with k; [|exact Hkp].
      apply (cmp_sym t Hok). exact Hfound. }
    subst p0. exists before, next. split; [reflexivity|exact Hsplit].
Qed.

(** X8: on a table that satisfies the invariant and whose key
    comparison is an equivalence respected by the hash function, a put
    on a key that compares equal to a stored key overwrites the entry
    where it stands: the new key and value pointers take the place of
    the old ones at the same position of the iteration, no node is
    freed and none needs to be allocated, the bucket count stays, and
    the release callbacks are invoked for the old key and the old value
    only where the new pointer differs from the old one. *)
Theorem put_replaces_in_place (entry_ok array_ok : bool) (t : HashTable)
    (k v : ptr) (p : KeyValuePair) :
  Inv t -> Strategies_ok t -> k <> NULL -> v <> NULL ->
  p ∈ entries t -> keycmp t k (key p) = 0 ->
  exists t' ev i,
    HashTablePut entry_ok array_ok t k v = Some (0, t', ev) /\
    entries t !! i = Some p /\
    entries t' = <[i := {| key := k; value := v |}]> (entries t) /\
    numOfBuckets t' = numOfBuckets t /\
    ev = (if key p =? k then []
          else match keyDeallocator t with
               | Some f => [EvCall f (key p)]
               | None => []
               end)
         ++ (if value p =? v then []
             else match valueDeallocator t with
                  | Some g => [EvCall g (value p)]
                  | None => []
                  end) /\
    freed_nodes ev = [].
Proof.
  intros Hinv Hok Hk Hv Hp Hkp.
  destruct (scan_finds_entry t k p Hinv Hok Hp Hkp) as (before & next & Hscan & Hchain).
  destruct (hashValue_range t k Hinv) as [_ Hlt].
  pose proof (lookup_bucket_at (bucketArray t) (hashValue_of t k) Hlt) as Hlookup.
  rewrite Hchain in Hlookup.
  destruct (concat_insert_at (bucketArray t) _ before next p
              {| key := k; value := v |} Hlookup) as (i & Hi & Hins).
  eexists _, _, i.
  split; [apply (HashTablePut_found entry_ok array_ok t k v before next p Hk Hv Hscan)|].
  split; [exact Hi|]. split; [exact Hins|]. split; [reflexivity|].
  split; [reflexivity|].
  unfold release.
  destruct (key p =? k), (value p =? v), (keyDeallocator t), (valueDeallocator t);
    reflexivity.
Qed.

Lemma put_replaces_in_place_witness :
  let t := HashTableSetDeallocationFunctions sample_table (Some 1000) (Some 2000) in
  Inv t /\ Strategies_ok t /\ 16 <> NULL /\ 9 <> NULL /\
  {| key := 16; value := 3 |} ∈ entries t /\ keycmp t 16 16 = 0 /\
  exists t' ev i,
    HashTablePut false false t 16 9 = Some (0, t', ev) /\
    entries t !! i = Some {| key := 16; value := 3 |} /\
    entries t' = <[i := {| key := 16; value := 9 |}]> (entries t) /\
    numOfBuckets t' = numOfBuckets t /\
    ev = [EvCall 2000 3] /\
    freed_nodes ev = [].
Proof.
  intros t.
  assert (Hinv : Inv t).
  { apply (Inv_same_fields sample_table t Inv_sample); reflexivity. }
  assert (Hok : Strategies_ok t) by (apply Strategies_ok_pointer; reflexivity).
  assert (Hentries : entries t = entries sample_table) by reflexivity.
  assert (Hin : {| key := 16; value := 3 |} ∈ entries t).
  { rewrite Hentries, sample_entries. right. left. }
  assert (Hcmp : keycmp t 16 16 = 0) by reflexivity.
  split; [exact Hinv|]. split; [exact Hok|].
  split; [discriminate|]. split; [discriminate|].
  split; [exact Hin|]. split; [exact Hcmp|].
  apply (put_replaces_in_place false false t 16 9 {| key := 16; value := 3 |});
    [exact Hinv|exact Hok|discriminate|discriminate|exact Hin|exact Hcmp].
Defined.

Lemma HashTablePut_same_pair (entry_ok array_ok : bool) (t : HashTable) (k v : ptr) :
  Inv t -> Strategies_ok t -> k <> NULL -> v <> NULL ->
  {| key := k; value := v |} ∈ entries t ->
  HashTablePut entry_ok array_ok t k v = Some (0, t, []).
Proof.
  intros Hinv Hok Hk Hv Hin.
  destruct (scan_finds_entry t k {| key := k; value := v |} Hinv Hok Hin
              (cmp_refl t Hok k)) as (before & next & Hscan & Hchain).
  rewrite (HashTablePut_found entry_ok array_ok t k v before next _ Hk Hv Hscan).
  simpl. rewrite !Z.eqb_refl. rewrite <- Hchain.
  rewrite store_bucket_same by apply (hashValue_range t k Hinv). reflexivity.
Qed.

(** X9: on a table that satisfies the invariant and whose key
    comparison is an equivalence respected by the hash function, a put
    is idempotent.  Once a put of a key and a value has succeeded, the
    same put again returns 0 and leaves the table exactly as it is,
    whatever the outcome of the allocations and without invoking a
    release callback. *)
Theorem put_twice (entry_ok array_ok entry_ok' array_ok' : bool)
    (t t1 : HashTable) (k v : ptr) (ev : list Event) :
  Inv t -> Strategies_ok t ->
  HashTablePut entry_ok array_ok t k v = Some (0, t1, ev) ->
  HashTablePut entry_ok' array_ok' t1 k v = Some (0, t1, []).
Proof.
  intros Hinv Hok Hput.
  destruct (Z.eq_dec k NULL) as [Hk|Hk];
    [rewrite HashTablePut_null in Hput by auto; discriminate|].
  destruct (Z.eq_dec v NULL) as [Hv|Hv];
    [rewrite HashTablePut_null in Hput by auto; discriminate|].
  destruct (HashTablePut_spec entry_ok array_ok t k v Hinv Hok Hk Hv)
    as (r1 & t' & ev1 & Hput1 & Hinv1 & Hcfg & Hcases).
  rewrite Hput in Hput1. injection Hput1 as <- <- <-.
  apply HashTablePut_same_pair; try assumption.
  - apply (Strategies_ok_config t t1); assumption.
  - destruct Hcases as [(p & others & _ & _ & Hnew & _)
                       |[(_ & _ & _ & Hnew & _)|(_ & _ & Hr & _)]].
    + rewrite Hnew. left.
    + rewrite Hnew. left.
    + discriminate.
Qed.

Lemma put_twice_witness :
  Inv (fresh_table 5) /\ Strategies_ok (fresh_table 5) /\
  exists t1 ev,
    HashTablePut true true (fresh_table 5) 16 1 = Some (0, t1, ev) /\
    HashTablePut false false t1 16 1 = Some (0, t1, []).
Proof.
  assert (Hinv : Inv (fresh_table 5)) by (apply Inv_fresh; lia).
  assert (Hok : Strategies_ok (fresh_table 5)) by apply Strategies_ok_fresh.
  split; [exact Hinv|]. split; [exact Hok|].
  destruct (HashTablePut true true (fresh_table 5) 16 1) as [[[r t1] ev]|] eqn:Hput;
    [|vm_compute in Hput; discriminate].
  assert (Hr : r = 0) by (vm_compute in Hput; congruence).
  subst r. exists t1, ev. split; [reflexivity|].
  exact (put_twice true true false false (fresh_table 5) t1 16 1 ev Hinv Hok Hput).
Defined.

(** ** Remove *)

(** X10: a remove touches one key only.  Every key that does not
    compare equal to the removed one is looked up after the remove as
    before it. *)
Theorem remove_other_keys (array_ok : bool) (t t' : HashTable) (k k' : ptr)
    (ev : list Event) :
  Inv t -> Strategies_ok t ->
  HashTableRemove array_ok t k = Some (t', ev) ->
  keycmp t k' k <> 0 ->
  HashTableGet t' k' = HashTableGet t k' /\
  HashTableContainsKey t' k' = HashTableContainsKey t k'.
Proof.
  intros Hinv Hok Hrm Hne.
  assert (Hget : HashTableGet t' k' = HashTableGet t k').
  { destruct (HashTableRemove_spec array_ok t k Hinv)
      as (t1 & ev1 & Hrm1 & Hinv1 & Hcfg & Hcases).
    rewrite Hrm in Hrm1. injection Hrm1 as <- <-.
    pose proof (Strategies_ok_config t t' Hcfg Hok) as Hok'.
    assert (Hkc : keycmp t' = keycmp t) by apply Hcfg.
    destruct Hcases as [(p & _ & Heq & Hperm & _)|(_ & -> & _)]; [|reflexivity].
    rewrite !HashTableGet_assoc by assumption. rewrite Hkc.
    rewrite (assoc_perm (keycmp t) (cmp_sym t Hok) (cmp_trans t Hok) k' _ _
               (Inv_distinct t Hinv) Hperm).
    rewrite assoc_cons.
    destruct (Z.eqb_spec (keycmp t k' (key p)) 0) as [Hk'p|_]; [|reflexivity].
    exfalso. apply Hne. apply (cmp_trans t Hok) with (key p); [exact Hk'p|].
    apply (cmp_sym t Hok). exact Heq. }
  split; [exact Hget|]. unfold HashTableContainsKey. rewrite Hget. reflexivity.
Qed.

Lemma remove_other_keys_witness :
  Inv sample_table /\ Strategies_ok sample_table /\
  keycmp sample_table 96 16 <> 0 /\
  exists t' ev,
    HashTableRemove true sample_table 16 = Some (t', ev) /\
    HashTableGet t' 96 = HashTableGet sample_table 96 /\
    HashTableContainsKey t' 96 = HashTableContainsKey sample_table 96.
Proof.
  assert (Hne : keycmp sample_table 96 16 <> 0) by discriminate.
  split; [exact Inv_sample|]. split; [exact Strategies_ok_sample|].
  split; [exact Hne|].
  destruct (HashTableRemove true sample_table 16) as [[t' ev]|] eqn:Hrm;
    [|vm_compute in Hrm; discriminate].
  exists t', ev. split; [reflexivity|].
  exact (remove_other_keys true sample_table t' 16 96 ev
           Inv_sample Strategies_ok_sample Hrm Hne).
Defined.

(** X11: on a table that satisfies the invariant and whose key
    comparison is an equivalence respected by the hash function, a
    remove of a key that no stored key compares equal to returns the
    table as it is and releases nothing; a remove of a key that
    compares equal to a stored key unlinks that one entry, passes the
    stored key and then the stored value (not the key given by the
    caller) to the release callbacks that are configured, and frees
    that one node. *)
Theorem remove_releases (array_ok : bool) (t : HashTable) (k : ptr) :
  Inv t -> Strategies_ok t ->
  exists t' ev,
    HashTableRemove array_ok t k = Some (t', ev) /\
    ((forall p, p ∈ entries t -> keycmp t k (key p) <> 0) ->
     t' = t /\ ev = []) /\
    (forall p, p ∈ entries t -> keycmp t k (key p) = 0 ->
       entries t ≡ₚ p :: entries t' /\
       ev = match keyDeallocator t with
            | Some f => [EvCall f (key p)]
            | None => []
            end
            ++ match valueDeallocator t with
               | Some g => [EvCall g (value p)]
               | None => []
               end
            ++ [EvFree p] /\
       freed_nodes ev = [p]).
Proof.
  intros Hinv Hok.
  destruct (HashTableRemove_spec array_ok t k Hinv)
    as (t' & ev & Hrm & _ & _ & Hcases).
  exists t', ev. split; [exact Hrm|].
  destruct Hcases as [(p0 & Hp0 & Heq0 & Hperm & _ & Hev)|(Hno & -> & ->)].
  - apply bucket_subset_entries in Hp0. split.
    + intros Hno. exfalso. apply (Hno p0 Hp0). exact Heq0.
    + intros p Hp Heq.
      assert (Hpp : p0 = p).
      { apply (distinct_keys_elem_eq (keycmp t) (entries t));
          [apply Inv_distinct; assumption|assumption|assumption|].
        apply (cmp_trans t Hok) with k; [|exact Heq].
        apply (cmp_sym t Hok). exact Heq0. }
      subst p0. split; [exact Hperm|]. split; [exact Hev|].
      rewrite Hev. unfold release.
      destruct (keyDeallocator t), (valueDeallocator t); reflexivity.
  - split; [intros _; split; reflexivity|].
    intros p Hp Heq. exfalso.
    pose proof (equal_key_in_bucket t k p Hinv Hok Hp Heq) as Hb.
    apply (Hno p Hb). exact Heq.
Qed.

Lemma remove_releases_witness :
  let t := HashTableSetDeallocationFunctions sample_table (Some 1000) (Some 2000) in
  Inv t /\ Strategies_ok t /\
  {| key := 16; value := 3 |} ∈ entries t /\ keycmp t 16 16 = 0 /\
  (forall p, p ∈ entries t -> keycmp t 48 (key p) <> 0) /\
  (exists t',
      HashTableRemove true t 16
      = Some (t', [EvCall 1000 16; EvCall 2000 3;
                   EvFree {| key := 16; value := 3 |}]) /\
      entries t ≡ₚ {| key := 16; value := 3 |} :: entries t') /\
  HashTableRemove true t 48 = Some (t, []).
Proof.
  intros t.
  assert (Hinv : Inv t).
  { apply (Inv_same_fields sample_table t Inv_sample); reflexivity. }
  assert (Hok : Strategies_ok t) by (apply Strategies_ok_pointer; reflexivity).
  assert (Hentries : entries t = entries sample_table) by reflexivity.
  assert (Hin : {| key := 16; value := 3 |} ∈ entries t).
  { rewrite Hentries, sample_entries. right. left. }
  assert (Hcmp : keycmp t 16 16 = 0) by reflexivity.
  assert (Habsent : forall p, p ∈ entries t -> keycmp t 48 (key p) <> 0).
  { intros p Hp. rewrite Hentries, sample_entries in Hp.
    repeat (apply elem_of_cons in Hp as [->|Hp]; [discriminate|]).
    inversion Hp. }
  split; [exact Hinv|]. split; [exact Hok|]. split; [exact Hin|].
  split; [exact Hcmp|]. split; [exact Habsent|]. split.
  - destruct (remove_releases true t 16 Hinv Hok) as (t' & ev & Hrm & _ & Hstored).
    destruct (Hstored _ Hin Hcmp) as (Hperm & Hev & _).
    exists t'. split; [rewrite Hrm, Hev; reflexivity|exact Hperm].
  - destruct (remove_releases true t 48 Hinv Hok) as (t' & ev & Hrm & Hnone & _).
    destruct (Hnone Habsent) as [Ht' Hev]. rewrite Hrm, Ht', Hev. reflexivity.
Defined.

(** ** The rehash thresholds *)

Lemma HashTableRehash_config (array_ok : bool) (t t' : HashTable) (n : Z) :
  HashTableRehash array_ok t n = Some t' -> same_config t t'.
Proof.
  unfold HashTableRehash. intros H.
  destruct (negb (0 <=? n)); [discriminate|].
  destruct (_ =? numOfBuckets t);
    [injection H as <-; apply same_config_refl|].
  destruct (negb array_ok); [injection H as <-; apply same_config_refl|].
  injection H as <-. repeat split.
Qed.

Lemma HashTableRehash_no_memory (t : HashTable) (n : Z) :
  0 <= n -> HashTableRehash false t n = Some t.
Proof.
  intros Hn. unfold HashTableRehash.
  destruct (Z.leb_spec 0 n); [|lia]. simpl.
  destruct (_ =? numOfBuckets t); reflexivity.
Qed.

Lemma HashTablePut_config (entry_ok array_ok : bool) (t t' : HashTable)
    (k v r : Z) (ev : list Event) :
  HashTablePut entry_ok array_ok t k v = Some (r, t', ev) -> same_config t t'.
Proof.
  intros Hput.
  destruct (Z.eq_dec k NULL) as [Hk|Hk];
    [rewrite HashTablePut_null in Hput by auto; discriminate|].
  destruct (Z.eq_dec v NULL) as [Hv|Hv];
    [rewrite HashTablePut_null in Hput by auto; discriminate|].
  destruct (scan (keycmp t) k (bucket_at (bucketArray t) (hashValue_of t k)))
    as [before [|p next]] eqn:Hscan.
  - destruct entry_ok.
    + destruct (HashTablePut_new array_ok t k v before Hk Hv Hscan)
        as (t1 & Hput1 & Hcases).
      rewrite Hput in Hput1. injection Hput1 as _ <-.
      destruct Hcases as [->|Hrehash]; [repeat split|].
      apply HashTableRehash_config in Hrehash.
      apply (same_config_trans _ _ _ ltac:(repeat split) Hrehash).
    + rewrite (HashTablePut_no_memory array_ok t k v before Hk Hv Hscan) in Hput.
      injection Hput as _ <- _. apply same_config_refl.
  - rewrite (HashTablePut_found entry_ok array_ok t k v before next p Hk Hv Hscan)
      in Hput.
    injection Hput as _ <- _. repeat split.
Qed.

Lemma HashTableRemove_config (array_ok : bool) (t t' : HashTable) (k : ptr)
    (ev : list Event) :
  HashTableRemove array_ok t k = Some (t', ev) -> same_config t t'.
Proof.
  intros Hrm.
  destruct (scan (keycmp t) k (bucket_at (bucketArray t) (hashValue_of t k)))
    as [before [|p next]] eqn:Hscan.
  - rewrite (HashTableRemove_absent array_ok t k before Hscan) in Hrm.
    injection Hrm as <- _. apply same_config_refl.
  - destruct (HashTableRemove_found array_ok t k before next p Hscan)
      as (t1 & Hrm1 & Hcases).
    rewrite Hrm in Hrm1. injection Hrm1 as <- _.
    destruct Hcases as [->|Hrehash]; [repeat split|].
    apply HashTableRehash_config in Hrehash.
    apply (same_config_trans _ _ _ ltac:(repeat split) Hrehash).
Qed.

Lemma HashTableRemoveAll_config (array_ok : bool) (t t' : HashTable)
    (ev : list Event) :
  HashTableRemoveAll array_ok t = Some (t', ev) -> same_config t t'.
Proof.
  unfold HashTableRemoveAll. destruct (for_loop _ _ _ _) as [a1 ev1].
  intros H. destruct (HashTableRehash array_ok _ 5) as [t2|] eqn:Hrehash;
    [|discriminate].
  simpl in H. injection H as <- _.
  apply HashTableRehash_config in Hrehash.
  apply (same_config_trans _ _ _ ltac:(repeat split) Hrehash).
Qed.

Lemma same_thresholds_config (t t' : HashTable) :
  same_config t t' -> same_thresholds t t'.
Proof. intros (_ & _ & _ & _ & _ & H1 & H2 & H3). repeat split; assumption. Qed.

Lemma step_thresholds (t t' : HashTable) (op : Op) :
  step t op = Some t' -> same_thresholds t t'.
Proof.
  destruct op as [entry_ok array_ok k v|k|array_ok k|array_ok|array_ok n
                 |f|f|f|kd vd]; simpl; intros Hstep.
  - destruct (HashTablePut entry_ok array_ok t k v) as [[[r t1] ev]|] eqn:Hput;
      [|discriminate].
    simpl in Hstep. injection Hstep as <-.
    apply same_thresholds_config, (HashTablePut_config _ _ _ _ _ _ _ _ Hput).
  - injection Hstep as <-. repeat split.
  - destruct (HashTableRemove array_ok t k) as [[t1 ev]|] eqn:Hrm; [|discriminate].
    simpl in Hstep. injection Hstep as <-.
    apply same_thresholds_config, (HashTableRemove_config _ _ _ _ _ Hrm).
  - destruct (HashTableRemoveAll array_ok t) as [[t1 ev]|] eqn:Hrm; [|discriminate].
    simpl in Hstep. injection Hstep as <-.
    apply same_thresholds_config, (HashTableRemoveAll_config _ _ _ _ Hrm).
  - apply same_thresholds_config, (HashTableRehash_config _ _ _ _ Hstep).
  - injection Hstep as <-. repeat split.
  - injection Hstep as <-. repeat split.
  - injection Hstep as <-. repeat split.
  - injection Hstep as <-. repeat split.
Qed.

Lemma run_thresholds (t0 t : HashTable) (ops : list Op) :
  run t0 ops = Some t -> same_thresholds t0 t.
Proof.
  revert t0. induction ops as [|op ops IH]; intros t0 Hrun; simpl in Hrun.
  - injection Hrun as <-. repeat split.
  - destruct (step t0 op) as [t1|] eqn:Hstep; [|discriminate]. simpl in Hrun.
    destruct (step_thresholds _ _ _ Hstep) as (H1 & H2 & H3).
    destruct (IH _ Hrun) as (H1' & H2' & H3').
    repeat split; congruence.
Qed.

(** The thresholds of every table that descends from [HashTableCreate]. *)
Lemma created_thresholds (table_ok array_ok : bool) (n : Z) (t0 t : HashTable)
    (ops : list Op) :
  HashTableCreate table_ok array_ok n = Some (Some t0) -> run t0 ops = Some t ->
  idealRatio t = float_3_0 /\ lowerRehashThreshold t = float_0_0 /\
  upperRehashThreshold t = float_15_0.
Proof.
  intros Hcreate Hrun. apply HashTableCreate_inv in Hcreate as [_ ->].
  destruct (run_thresholds _ _ _ Hrun) as (H1 & H2 & H3).
  rewrite H1, H2, H3. repeat split.
Qed.

Lemma HashTableRemove_no_lower_threshold (array_ok array_ok' : bool)
    (t t' : HashTable) (k : ptr) (ev : list Event) :
  lowerRehashThreshold t = float_0_0 ->
  HashTableRemove array_ok t k = Some (t', ev) ->
  numOfBuckets t' = numOfBuckets t /\
  HashTableRemove array_ok' t k = Some (t', ev).
Proof.
  intros Hlow. unfold HashTableRemove.
  destruct (scan (keycmp t) k (bucket_at (bucketArray t) (hashValue_of t k)))
    as [before [|p next]].
  - intros H. injection H as <- <-. split; reflexivity.
  - cbn [lowerRehashThreshold set_numOfElements store_bucket set_bucketArray].
    rewrite Hlow. change (float_gt float_0_0 float_0_0) with false. cbv iota.
    intros H. injection H as <- <-. split; reflexivity.
Qed.

(** X12: the source has no function that changes the rehash
    thresholds, so the lower one is 0.0 in every table that
    [HashTableCreate] returned, whatever has been done with it since:
    there a remove never rehashes.  The bucket count is the same after
    as before, and no allocation is attempted. *)
Theorem remove_keeps_bucket_count (table_ok array_ok0 array_ok : bool) (n : Z)
    (t0 t t' : HashTable) (ops : list Op) (k : ptr) (ev : list Event) :
  HashTableCreate table_ok array_ok0 n = Some (Some t0) ->
  run t0 ops = Some t ->
  HashTableRemove array_ok t k = Some (t', ev) ->
  HashTableGetNumBuckets t' = HashTableGetNumBuckets t /\
  forall array_ok', HashTableRemove array_ok' t k = Some (t', ev).
Proof.
  intros Hcreate Hrun Hrm.
  destruct (created_thresholds _ _ _ _ _ _ Hcreate Hrun) as (_ & Hlow & _).
  split.
  - apply (HashTableRemove_no_lower_threshold array_ok array_ok t t' k ev Hlow Hrm).
  - intros array_ok'.
    apply (HashTableRemove_no_lower_threshold array_ok array_ok' t t' k ev Hlow Hrm).
Qed.

Lemma remove_keeps_bucket_count_witness :
  HashTableCreate true true 5 = Some (Some (fresh_table 5)) /\
  run (fresh_table 5) sample_ops = Some sample_table /\
  exists t' ev,
    HashTableRemove true sample_table 16 = Some (t', ev) /\
    HashTableGetNumBuckets t' = HashTableGetNumBuckets sample_table /\
    forall array_ok', HashTableRemove array_ok' sample_table 16 = Some (t', ev).
Proof.
  assert (Hcreate : HashTableCreate true true 5 = Some (Some (fresh_table 5)))
    by (apply HashTableCreate_fresh; lia).
  assert (Hrun : run (fresh_table 5) sample_ops = Some sample_table)
    by exact sample_run.
  split; [exact Hcreate|]. split; [exact Hrun|].
  destruct (HashTableRemove true sample_table 16) as [[t' ev]|] eqn:Hrm;
    [|vm_compute in Hrm; discriminate].
  exists t', ev. split; [reflexivity|].
  exact (remove_keeps_bucket_count true true true 5 (fresh_table 5) sample_table t'
           sample_ops 16 ev Hcreate Hrun Hrm).
Defined.

(** ** Teardown *)

Lemma release_fold (t : HashTable) (a : list chain) (ev : list Event) :
  fold_left (fun ev c => ev ++ release_chain t c) a ev
  = ev ++ flat_map (release_chain t) a.
Proof.
  revert ev. induction a as [|c a IH]; intros ev; simpl.
  - rewrite app_nil_r. reflexivity.
  - rewrite IH, app_assoc. reflexivity.
Qed.

Lemma HashTableDestroy_entries (t : HashTable) :
  length (bucketArray t) = Z.to_nat (numOfBuckets t) ->
  HashTableDestroy t = release_chain t (entries t).
Proof.
  intros Hlen. unfold HashTableDestroy, entries. rewrite <- Hlen.
  rewrite (for_loop_read_all (fun c ev => ev ++ release_chain t c)).
  rewrite release_fold. simpl. apply release_chain_concat.
Qed.

Lemma freed_nodes_release_chain (t : HashTable) (l : list KeyValuePair) :
  freed_nodes (release_chain t l) = l.
Proof.
  induction l as [|p l IH]; [reflexivity|].
  unfold release_chain, freed_nodes in *. simpl.
  rewrite !flat_map_app, IH. unfold release.
  destruct (keyDeallocator t), (valueDeallocator t); reflexivity.
Qed.

Lemma released_by_release_chain_all (t : HashTable) (f : funptr)
    (l : list KeyValuePair) :
  released_by f (release_chain t l)
  = flat_map (fun p =>
                (if decide (keyDeallocator t = Some f) then [key p] else [])
                ++ (if decide (valueDeallocator t = Some f) then [value p] else []))
             l.
Proof.
  induction l as [|p l IH]; [reflexivity|].
  unfold release_chain, released_by in *. simpl.
  rewrite !flat_map_app, IH. unfold release.
  destruct (keyDeallocator t) as [kf|], (valueDeallocator t) as [vf|]; simpl;
    repeat match goal with
           | |- context [decide (?x = ?y)] => destruct (decide (x = y))
           | |- context [?x =? ?y] => destruct (Z.eqb_spec x y)
           end;
    simpl; try reflexivity; congruence.
Qed.

(** X14: on a table that satisfies the invariant, [HashTableDestroy]
    walks the entries in the order of the iteration and, for each of
    them, passes its key to the key callback if one is configured, then
    its value to the value callback if one is configured, then frees
    its node; nothing else happens, whichever callbacks are configured
    (none, one, two, or the same function twice).  So every node is
    freed exactly once, and a callback receives exactly the keys or
    values it is configured for.  [HashTableRemoveAll] releases the
    same, in the same order. *)
Theorem destroy_releases_all (t : HashTable) :
  Inv t ->
  HashTableDestroy t
  = flat_map (fun p =>
                match keyDeallocator t with
                | Some f => [EvCall f (key p)]
                | None => []
                end
                ++ match valueDeallocator t with
                   | Some g => [EvCall g (value p)]
                   | None => []
                   end
                ++ [EvFree p])
             (entries t) /\
  freed_nodes (HashTableDestroy t) = entries t /\
  (forall f,
     released_by f (HashTableDestroy t)
     = flat_map (fun p =>
                   (if decide (keyDeallocator t = Some f) then [key p] else [])
                   ++ (if decide (valueDeallocator t = Some f)
                       then [value p] else []))
                (entries t)) /\
  (forall array_ok t' ev,
     HashTableRemoveAll array_ok t = Some (t', ev) -> ev = HashTableDestroy t).
Proof.
  intros Hinv.
  pose proof (HashTableDestroy_entries t (inv_array t Hinv)) as Hd.
  rewrite Hd. split; [reflexivity|]. split; [apply freed_nodes_release_chain|].
  split; [intros f; apply released_by_release_chain_all|].
  intros array_ok t' ev Hrm.
  destruct (HashTableRemoveAll_spec array_ok t (inv_buckets t Hinv) (inv_array t Hinv))
    as (t1 & Hrm1 & _).
  rewrite Hrm in Hrm1. injection Hrm1 as _ ->. apply release_chain_concat.
Qed.

Lemma destroy_releases_all_witness :
  let t := HashTableSetDeallocationFunctions sample_table (Some 1000) (Some 1000) in
  Inv t /\
  HashTableDestroy t
  = [EvCall 1000 96; EvCall 1000 4; EvFree {| key := 96; value := 4 |};
     EvCall 1000 16; EvCall 1000 3; EvFree {| key := 16; value := 3 |};
     EvCall 1000 32; EvCall 1000 2; EvFree {| key := 32; value := 2 |}] /\
  freed_nodes (HashTableDestroy t) = entries t /\
  released_by 1000 (HashTableDestroy t) = [96; 4; 16; 3; 32; 2].
Proof.
  intros t.
  assert (Hinv : Inv t).
  { apply (Inv_same_fields sample_table t Inv_sample); reflexivity. }
  assert (Hentries : entries t = entries sample_table) by reflexivity.
  split; [exact Hinv|].
  destruct (destroy_releases_all t Hinv) as (H1 & H2 & H3 & _).
  split; [rewrite H1, Hentries, sample_entries; reflexivity|].
  split; [exact H2|].
  rewrite (H3 1000), Hentries, sample_entries. reflexivity.
Defined.

(** ** Iteration and lookup *)

Lemma elem_of_visits_from (b : Z) (a : list chain) (x : Z * ptr * ptr) :
  x ∈ visits_from b a <->
  exists (i : nat) (c : chain) (p : KeyValuePair),
    a !! i = Some c /\ p ∈ c /\ x = (b + Z.of_nat i, key p, value p).
Proof.
  revert b. induction a as [|c a IH]; intros b; simpl.
  - split; [intros H; inversion H|intros (i & c & p & H & _); discriminate].
  - rewrite elem_of_app, list_elem_of_fmap, IH. split.
    + intros [(p & -> & Hp)|(i & c' & p & Hi & Hp & ->)].
      * exists O, c, p. split; [reflexivity|]. split; [assumption|].
        f_equal. f_equal. lia.
      * exists (S i), c', p. split; [assumption|]. split; [assumption|].
        f_equal. f_equal. lia.
    + intros (i & c' & p & Hi & Hp & ->). destruct i as [|i]; simpl in Hi.
      * injection Hi as <-. left. exists p. split; [|assumption].
        f_equal. f_equal. lia.
      * right. exists i, c', p. split; [assumption|]. split; [assumption|].
        f_equal. f_equal. lia.
Qed.

(** X15: on a table that satisfies the invariant and whose key
    comparison is an equivalence respected by the hash function, the
    iteration, when its iterator can be allocated, and the lookup
    agree.  Every key that a full iteration yields is looked up to the
    value yielded with it, and is visited in the bucket that its hash
    selects; every key that is looked up to a value is met by the
    iteration, with that value.  When the iterator cannot be allocated
    the iteration yields nothing: [hashTableGetFirst] does not return. *)
Theorem iteration_agrees_with_get (t : HashTable) :
  Inv t -> Strategies_ok t ->
  exists vs,
    full_iteration true (Z.to_nat (HashTableSize t)) t = Some vs /\
    (forall x, x ∈ vs ->
       HashTableGet t (visit_key x) = snd x /\
       visit_bucket x = hashValue_of t (visit_key x)) /\
    (forall k, HashTableGet t k <> NULL ->
       exists x, x ∈ vs /\ keycmp t k (visit_key x) = 0 /\
                 snd x = HashTableGet t k) /\
    (forall fuel, full_iteration false fuel t = None).
Proof.
  intros Hinv Hok. exists (visits t).
  pose proof (Inv_count_entries t Hinv) as Hcount.
  split; [|split; [|split; [|reflexivity]]].
  - apply full_iteration_visits; [apply Hinv|]. unfold HashTableSize. lia.
  - intros x Hx. apply elem_of_visits_from in Hx as (i & c & p & Hi & Hp & ->).
    unfold visit_key, visit_bucket. simpl.
    assert (Hin : p ∈ entries t) by (apply elem_of_entries; eauto).
    split.
    + rewrite HashTableGet_assoc by assumption.
      apply assoc_elem;
        [apply (cmp_sym t Hok)|apply (cmp_trans t Hok)
        |apply Inv_distinct; assumption|assumption|apply (cmp_refl t Hok)].
    + symmetry. apply (inv_place t Hinv i c p Hi Hp).
  - intros k Hget. rewrite HashTableGet_assoc in Hget |- * by assumption.
    unfold assoc in *.
    destruct (find _ (entries t)) as [p|] eqn:Hfind; [|contradiction].
    apply find_some in Hfind as [Hin Heq]. apply Z.eqb_eq in Heq.
    apply list_elem_of_In, elem_of_entries in Hin as (i & c & Hi & Hp).
    exists (Z.of_nat i, key p, value p). split; [|split; [exact Heq|reflexivity]].
    apply elem_of_visits_from. exists i, c, p. split; [assumption|].
    split; [assumption|reflexivity].
Qed.

Lemma iteration_agrees_with_get_witness :
  Inv sample_table /\ Strategies_ok sample_table /\
  exists vs,
    full_iteration true (Z.to_nat (HashTableSize sample_table)) sample_table
    = Some vs /\
    (forall x, x ∈ vs ->
       HashTableGet sample_table (visit_key x) = snd x /\
       visit_bucket x = hashValue_of sample_table (visit_key x)) /\
    (forall k, HashTableGet sample_table k <> NULL ->
       exists x, x ∈ vs /\ keycmp sample_table k (visit_key x) = 0 /\
                 snd x = HashTableGet sample_table k) /\
    (forall fuel, full_iteration false fuel sample_table = None).
Proof.
  split; [exact Inv_sample|]. split; [exact Strategies_ok_sample|].
  exact (iteration_agrees_with_get sample_table Inv_sample Strategies_ok_sample).
Defined.

(** X16: on a table that satisfies the invariant, a rehash changes the
    order of the iteration and nothing else of it.  For every requested
    bucket count that is not negative, and whether or not the new bucket
    array can be allocated, the entries that a full iteration (with its
    iterator allocated) yields after the rehash are those it yields
    before, each exactly as often, and each is met in the bucket that
    its hash selects among the buckets there are now. *)
Theorem rehash_permutes_iteration (array_ok : bool) (t : HashTable) (n : Z) :
  Inv t -> 0 <= n ->
  exists t' vs vs',
    HashTableRehash array_ok t n = Some t' /\
    full_iteration true (Z.to_nat (HashTableSize t)) t = Some vs /\
    full_iteration true (Z.to_nat (HashTableSize t')) t' = Some vs' /\
    map (fun x => {| key := visit_key x; value := snd x |}) vs'
    ≡ₚ map (fun x => {| key := visit_key x; value := snd x |}) vs /\
    (forall x, x ∈ vs' -> visit_bucket x = hashValue_of t' (visit_key x)).
Proof.
  intros Hinv Hn.
  destruct (HashTableRehash_spec array_ok t n Hinv Hn)
    as (t' & Hrehash & Hinv' & _ & Hperm & _).
  exists t', (visits t), (visits t').
  pose proof (Inv_count_entries t Hinv) as Hcount.
  pose proof (Inv_count_entries t' Hinv') as Hcount'.
  split; [exact Hrehash|].
  split; [apply full_iteration_visits; [apply Hinv|unfold HashTableSize; lia]|].
  split; [apply full_iteration_visits; [apply Hinv'|unfold HashTableSize; lia]|].
  split.
  - unfold visits. rewrite !visits_from_entries. exact Hperm.
  - intros x Hx. apply elem_of_visits_from in Hx as (i & c & p & Hi & Hp & ->).
    unfold visit_key, visit_bucket. simpl. symmetry.
    apply (inv_place t' Hinv' i c p Hi Hp).
Qed.

Lemma rehash_permutes_iteration_witness :
  Inv sample_table /\ 0 <= 3 /\
  exists t' vs vs',
    HashTableRehash true sample_table 3 = Some t' /\
    full_iteration true (Z.to_nat (HashTableSize sample_table)) sample_table
    = Some vs /\
    full_iteration true (Z.to_nat (HashTableSize t')) t' = Some vs' /\
    map (fun x => {| key := visit_key x; value := snd x |}) vs'
    ≡ₚ map (fun x => {| key := visit_key x; value := snd x |}) vs /\
    (forall x, x ∈ vs' -> visit_bucket x = hashValue_of t' (visit_key x)).
Proof.
  split; [exact Inv_sample|]. split; [lia|].
  apply (rehash_permutes_iteration true sample_table 3 Inv_sample). lia.
Defined.

(** ** Single precision: the load factor *)

Lemma new_location_spec (m2 r : Z) :
  0 < m2 -> 0 <= r < m2 ->
  match new_location m2 r with
  | loc_Exact => r = 0
  | loc_Inexact Lt => 0 < 2 * r < m2
  | loc_Inexact Eq => 2 * r = m2
  | loc_Inexact Gt => m2 < 2 * r
  end.
Proof.
  intros Hm Hr. unfold new_location, new_location_even, new_location_odd.
  destruct (Z.even m2) eqn:Heven.
  - destruct (Z.eqb_spec r 0); [assumption|].
    destruct (Z.compare_spec (2 * r) m2); lia.
  - destruct (Z.eqb_spec r 0); [assumption|].
    assert (Hodd : exists j, m2 = 2 * j + 1).
    { rewrite <- Z.negb_odd in Heven. apply negb_false_iff in Heven.
      apply Zodd_bool_iff, Zodd_ex in Heven. exact Heven. }
    destruct Hodd as [j ->].
    destruct (Z.compare_spec (2 * r + 1) (2 * j + 1)); lia.
Qed.

(** Rounding the quotient [q] of a division by [m2] with remainder [r]:
    the result is a nearest 24-digit significand. *)
Lemma binary_round_aux_nearest (q : positive) (e m2 r : Z) :
  2 ^ 23 <= Z.pos q <= 2 ^ 25 - 2 -> -100 <= e <= 0 ->
  0 < m2 -> 0 <= r < m2 ->
  exists (mr : positive) (er : Z),
    binary_round_aux 24 128 false (Z.pos q) e (new_location m2 r)
    = S754_finite false mr er /\
    Z.pos (digits2_pos mr) = 24 /\
    ((er = e /\
      Z.abs (2 * (Z.pos mr * m2) - 2 * (Z.pos q * m2 + r)) <= m2) \/
     (er = e + 1 /\
      Z.abs (2 * (Z.pos mr * m2) - (Z.pos q * m2 + r)) <= m2)).
Proof.
  intros Hq He Hm2 Hr.
  pose proof (new_location_spec m2 r Hm2 Hr) as Hloc.
  destruct (digits2_pos_24_or_25 q) as [[Hd Hlt]|[Hd Hge]]; [lia| |].
  - unfold binary_round_aux. rewrite shr_fexp_24 by (assumption || lia).
    set (m1 := round_nearest_even _ _).
    assert (Hm1 : Z.pos q <= m1 <= Z.pos q + 1 /\
                  Z.abs (2 * (m1 * m2) - 2 * (Z.pos q * m2 + r)) <= m2).
    { subst m1. destruct (new_location m2 r) as [|[]]; cbn -[Z.add Z.even Z.mul];
        try destruct (Z.even (Z.pos q)); split; lia. }
    destruct Hm1 as [Hm1 Hnear].
    destruct m1 as [|p1|p1]; [lia| |lia].
    destruct (Z.lt_ge_cases (Z.pos p1) (2 ^ 24)) as [Hp1|Hp1].
    + assert (Hd1 : Z.pos (digits2_pos p1) = 24)
        by (apply digits2_pos_unique; simpl (24 - 1); lia).
      rewrite shr_fexp_24; [|exact Hd1|lia].
      cbn [shr_record_of_loc shr_m].
      destruct (Z.leb_spec e (128 - 24)); [|lia].
      exists p1, e. split; [reflexivity|]. split; [exact Hd1|]. left.
      split; [reflexivity|exact Hnear].
    + assert (Hp1' : p1 = 16777216%positive)
        by (change (2 ^ 24) with 16777216 in *; lia).
      subst p1.
      rewrite shr_fexp_25; [|reflexivity|lia].
      cbn [shr_record_of_loc shr_1 shr_m orb].
      destruct (Z.leb_spec (e + 1) (128 - 24)); [|lia].
      exists 8388608%positive, (e + 1). split; [reflexivity|].
      split; [reflexivity|]. right. split; [reflexivity|]. lia.
  - unfold binary_round_aux. rewrite shr_fexp_25 by (assumption || lia).
    set (mrs := shr_1 _).
    set (m1 := round_nearest_even _ _).
    assert (Hm1 : Z.abs (2 * (m1 * m2) - (Z.pos q * m2 + r)) <= m2 /\
                  2 ^ 23 <= m1 < 2 ^ 24).
    { subst m1 mrs. change (2 ^ 23) with 8388608 in *.
      change (2 ^ 24) with 16777216 in *. change (2 ^ 25 - 2) with 33554430 in *.
      destruct q as [p|p|]; [| |lia];
        destruct (new_location m2 r) as [|[]]; cbn -[Z.add Z.even Z.mul];
        try destruct (Z.even (Z.pos p)); split; lia. }
    destruct Hm1 as (Hnear & Hrange).
    destruct m1 as [|p1|p1]; [lia| |lia].
    assert (Hd1 : Z.pos (digits2_pos p1) = 24)
      by (apply digits2_pos_unique; simpl (24 - 1); lia).
    rewrite shr_fexp_24; [|exact Hd1|lia].
    cbn [shr_record_of_loc shr_m].
    destruct (Z.leb_spec (e + 1) (128 - 24)); [|lia].
    exists p1, (e + 1). split; [reflexivity|]. split; [exact Hd1|]. right.
    split; [reflexivity|exact Hnear].
Qed.

(** The quotient of two 24-digit significands. *)
Lemma float_div_nearest (m1 m2 : positive) (e1 e2 : Z) :
  Z.pos (digits2_pos m1) = 24 -> Z.pos (digits2_pos m2) = 24 ->
  -23 <= e1 <= 0 -> -23 <= e2 <= 0 ->
  exists (mr : positive) (er : Z),
    float_div (S754_finite false m1 e1) (S754_finite false m2 e2)
    = S754_finite false mr er /\
    Z.pos (digits2_pos mr) = 24 /\
    ((er = e1 - e2 - 24 /\
      Z.abs (2 * (Z.pos mr * Z.pos m2) - 2 * (Z.pos m1 * 2 ^ 24)) <= Z.pos m2) \/
     (er = e1 - e2 - 23 /\
      Z.abs (2 * (Z.pos mr * Z.pos m2) - Z.pos m1 * 2 ^ 24) <= Z.pos m2)).
Proof.
  intros Hd1 Hd2 He1 He2.
  pose proof (digits2_pos_bounds m1) as Hm1. rewrite Hd1 in Hm1.
  pose proof (digits2_pos_bounds m2) as Hm2. rewrite Hd2 in Hm2.
  change (2 ^ (24 - 1)) with 8388608 in *. change (2 ^ 24) with 16777216 in *.
  unfold float_div, SFdiv, SFdiv_core_binary.
  cbn [Zdigits2 xorb]. rewrite Hd1, Hd2.
  assert (Hmin : Z.min (fexp 24 128 (24 + e1 - (24 + e2))) (e1 - e2) = e1 - e2 - 24).
  { unfold fexp, emin. lia. }
  rewrite Hmin. replace (e1 - e2 - (e1 - e2 - 24)) with 24 by lia.
  assert (Hshift : Z.shiftl (Z.pos m1) 24 = Z.pos m1 * 16777216).
  { rewrite Z.shiftl_mul_pow2 by lia. reflexivity. }
  rewrite Hshift.
  pose proof (Z_div_mod (Z.pos m1 * 16777216) (Z.pos m2) ltac:(lia)) as Hdiv.
  destruct (Z.div_eucl (Z.pos m1 * 16777216) (Z.pos m2)) as [q r].
  destruct Hdiv as [Hqr Hr].
  assert (Hq : 8388608 <= q <= 33554430) by nia.
  destruct q as [|qp|qp]; [lia| |lia].
  destruct (binary_round_aux_nearest qp (e1 - e2 - 24) (Z.pos m2) r)
    as (mr & er & Hround & Hdr & Hcases).
  - change (2 ^ 23) with 8388608. change (2 ^ 25 - 2) with 33554430. lia.
  - lia.
  - lia.
  - lia.
  - exists mr, er. split; [exact Hround|]. split; [exact Hdr|].
    replace (Z.pos qp * Z.pos m2 + r) with (Z.pos m1 * 16777216) in Hcases by lia.
    destruct Hcases as [[-> Hb]|[-> Hb]]; [left|right]; split; lia.
Qed.

Lemma float_gt_15 (mr : positive) (er : Z) :
  Z.pos (digits2_pos mr) = 24 -> er <= 0 ->
  (float_gt (S754_finite false mr er) float_15_0 = true <->
   15 * 2 ^ (- er) < Z.pos mr).
Proof.
  intros Hd Her.
  pose proof (digits2_pos_bounds mr) as Hm. rewrite Hd in Hm.
  change (2 ^ (24 - 1)) with 8388608 in Hm. change (2 ^ 24) with 16777216 in Hm.
  unfold float_gt, float_15_0, SFltb, SFcompare.
  destruct (Z.compare_spec (-20) er) as [Heq|Hlt|Hgt].
  - subst er. change (2 ^ (- -20)) with 1048576.
    change (Pos.compare_cont Eq 15728640 mr) with (Pos.compare 15728640 mr).
    rewrite Pos2Z.inj_compare.
    destruct (Z.compare_spec (Z.pos 15728640) (Z.pos mr)) as [H|H|H].
    + split; [intros H'; discriminate H'|intros H'; exfalso; lia].
    + split; [intros _; lia|intros _; reflexivity].
    + split; [intros H'; discriminate H'|intros H'; exfalso; lia].
  - assert (2 ^ (- er) <= 2 ^ 19) by (apply Z.pow_le_mono_r; lia).
    change (2 ^ 19) with 524288 in *. split; [intros _; lia|reflexivity].
  - assert (2 ^ 21 <= 2 ^ (- er)) by (apply Z.pow_le_mono_r; lia).
    change (2 ^ 21) with 2097152 in *. split; [discriminate|lia].
Qed.

Lemma load_arith (mr nb m S : Z) :
  0 < S -> 0 < nb < 2 * S ->
  Z.abs (2 * (mr * nb) - 2 * (m * S)) <= nb ->
  (15 * S < mr <-> 15 * nb < m).
Proof.
  intros HS Hnb Hnear. split; intros H.
  - assert (H1 : (15 * S + 1) * nb <= mr * nb)
      by (apply Z.mul_le_mono_nonneg_r; lia).
    assert (H2 : 15 * nb * S < m * S) by lia.
    apply Z.mul_lt_mono_pos_r in H2; lia.
  - destruct (Z.lt_ge_cases (15 * S) mr) as [Hok|Hle]; [assumption|exfalso].
    assert (H1 : mr * nb <= 15 * S * nb)
      by (apply Z.mul_le_mono_nonneg_r; lia).
    assert (H2 : (15 * nb + 1) * S <= m * S)
      by (apply Z.mul_le_mono_nonneg_r; lia).
    lia.
Qed.

Lemma digits2_pos_range (p : positive) :
  Z.pos p < 2 ^ 24 -> 1 <= Z.pos (digits2_pos p) <= 24.
Proof.
  intros Hp. pose proof (digits2_pos_bounds p) as [Hlo _].
  split; [lia|].
  destruct (Z.le_gt_cases (Z.pos (digits2_pos p)) 24) as [H|H]; [assumption|].
  assert (2 ^ 24 <= 2 ^ (Z.pos (digits2_pos p) - 1))
    by (apply Z.pow_le_mono_r; lia).
  lia.
Qed.

(** With fewer than 2^24 elements and buckets, the single-precision
    ratio of elements to buckets exceeds 15.0 exactly when there are
    more than 15 elements to a bucket. *)
Lemma load_factor_above_15 (m nb : Z) :
  0 < m < 2 ^ 24 -> 0 < nb < 2 ^ 24 ->
  (float_gt (float_div (float_of_long m) (float_of_long nb)) float_15_0 = true
   <-> 15 * nb < m).
Proof.
  intros Hm Hnb.
  destruct m as [|pm|pm]; [lia| |lia]. destruct nb as [|pn|pn]; [lia| |lia].
  destruct (float_of_long_exact pm) as (m1 & Hc1 & Hv1 & Hd1); [lia|].
  destruct (float_of_long_exact pn) as (m2 & Hc2 & Hv2 & Hd2); [lia|].
  pose proof (digits2_pos_range pm ltac:(lia)) as Hr1.
  pose proof (digits2_pos_range pn ltac:(lia)) as Hr2.
  pose proof (digits2_pos_bounds pn) as [_ Hpn].
  set (d1 := Z.pos (digits2_pos pm)) in *.
  set (d2 := Z.pos (digits2_pos pn)) in *.
  destruct (float_div_nearest m1 m2 (d1 - 24) (d2 - 24) Hd1 Hd2)
    as (mr & er & Hdiv & Hdr & Hcases); [lia|lia|].
  rewrite Hc1, Hc2, Hdiv.
  set (K2 := 2 ^ (24 - d2)) in *.
  assert (HK2 : 0 < K2) by (apply Z.pow_pos_nonneg; lia).
  assert (Hscale : forall s, 0 <= s -> s + (24 - d2) = 48 - d1 ->
                     Z.pos m1 * 2 ^ 24 = Z.pos pm * 2 ^ s * K2).
  { intros s Hs Hsum. rewrite Hv1. unfold K2.
    rewrite <- !Z.mul_assoc, <- !Z.pow_add_r by lia.
    f_equal. f_equal. lia. }
  destruct Hcases as [[Her Hnear]|[Her Hnear]].
  - rewrite float_gt_15 by (assumption || lia).
    replace (- er) with (24 + d2 - d1) by lia.
    set (S := 2 ^ (24 + d2 - d1)).
    assert (HS : 0 < S) by (apply Z.pow_pos_nonneg; lia).
    assert (HSd : 2 ^ d2 <= S) by (apply Z.pow_le_mono_r; lia).
    apply load_arith; [assumption|lia|].
    rewrite (Hscale (24 + d2 - d1)), Hv2 in Hnear by lia. fold S in Hnear.
    replace (2 * (Z.pos mr * (Z.pos pn * K2)) - 2 * (Z.pos pm * S * K2))
      with ((2 * (Z.pos mr * Z.pos pn) - 2 * (Z.pos pm * S)) * K2) in Hnear by ring.
    rewrite Z.abs_mul, (Z.abs_eq K2) in Hnear by lia.
    apply Z.mul_le_mono_pos_r in Hnear; assumption.
  - rewrite float_gt_15 by (assumption || lia).
    replace (- er) with (23 + d2 - d1) by lia.
    set (S := 2 ^ (23 + d2 - d1)).
    assert (HS : 0 < S) by (apply Z.pow_pos_nonneg; lia).
    assert (HSd : 2 ^ d2 <= 2 * S).
    { unfold S. rewrite <- Z.pow_succ_r by lia. apply Z.pow_le_mono_r; lia. }
    apply load_arith; [assumption|lia|].
    assert (Hs : Z.pos m1 * 2 ^ 24 = 2 * (Z.pos pm * S) * K2).
    { rewrite (Hscale (24 + d2 - d1)) by lia. unfold S.
      replace (24 + d2 - d1) with (Z.succ (23 + d2 - d1)) by lia.
      rewrite Z.pow_succ_r by lia. ring. }
    rewrite Hs, Hv2 in Hnear.
    replace (2 * (Z.pos mr * (Z.pos pn * K2)) - 2 * (Z.pos pm * S) * K2)
      with ((2 * (Z.pos mr * Z.pos pn) - 2 * (Z.pos pm * S)) * K2) in Hnear by ring.
    rewrite Z.abs_mul, (Z.abs_eq K2) in Hnear by lia.
    apply Z.mul_le_mono_pos_r in Hnear; assumption.
Qed.

(** ** The automatic rehash of a put *)

Lemma calculateIdealNumOfBuckets_fields (t t' : HashTable) :
  numOfElements t' = numOfElements t -> idealRatio t' = idealRatio t ->
  calculateIdealNumOfBuckets t' = calculateIdealNumOfBuckets t.
Proof.
  intros Hn Hr.
  unfold calculateIdealNumOfBuckets, calculateIdealNumOfBuckets_fuel, ideal_start.
  rewrite Hn, Hr. reflexivity.
Qed.

(** With the ratio 3.0 the count chosen is at least a third of the
    element count. *)
Lemma calculateIdealNumOfBuckets_third (t : HashTable) :
  idealRatio t = float_3_0 -> 0 <= numOfElements t < 2 ^ 24 ->
  numOfElements t / 3 <= calculateIdealNumOfBuckets t.
Proof.
  intros Hratio Hn.
  pose proof (ideal_start_cases t) as Hstart. cbv zeta in Hstart.
  rewrite Hratio, quotient_by_3_0 in Hstart by assumption.
  destruct (ideal_search_steps t) as (steps & _ & _ & _ & _ & ->).
  rewrite Hstart.
  destruct (Z.ltb_spec (numOfElements t / 3) 5); [lia|].
  destruct (Z.odd (numOfElements t / 3)); lia.
Qed.

Lemma HashTablePut_new_threshold (array_ok : bool) (t : HashTable) (k v : ptr)
    (before : chain) :
  k <> NULL -> v <> NULL ->
  scan (keycmp t) k (bucket_at (bucketArray t) (hashValue_of t k)) = (before, []) ->
  idealRatio t = float_3_0 -> upperRehashThreshold t = float_15_0 ->
  0 <= numOfElements t -> numOfElements t + 1 < 2 ^ 24 ->
  0 < numOfBuckets t < 2 ^ 24 ->
  let t1 :=
    set_numOfElements
      (store_bucket t (hashValue_of t k)
         ({| key := k; value := v |} :: bucket_at (bucketArray t) (hashValue_of t k)))
      (numOfElements t + 1) in
  HashTablePut true array_ok t k v
  = if 15 * numOfBuckets t <? numOfElements t + 1
    then t2 ← HashTableRehash array_ok t1 0; Some (0, t2, [])
    else Some (0, t1, []).
Proof.
  intros Hk Hv Hscan Hideal Hupper Hn0 Hn Hnb t1. unfold HashTablePut.
  destruct (Z.eqb_spec k NULL); [contradiction|].
  destruct (Z.eqb_spec v NULL); [contradiction|]. simpl. rewrite Hscan.
  fold t1.
  change (upperRehashThreshold t1) with (upperRehashThreshold t).
  change (idealRatio t1) with (idealRatio t).
  change (numOfElements t1) with (numOfElements t + 1).
  change (numOfBuckets t1) with (numOfBuckets t).
  rewrite Hupper, Hideal.
  change (float_gt float_15_0 float_3_0) with true. cbv iota.
  pose proof (load_factor_above_15 (numOfElements t + 1) (numOfBuckets t)
                ltac:(lia) Hnb) as Hload.
  destruct (float_gt _ float_15_0); destruct (Z.ltb_spec (15 * numOfBuckets t)
                                                (numOfElements t + 1));
    try reflexivity; exfalso.
  - assert (15 * numOfBuckets t < numOfElements t + 1) by (apply Hload; reflexivity).
    lia.
  - assert (false = true) by (apply Hload; assumption). discriminate.
Qed.

(** The growth of the table by a put of a new key. *)
Lemma HashTablePut_growth (array_ok : bool) (t : HashTable) (k v : ptr) :
  Inv t -> Strategies_ok t -> k <> NULL -> v <> NULL ->
  (forall p, p ∈ entries t -> keycmp t k (key p) <> 0) ->
  idealRatio t = float_3_0 -> upperRehashThreshold t = float_15_0 ->
  numOfElements t + 1 < 2 ^ 24 -> numOfBuckets t < 2 ^ 24 ->
  exists t',
    HashTablePut true array_ok t k v = Some (0, t', []) /\
    HashTableSize t' = HashTableSize t + 1 /\
    (HashTableSize t + 1 <= 15 * HashTableGetNumBuckets t ->
     HashTableGetNumBuckets t' = HashTableGetNumBuckets t) /\
    (15 * HashTableGetNumBuckets t < HashTableSize t + 1 ->
     HashTableGetNumBuckets t'
     = (if array_ok then calculateIdealNumOfBuckets t'
        else HashTableGetNumBuckets t) /\
     (array_ok = true ->
      5 * HashTableGetNumBuckets t <= HashTableGetNumBuckets t' /\
      HashTableSize t' <= 3 * HashTableGetNumBuckets t' + 2)).
Proof.
  intros Hinv Hok Hk Hv Habsent Hideal Hupper Hn Hnb.
  unfold HashTableSize, HashTableGetNumBuckets.
  pose proof (inv_buckets t Hinv) as Hnb0.
  assert (Hn0 : 0 <= numOfElements t) by (rewrite (inv_count t Hinv); lia).
  destruct (scan (keycmp t) k (bucket_at (bucketArray t) (hashValue_of t k)))
    as [before [|p next]] eqn:Hscan.
  2: { exfalso. apply scan_spec in Hscan as (Hc & _ & Heq).
       apply (Habsent p); [|exact Heq].
       apply (bucket_subset_entries t (hashValue_of t k)). rewrite Hc.
       apply elem_of_app. right. left. }
  pose proof (HashTablePut_new_threshold array_ok t k v before Hk Hv Hscan
                Hideal Hupper Hn0 Hn ltac:(lia)) as Hput.
  cbv zeta in Hput.
  set (t1 := set_numOfElements _ _) in Hput.
  destruct (Z.ltb_spec (15 * numOfBuckets t) (numOfElements t + 1)) as [Hgrow|Hstay].
  - assert (Hinv1 : Inv t1).
    { destruct (HashTablePut_spec true false t k v Hinv Hok Hk Hv)
        as (r & t' & ev & Hput' & Hinv' & _).
      rewrite (HashTablePut_new_threshold false t k v before Hk Hv Hscan
                 Hideal Hupper Hn0 Hn ltac:(lia)) in Hput'.
      cbv zeta in Hput'. fold t1 in Hput'.
      destruct (Z.ltb_spec (15 * numOfBuckets t) (numOfElements t + 1)); [|lia].
      rewrite HashTableRehash_no_memory in Hput' by lia. simpl in Hput'.
      injection Hput' as _ <- _. exact Hinv'. }
    destruct (HashTableRehash_spec array_ok t1 0 Hinv1 ltac:(lia))
      as (t' & Hrehash & _ & Hcfg & _ & Hcount & _ & Hideal').
    rewrite Hrehash in Hput. simpl in Hput.
    exists t'. split; [exact Hput|]. split; [rewrite Hcount; reflexivity|].
    split; [intros Hle; lia|]. intros _.
    assert (Hcalc : calculateIdealNumOfBuckets t' = calculateIdealNumOfBuckets t1).
    { apply calculateIdealNumOfBuckets_fields; [exact Hcount|apply Hcfg]. }
    destruct array_ok.
    + specialize (Hideal' eq_refl). simpl in Hideal'.
      split; [rewrite Hcalc; exact Hideal'|]. intros _.
      pose proof (calculateIdealNumOfBuckets_third t1 Hideal ltac:(simpl; lia))
        as Hthird.
      change (numOfElements t1) with (numOfElements t + 1) in Hthird.
      rewrite Hideal', Hcount.
      change (numOfElements t1) with (numOfElements t + 1).
      pose proof (Z.div_mod (numOfElements t + 1) 3 ltac:(lia)) as Hdm.
      pose proof (Z.mod_pos_bound (numOfElements t + 1) 3 ltac:(lia)) as Hmod.
      split; lia.
    + rewrite HashTableRehash_no_memory in Hrehash by lia.
      injection Hrehash as <-. split; [reflexivity|discriminate].
  - exists t1. split; [exact Hput|]. split; [reflexivity|].
    split; [reflexivity|]. intros Hgrow. lia.
Qed.

(** X17: the growth policy of a put, for a table with the thresholds of
    [HashTableCreate] and fewer than 2^24 elements and buckets.  A put
    of a new key rehashes exactly when it brings the table above 15
    elements per bucket.  Below that the bucket count stays.  Above it,
    the bucket count becomes the ideal one if the new bucket array can
    be allocated, which is at least 5 times the old count and leaves at
    most 3 elements per bucket, up to 2 elements; if it cannot, the
    bucket count stays and the put succeeds all the same. *)
Theorem put_rehashes_above_15 (array_ok : bool) (t : HashTable) (k v : ptr) :
  Inv t -> Strategies_ok t -> k <> NULL -> v <> NULL ->
  (forall p, p ∈ entries t -> keycmp t k (key p) <> 0) ->
  idealRatio t = float_3_0 -> upperRehashThreshold t = float_15_0 ->
  numOfElements t + 1 < 2 ^ 24 -> numOfBuckets t < 2 ^ 24 ->
  exists t',
    HashTablePut true array_ok t k v = Some (0, t', []) /\
    HashTableSize t' = HashTableSize t + 1 /\
    (HashTableSize t + 1 <= 15 * HashTableGetNumBuckets t ->
     HashTableGetNumBuckets t' = HashTableGetNumBuckets t) /\
    (15 * HashTableGetNumBuckets t < HashTableSize t + 1 ->
     HashTableGetNumBuckets t'
     = (if array_ok then calculateIdealNumOfBuckets t'
        else HashTableGetNumBuckets t) /\
     (array_ok = true ->
      5 * HashTableGetNumBuckets t <= HashTableGetNumBuckets t' /\
      HashTableSize t' <= 3 * HashTableGetNumBuckets t' + 2)).
Proof. exact (HashTablePut_growth array_ok t k v). Qed.

Lemma crowded_run : run (fresh_table 1) crowded_ops = Some crowded_table.
Proof. vm_compute. reflexivity. Qed.

Lemma Inv_crowded : Inv crowded_table.
Proof.
  apply (run_Inv (fresh_table 1) crowded_table crowded_ops).
  - apply Inv_fresh. lia.
  - apply disciplined_without_setters;
      [apply Inv_fresh; lia|apply Strategies_ok_fresh|reflexivity].
  - exact crowded_run.
Qed.

Lemma Strategies_ok_crowded : Strategies_ok crowded_table.
Proof. apply Strategies_ok_pointer; reflexivity. Qed.

Lemma crowded_absent (p : KeyValuePair) :
  p ∈ entries crowded_table -> keycmp crowded_table 256 (key p) <> 0.
Proof.
  intros Hp.
  assert (H : forallb (fun p => negb (keycmp crowded_table 256 (key p) =? 0))
                      (entries crowded_table) = true)
    by (vm_compute; reflexivity).
  rewrite forallb_forall in H. apply list_elem_of_In in Hp.
  specialize (H p Hp). apply negb_true_iff, Z.eqb_neq in H. exact H.
Qed.

Lemma put_rehashes_above_15_witness :
  Inv crowded_table /\ Strategies_ok crowded_table /\ 256 <> NULL /\ 16 <> NULL /\
  (forall p, p ∈ entries crowded_table -> keycmp crowded_table 256 (key p) <> 0) /\
  idealRatio crowded_table = float_3_0 /\
  upperRehashThreshold crowded_table = float_15_0 /\
  numOfElements crowded_table + 1 < 2 ^ 24 /\ numOfBuckets crowded_table < 2 ^ 24 /\
  exists t',
    HashTablePut true true crowded_table 256 16 = Some (0, t', []) /\
    HashTableSize t' = HashTableSize crowded_table + 1 /\
    (HashTableSize crowded_table + 1 <= 15 * HashTableGetNumBuckets crowded_table ->
     HashTableGetNumBuckets t' = HashTableGetNumBuckets crowded_table) /\
    (15 * HashTableGetNumBuckets crowded_table < HashTableSize crowded_table + 1 ->
     HashTableGetNumBuckets t' = calculateIdealNumOfBuckets t' /\
     (true = true ->
      5 * HashTableGetNumBuckets crowded_table <= HashTableGetNumBuckets t' /\
      HashTableSize t' <= 3 * HashTableGetNumBuckets t' + 2)).
Proof.
  assert (Hk : 256 <> NULL) by discriminate.
  assert (Hv : 16 <> NULL) by discriminate.
  assert (Hideal : idealRatio crowded_table = float_3_0) by reflexivity.
  assert (Hupper : upperRehashThreshold crowded_table = float_15_0) by reflexivity.
  assert (Hn : numOfElements crowded_table + 1 < 2 ^ 24) by (vm_compute; reflexivity).
  assert (Hnb : numOfBuckets crowded_table < 2 ^ 24) by (vm_compute; reflexivity).
  split; [exact Inv_crowded|]. split; [exact Strategies_ok_crowded|].
  split; [exact Hk|]. split; [exact Hv|]. split; [exact crowded_absent|].
  split; [exact Hideal|]. split; [exact Hupper|]. split; [exact Hn|].
  split; [exact Hnb|].
  exact (put_rehashes_above_15 true crowded_table 256 16 Inv_crowded
           Strategies_ok_crowded Hk Hv crowded_absent Hideal Hupper Hn Hnb).
Defined.

(** ** Clearing without memory *)

(** X13: on a table that satisfies the invariant, [HashTableRemoveAll]
    empties the table also when the bucket array of its final rehash to
    5 buckets cannot be allocated: it releases what it releases when
    memory is available and frees every node once, the size is 0, no
    key is found, [hashTableGetFirst] (with its iterator allocated)
    returns [NULL], the invariant holds, and the bucket count is the one
    from before. *)
Theorem removeAll_without_memory (t : HashTable) :
  Inv t ->
  exists t' ev,
    HashTableRemoveAll false t = Some (t', ev) /\
    (forall t'' ev', HashTableRemoveAll true t = Some (t'', ev') -> ev' = ev) /\
    freed_nodes ev = entries t /\
    HashTableGetNumBuckets t' = HashTableGetNumBuckets t /\
    HashTableSize t' = 0 /\
    (forall k, HashTableGet t' k = NULL) /\
    hashTableGetFirst true t' = Some None /\
    Inv t'.
Proof.
  intros Hinv.
  destruct (HashTableRemoveAll_spec false t (inv_buckets t Hinv) (inv_array t Hinv))
    as (t' & Hrm & Hinv' & _ & Hnil & Hzero & _).
  exists t', (flat_map (release_chain t) (bucketArray t)).
  split; [exact Hrm|]. split; [|split; [|split; [|split; [exact Hzero|split; [|split; [|exact Hinv']]]]]].
  - intros t'' ev' Hrm'.
    destruct (HashTableRemoveAll_spec true t (inv_buckets t Hinv) (inv_array t Hinv))
      as (t1 & Hrm1 & _).
    rewrite Hrm' in Hrm1. injection Hrm1 as _ ->. reflexivity.
  - rewrite release_chain_concat. apply freed_nodes_release_chain.
  - unfold HashTableRemoveAll in Hrm.
    destruct (for_loop _ _ _ _) as [a1 ev1].
    rewrite HashTableRehash_no_memory in Hrm by lia.
    simpl in Hrm. injection Hrm as <- _. reflexivity.
  - intros k. apply HashTableGet_no_entries; assumption.
  - apply getFirst_no_entries; [apply Hinv'|assumption].
Qed.

Lemma removeAll_without_memory_witness :
  Inv crowded_table /\ HashTableGetNumBuckets crowded_table = 1 /\
  HashTableSize crowded_table = 15 /\
  exists t' ev,
    HashTableRemoveAll false crowded_table = Some (t', ev) /\
    (forall t'' ev',
        HashTableRemoveAll true crowded_table = Some (t'', ev') -> ev' = ev) /\
    freed_nodes ev = entries crowded_table /\
    HashTableGetNumBuckets t' = HashTableGetNumBuckets crowded_table /\
    HashTableSize t' = 0 /\
    (forall k, HashTableGet t' k = NULL) /\
    hashTableGetFirst true t' = Some None /\
    Inv t'.
Proof.
  split; [exact Inv_crowded|]. split; [reflexivity|]. split; [reflexivity|].
  exact (removeAll_without_memory crowded_table Inv_crowded).
Defined.

(** ** Default strategies *)

Lemma step_strategy_fields (t t' : HashTable) (op : Op) :
  keeps_strategies op = true -> step t op = Some t' ->
  keycmp t' = keycmp t /\ hashFunction t' = hashFunction t.
Proof.
  destruct op as [entry_ok array_ok k v|k|array_ok k|array_ok|array_ok n
                 |f|f|f|kd vd]; simpl; intros Hkeep Hstep; try discriminate.
  - destruct (HashTablePut entry_ok array_ok t k v) as [[[r t1] ev]|] eqn:Hput;
      [|discriminate].
    simpl in Hstep. injection Hstep as <-.
    pose proof (HashTablePut_config _ _ _ _ _ _ _ _ Hput) as Hcfg.
    split; apply Hcfg.
  - injection Hstep as <-. split; reflexivity.
  - destruct (HashTableRemove array_ok t k) as [[t1 ev]|] eqn:Hrm; [|discriminate].
    simpl in Hstep. injection Hstep as <-.
    pose proof (HashTableRemove_config _ _ _ _ _ Hrm) as Hcfg. split; apply Hcfg.
  - destruct (HashTableRemoveAll array_ok t) as [[t1 ev]|] eqn:Hrm; [|discriminate].
    simpl in Hstep. injection Hstep as <-.
    pose proof (HashTableRemoveAll_config _ _ _ _ Hrm) as Hcfg. split; apply Hcfg.
  - pose proof (HashTableRehash_config _ _ _ _ Hstep) as Hcfg. split; apply Hcfg.
  - injection Hstep as <-. split; reflexivity.
  - injection Hstep as <-. split; reflexivity.
Qed.

Lemma run_strategy_fields (t0 t : HashTable) (ops : list Op) :
  forallb keeps_strategies ops = true -> run t0 ops = Some t ->
  keycmp t = keycmp t0 /\ hashFunction t = hashFunction t0.
Proof.
  revert t0. induction ops as [|op ops IH]; intros t0 Hkeep Hrun; simpl in *.
  - injection Hrun as <-. split; reflexivity.
  - apply andb_true_iff in Hkeep as [Hop Hkeep].
    destruct (step t0 op) as [t1|] eqn:Hstep; [|discriminate]. simpl in Hrun.
    destruct (step_strategy_fields _ _ _ Hop Hstep) as [H1 H2].
    destruct (IH _ Hkeep Hrun) as [H1' H2']. split; congruence.
Qed.

(** X18: a table that [HashTableCreate] returned and on which the key
    comparison and the hash function have never been replaced is always
    well formed, and identifies keys by their address: no two entries
    hold the same key pointer, a lookup finds the entry that holds the
    very pointer asked for, and every stored key is looked up to its
    value. *)
Theorem default_strategies_run (table_ok array_ok : bool) (n : Z)
    (t0 t : HashTable) (ops : list Op) :
  HashTableCreate table_ok array_ok n = Some (Some t0) ->
  forallb keeps_strategies ops = true ->
  run t0 ops = Some t ->
  Inv t /\ Strategies_ok t /\
  (forall p q, p ∈ entries t -> q ∈ entries t -> key p = key q -> p = q) /\
  (forall k, HashTableGet t k <> NULL ->
             {| key := k; value := HashTableGet t k |} ∈ entries t) /\
  (forall p, p ∈ entries t -> HashTableGet t (key p) = value p).
Proof.
  intros Hcreate Hkeep Hrun.
  apply HashTableCreate_inv in Hcreate as [Hn ->].
  pose proof (Inv_fresh n Hn) as Hinv0.
  pose proof (Strategies_ok_fresh n) as Hok0.
  assert (Hinv : Inv t).
  { apply (run_Inv (fresh_table n) t ops); [assumption| |assumption].
    apply disciplined_without_setters; assumption. }
  destruct (run_strategy_fields _ _ _ Hkeep Hrun) as [Hcmp Hhash].
  simpl in Hcmp, Hhash.
  assert (Hok : Strategies_ok t) by (apply Strategies_ok_pointer; assumption).
  split; [exact Hinv|]. split; [exact Hok|]. split; [|split].
  - intros p q Hp Hq Hkey.
    apply (distinct_keys_elem_eq (keycmp t) (entries t));
      [apply Inv_distinct; assumption|assumption|assumption|].
    rewrite Hkey. apply (cmp_refl t Hok).
  - intros k Hget. rewrite HashTableGet_assoc in Hget |- * by assumption.
    unfold assoc in *.
    destruct (find _ (entries t)) as [p|] eqn:Hfind; [|contradiction].
    apply find_some in Hfind as [Hin Heq]. apply Z.eqb_eq in Heq.
    rewrite Hcmp in Heq. unfold pointercmp in Heq.
    destruct (Z.eqb_spec k (key p)) as [->|_]; [|discriminate].
    apply list_elem_of_In in Hin. destruct p. exact Hin.
  - intros p Hp. rewrite HashTableGet_assoc by assumption.
    apply assoc_elem;
      [apply (cmp_sym t Hok)|apply (cmp_trans t Hok)
      |apply Inv_distinct; assumption|assumption|apply (cmp_refl t Hok)].
Qed.

Lemma default_strategies_run_witness :
  HashTableCreate true true 5 = Some (Some (fresh_table 5)) /\
  forallb keeps_strategies sample_ops = true /\
  run (fresh_table 5) sample_ops = Some sample_table /\
  Inv sample_table /\ Strategies_ok sample_table /\
  (forall p q, p ∈ entries sample_table -> q ∈ entries sample_table ->
               key p = key q -> p = q) /\
  (forall k, HashTableGet sample_table k <> NULL ->
             {| key := k; value := HashTableGet sample_table k |}
             ∈ entries sample_table) /\
  (forall p, p ∈ entries sample_table ->
             HashTableGet sample_table (key p) = value p).
Proof.
  assert (Hcreate : HashTableCreate true true 5 = Some (Some (fresh_table 5)))
    by (apply HashTableCreate_fresh; lia).
  assert (Hkeep : forallb keeps_strategies sample_ops = true) by reflexivity.
  split; [exact Hcreate|]. split; [exact Hkeep|]. split; [exact sample_run|].
  exact (default_strategies_run true true 5 (fresh_table 5) sample_table sample_ops
           Hcreate Hkeep sample_run).
Defined.

(** ** Rehash, emptiness, round trip *)

(** X19: [HashTableRehash] stops on a failed assertion exactly when the
    requested bucket count is negative.  Otherwise, if the new bucket
    array can be allocated, the table has the requested bucket count
    afterwards, or the ideal one when 0 was requested, and it is well
    formed with the same size; a second rehash to the same count
    changes nothing. *)
Theorem rehash_bucket_count (array_ok : bool) (t : HashTable) (n : Z) :
  (HashTableRehash array_ok t n = None <-> n < 0) /\
  (Inv t -> 0 <= n ->
   exists t',
     HashTableRehash true t n = Some t' /\
     HashTableGetNumBuckets t'
     = (if n =? 0 then calculateIdealNumOfBuckets t else n) /\
     Inv t' /\ HashTableSize t' = HashTableSize t /\
     HashTableRehash array_ok t' n = Some t').
Proof.
  split.
  - split.
    + intros Hnone. destruct (Z.lt_ge_cases n 0) as [Hlt|Hge]; [assumption|].
      destruct (HashTableRehash_total array_ok t n Hge) as [t' Ht'].
      rewrite Ht' in Hnone. discriminate.
    + intros Hlt. unfold HashTableRehash.
      destruct (Z.leb_spec 0 n); [lia|reflexivity].
  - intros Hinv Hn.
    destruct (HashTableRehash_spec true t n Hinv Hn)
      as (t' & Hrehash & Hinv' & Hcfg & _ & Hcount & _ & Hnb).
    specialize (Hnb eq_refl).
    exists t'. split; [exact Hrehash|]. split; [exact Hnb|].
    split; [exact Hinv'|]. split; [exact Hcount|].
    unfold HashTableRehash. destruct (Z.leb_spec 0 n); [|lia]. simpl.
    assert (Hcalc : calculateIdealNumOfBuckets t' = calculateIdealNumOfBuckets t).
    { apply calculateIdealNumOfBuckets_fields; [exact Hcount|apply Hcfg]. }
    rewrite Hcalc, Hnb, Z.eqb_refl. reflexivity.
Qed.

Lemma rehash_bucket_count_witness :
  HashTableRehash true sample_table (-1) = None /\
  Inv sample_table /\ 0 <= 7 /\
  exists t',
    HashTableRehash true sample_table 7 = Some t' /\
    HashTableGetNumBuckets t' = 7 /\
    Inv t' /\ HashTableSize t' = HashTableSize sample_table /\
    HashTableRehash false t' 7 = Some t'.
Proof.
  split.
  - destruct (rehash_bucket_count true sample_table (-1)) as [[_ Habort] _].
    apply Habort. lia.
  - split; [exact Inv_sample|]. split; [lia|].
    destruct (rehash_bucket_count false sample_table 7) as [_ Hok].
    apply (Hok Inv_sample). lia.
Defined.

(** X20: on a table that satisfies the invariant the ways of asking
    whether it is empty agree: [HashTableIsEmpty] answers 1 exactly
    when the table has no entry, and exactly when [hashTableGetFirst],
    with its iterator allocated, returns [NULL].  The element count
    that [HashTableIsEmpty] tests is the number of entries that a full
    iteration visits. *)
Theorem isEmpty_iff (t : HashTable) :
  Inv t ->
  (HashTableIsEmpty t = true <-> entries t = []) /\
  (HashTableIsEmpty t = true <-> hashTableGetFirst true t = Some None) /\
  (exists vs,
      full_iteration true (Z.to_nat (HashTableSize t)) t = Some vs /\
      HashTableSize t = Z.of_nat (length vs)).
Proof.
  intros Hinv. pose proof (Inv_count_entries t Hinv) as Hcount.
  unfold HashTableIsEmpty, HashTableSize. rewrite Z.eqb_eq.
  assert (Hnil : numOfElements t = 0 <-> entries t = []).
  { rewrite Hcount. split.
    - intros H. apply length_zero_iff_nil. lia.
    - intros ->. reflexivity. }
  assert (Hfull : full_iteration true (length (entries t)) t = Some (visits t)).
  { apply full_iteration_visits; [apply Hinv|lia]. }
  assert (Hlen : length (visits t) = length (entries t)).
  { unfold entries, visits. rewrite <- (visits_from_entries 0 (bucketArray t)).
    rewrite length_map. reflexivity. }
  split; [exact Hnil|]. split.
  - rewrite Hnil. split.
    + apply getFirst_no_entries. apply Hinv.
    + intros Hfirst. unfold full_iteration in Hfull. rewrite Hfirst in Hfull.
      simpl in Hfull.
      assert (Hvisits : visits t = []).
      { destruct (length (entries t)); simpl in Hfull; congruence. }
      apply length_zero_iff_nil. rewrite <- Hlen, Hvisits. reflexivity.
  - exists (visits t). rewrite Hcount, Nat2Z.id. split; [exact Hfull|lia].
Qed.

Lemma isEmpty_iff_witness :
  Inv sample_table /\
  (HashTableIsEmpty sample_table = true <-> entries sample_table = []) /\
  (HashTableIsEmpty sample_table = true <->
   hashTableGetFirst true sample_table = Some None) /\
  (exists vs,
      full_iteration true (Z.to_nat (HashTableSize sample_table)) sample_table
      = Some vs /\
      HashTableSize sample_table = Z.of_nat (length vs)).
Proof.
  split; [exact Inv_sample|]. exact (isEmpty_iff sample_table Inv_sample).
Defined.

(** X21: on a table that satisfies the invariant and whose key
    comparison is an equivalence respected by the hash function, a put
    of a key that compares equal to no stored key, followed by a remove
    of that key, is a round trip: the table holds the entries it held
    before, its size is the one from before, every key is looked up as
    before, the put invokes no callback, and the remove passes the key
    and the value that were put to the configured release callbacks
    and frees the one node that the put allocated. *)
Theorem put_remove_round_trip (array_ok array_ok' : bool) (t t1 t2 : HashTable)
    (k v : ptr) (ev1 ev2 : list Event) :
  Inv t -> Strategies_ok t ->
  (forall p, p ∈ entries t -> keycmp t k (key p) <> 0) ->
  HashTablePut true array_ok t k v = Some (0, t1, ev1) ->
  HashTableRemove array_ok' t1 k = Some (t2, ev2) ->
  entries t2 ≡ₚ entries t /\
  HashTableSize t2 = HashTableSize t /\
  (forall k', HashTableGet t2 k' = HashTableGet t k') /\
  ev1 = [] /\
  ev2 = match keyDeallocator t with Some f => [EvCall f k] | None => [] end
        ++ match valueDeallocator t with Some g => [EvCall g v] | None => [] end
        ++ [EvFree {| key := k; value := v |}].
Proof.
  intros Hinv Hok Habsent Hput Hrm.
  destruct (Z.eq_dec k NULL) as [Hk|Hk];
    [rewrite HashTablePut_null in Hput by auto; discriminate|].
  destruct (Z.eq_dec v NULL) as [Hv|Hv];
    [rewrite HashTablePut_null in Hput by auto; discriminate|].
  destruct (HashTablePut_spec true array_ok t k v Hinv Hok Hk Hv)
    as (r & t1' & ev1' & Hput' & Hinv1 & Hcfg1 & Hcases).
  rewrite Hput in Hput'. injection Hput' as <- <- <-.
  pose proof (Strategies_ok_config t t1 Hcfg1 Hok) as Hok1.
  destruct Hcases as [(p & others & Heq & Hold & _)
                     |[(_ & _ & _ & Hnew & Hcount1)|(_ & Hfalse & _)]];
    [exfalso; apply (Habsent p); [rewrite Hold; left|exact Heq]| |discriminate].
  assert (Hev1 : ev1 = []).
  { destruct (scan (keycmp t) k (bucket_at (bucketArray t) (hashValue_of t k)))
      as [before [|p next]] eqn:Hscan.
    - destruct (HashTablePut_new array_ok t k v before Hk Hv Hscan)
        as (t' & Hput' & _).
      rewrite Hput in Hput'. injection Hput' as _ ->. reflexivity.
    - exfalso. apply scan_spec in Hscan as (Hc & _ & Heq).
      apply (Habsent p); [|exact Heq].
      apply (bucket_subset_entries t (hashValue_of t k)). rewrite Hc.
      apply elem_of_app. right. left. }
  destruct (HashTableRemove_spec array_ok' t1 k Hinv1)
    as (t2' & ev2' & Hrm' & Hinv2 & Hcfg2 & Hcases).
  rewrite Hrm in Hrm'. injection Hrm' as <- <-.
  assert (Hin : {| key := k; value := v |} ∈ entries t1) by (rewrite Hnew; left).
  assert (Hkc : keycmp t1 = keycmp t) by apply Hcfg1.
  destruct Hcases as [(p & Hp & Heq & Hperm & Hcount2 & Hev)|(Hno & _)].
  2: { exfalso.
       apply (Hno {| key := k; value := v |}).
       - apply (equal_key_in_bucket t1 k _ Hinv1 Hok1 Hin). apply (cmp_refl t1 Hok1).
       - apply (cmp_refl t1 Hok1). }
  assert (Hp' : p = {| key := k; value := v |}).
  { apply (distinct_keys_elem_eq (keycmp t1) (entries t1));
      [apply Inv_distinct; assumption
      |apply (bucket_subset_entries t1 (hashValue_of t1 k)); assumption
      |assumption|].
    apply (cmp_sym t1 Hok1). exact Heq. }
  subst p.
  assert (Hentries : entries t2 ≡ₚ entries t).
  { rewrite Hnew in Hperm. apply Permutation_cons_inv in Hperm.
    symmetry. exact Hperm. }
  split; [exact Hentries|]. split; [unfold HashTableSize; lia|].
  split; [|split; [exact Hev1|]].
  - intros k'. apply HashTableGet_config; try assumption.
    apply (same_config_trans t t1 t2); assumption.
  - rewrite Hev.
    assert (Hkd : keyDeallocator t1 = keyDeallocator t) by apply Hcfg1.
    assert (Hvd : valueDeallocator t1 = valueDeallocator t) by apply Hcfg1.
    rewrite Hkd, Hvd. reflexivity.
Qed.

Lemma put_remove_round_trip_witness :
  let t := HashTableSetDeallocationFunctions sample_table (Some 1000) (Some 2000) in
  Inv t /\ Strategies_ok t /\
  (forall p, p ∈ entries t -> keycmp t 48 (key p) <> 0) /\
  exists t1 t2 ev1 ev2,
    HashTablePut true true t 48 9 = Some (0, t1, ev1) /\
    HashTableRemove true t1 48 = Some (t2, ev2) /\
    entries t2 ≡ₚ entries t /\
    HashTableSize t2 = HashTableSize t /\
    (forall k', HashTableGet t2 k' = HashTableGet t k') /\
    ev1 = [] /\
    ev2 = [EvCall 1000 48; EvCall 2000 9; EvFree {| key := 48; value := 9 |}].
Proof.
  intros t.
  assert (Hinv : Inv t).
  { apply (Inv_same_fields sample_table t Inv_sample); reflexivity. }
  assert (Hok : Strategies_ok t) by (apply Strategies_ok_pointer; reflexivity).
  assert (Hentries : entries t = entries sample_table) by reflexivity.
  assert (Habsent : forall p, p ∈ entries t -> keycmp t 48 (key p) <> 0).
  { intros p Hp. rewrite Hentries, sample_entries in Hp.
    repeat (apply elem_of_cons in Hp as [->|Hp]; [discriminate|]).
    inversion Hp. }
  split; [exact Hinv|]. split; [exact Hok|]. split; [exact Habsent|].
  destruct (HashTablePut true true t 48 9) as [[[r t1] ev1]|] eqn:Hput;
    [|vm_compute in Hput; discriminate].
  assert (Hr : r = 0) by (vm_compute in Hput; congruence).
  subst r.
  destruct (HashTableRemove true t1 48) as [[t2 ev2]|] eqn:Hrm.
  - exists t1, t2, ev1, ev2. split; [reflexivity|]. split; [exact Hrm|].
    exact (put_remove_round_trip true true t t1 t2 48 9 ev1 ev2
             Hinv Hok Habsent Hput Hrm).
  - exfalso.
    destruct (HashTablePut_spec true true t 48 9 Hinv Hok
                ltac:(discriminate) ltac:(discriminate))
      as (r' & t1' & ev1' & Hput' & Hinv1 & _).
    rewrite Hput in Hput'. injection Hput' as _ <- _.
    destruct (HashTableRemove_spec true t1 48 Hinv1) as (t2 & ev2 & Hrm' & _).
    rewrite Hrm in Hrm'. discriminate.
Defined.

(** ** Releases of a clear *)

(** X22: on a table that satisfies the invariant, once release
    callbacks are installed with [HashTableSetDeallocationFunctions],
    [HashTableRemoveAll] walks the entries in the order of the
    iteration and, for each of them, passes its key to the key callback
    if one is installed, then its value to the value callback if one is
    installed, then frees its node; nothing else happens, whichever
    callbacks are installed (none, one, two, or the same function
    twice).  So every node is freed exactly once and a callback
    receives exactly the keys or values it is installed for. *)
Theorem removeAll_releases_once (array_ok : bool) (t t' : HashTable)
    (kd vd : option funptr) (ev : list Event) :
  Inv t ->
  HashTableRemoveAll array_ok (HashTableSetDeallocationFunctions t kd vd)
  = Some (t', ev) ->
  ev = flat_map (fun p =>
                   match kd with Some f => [EvCall f (key p)] | None => [] end
                   ++ match vd with Some g => [EvCall g (value p)] | None => [] end
                   ++ [EvFree p])
                (entries t) /\
  freed_nodes ev = entries t /\
  (forall f,
     released_by f ev
     = flat_map (fun p =>
                   (if decide (kd = Some f) then [key p] else [])
                   ++ (if decide (vd = Some f) then [value p] else []))
                (entries t)).
Proof.
  intros Hinv Hrm.
  set (ts := HashTableSetDeallocationFunctions t kd vd) in *.
  destruct (HashTableRemoveAll_spec array_ok ts (inv_buckets t Hinv) (inv_array t Hinv))
    as (t1 & Hrm1 & _).
  rewrite Hrm in Hrm1. injection Hrm1 as _ ->.
  rewrite release_chain_concat. change (concat (bucketArray ts)) with (entries t).
  split; [reflexivity|]. split; [apply freed_nodes_release_chain|].
  intros f. apply (released_by_release_chain_all ts).
Qed.

Lemma removeAll_releases_once_witness :
  Inv sample_table /\
  exists t',
    HashTableRemoveAll true
      (HashTableSetDeallocationFunctions sample_table (Some 1000) (Some 1000))
    = Some (t', [EvCall 1000 96; EvCall 1000 4; EvFree {| key := 96; value := 4 |};
                 EvCall 1000 16; EvCall 1000 3; EvFree {| key := 16; value := 3 |};
                 EvCall 1000 32; EvCall 1000 2; EvFree {| key := 32; value := 2 |}]) /\
    released_by 1000
      [EvCall 1000 96; EvCall 1000 4; EvFree {| key := 96; value := 4 |};
       EvCall 1000 16; EvCall 1000 3; EvFree {| key := 16; value := 3 |};
       EvCall 1000 32; EvCall 1000 2; EvFree {| key := 32; value := 2 |}]
    = [96; 4; 16; 3; 32; 2].
Proof.
  split; [exact Inv_sample|].
  destruct (HashTableRemoveAll true
              (HashTableSetDeallocationFunctions sample_table (Some 1000) (Some 1000)))
    as [[t' ev]|] eqn:Hrm; [|vm_compute in Hrm; discriminate].
  destruct (removeAll_releases_once true sample_table t' (Some 1000) (Some 1000) ev
              Inv_sample Hrm) as (Hev & _ & Hcalls).
  rewrite sample_entries in Hev. simpl in Hev.
  exists t'. split; [rewrite Hev; reflexivity|].
  rewrite <- Hev, (Hcalls 1000), sample_entries. reflexivity.
Defined.

(** ** The load of a table in use *)

Lemma HashTableRehash_count (array_ok : bool) (t t' : HashTable) (n : Z) :
  HashTableRehash array_ok t n = Some t' ->
  numOfElements t' = numOfElements t /\
  (numOfBuckets t' = numOfBuckets t \/
   numOfBuckets t' = if n =? 0 then calculateIdealNumOfBuckets t else n).
Proof.
  unfold HashTableRehash. intros H.
  destruct (negb (0 <=? n)); [discriminate|].
  destruct (_ =? numOfBuckets t); [injection H as <-; auto|].
  destruct (negb array_ok); [injection H as <-; auto|].
  injection H as <-. split; [reflexivity|]. right. reflexivity.
Qed.

(** With the ratio 3.0 the count chosen is odd-stepped from a third of
    the element count: it leaves at most 15 elements to a bucket and
    stays below 2^24. *)
Lemma calculateIdealNumOfBuckets_load (t : HashTable) :
  idealRatio t = float_3_0 -> 0 <= numOfElements t < 2 ^ 24 - 1 ->
  numOfElements t <= 15 * calculateIdealNumOfBuckets t /\
  calculateIdealNumOfBuckets t < 2 ^ 24.
Proof.
  intros Hratio Hn.
  pose proof (calculateIdealNumOfBuckets_third t Hratio ltac:(lia)) as Hthird.
  pose proof (calculateIdealNumOfBuckets_pos t) as Hpos.
  pose proof (Z.div_mod (numOfElements t) 3 ltac:(lia)) as Hdm.
  pose proof (Z.mod_pos_bound (numOfElements t) 3 ltac:(lia)) as Hmod.
  split; [lia|].
  pose proof (ideal_start_cases t) as Hstart. cbv zeta in Hstart.
  rewrite Hratio, quotient_by_3_0 in Hstart by lia.
  destruct (ideal_search_steps t) as (steps & Hsteps & _ & _ & _ & ->).
  unfold search_bound in Hsteps. rewrite Hstart.
  change (2 ^ 24) with 16777216 in *.
  destruct (Z.ltb_spec (numOfElements t / 3) 5); [lia|].
  destruct (Z.odd (numOfElements t / 3)); lia.
Qed.

Lemma HashTableRemoveAll_count (array_ok : bool) (t t' : HashTable)
    (ev : list Event) :
  HashTableRemoveAll array_ok t = Some (t', ev) ->
  numOfElements t' = 0 /\ (numOfBuckets t' = numOfBuckets t \/ numOfBuckets t' = 5).
Proof.
  unfold HashTableRemoveAll. destruct (for_loop _ _ _ _) as [a1 ev1].
  intros H. destruct (HashTableRehash array_ok _ 5) as [t2|] eqn:Hrehash;
    [|discriminate].
  simpl in H. injection H as <- _.
  apply HashTableRehash_count in Hrehash as [Hcount Hnb]. simpl in Hcount, Hnb.
  split; [exact Hcount|exact Hnb].
Qed.

(** What every operation of a freely growing table keeps: at most
    [c] elements, fewer than 2^24 buckets, at most 15 elements to a
    bucket. *)
Lemma step_load (t t' : HashTable) (op : Op) (c : Z) :
  Inv t -> Strategies_ok t ->
  idealRatio t = float_3_0 -> lowerRehashThreshold t = float_0_0 ->
  upperRehashThreshold t = float_15_0 ->
  grows_freely op = true -> step t op = Some t' ->
  c + 1 < 2 ^ 24 - 1 ->
  numOfElements t <= c -> numOfBuckets t < 2 ^ 24 ->
  numOfElements t <= 15 * numOfBuckets t ->
  numOfElements t' <= c + 1 /\ numOfBuckets t' < 2 ^ 24 /\
  numOfElements t' <= 15 * numOfBuckets t'.
Proof.
  intros Hinv Hok Hideal Hlower Hupper Hfree Hstep Hc Hn Hnb Hload.
  pose proof (inv_buckets t Hinv) as Hnb0.
  assert (Hn0 : 0 <= numOfElements t) by (rewrite (inv_count t Hinv); lia).
  destruct op as [entry_ok array_ok k v|k|array_ok k|array_ok|array_ok n
                 |f|f|f|kd vd]; simpl in Hfree, Hstep; try discriminate.
  - (* put *)
    subst array_ok.
    destruct (HashTablePut entry_ok true t k v) as [[[r t1] ev]|] eqn:Hput;
      [|discriminate].
    simpl in Hstep. injection Hstep as <-.
    destruct (Z.eq_dec k NULL) as [Hk|Hk];
      [rewrite HashTablePut_null in Hput by auto; discriminate|].
    destruct (Z.eq_dec v NULL) as [Hv|Hv];
      [rewrite HashTablePut_null in Hput by auto; discriminate|].
    destruct (HashTablePut_spec entry_ok true t k v Hinv Hok Hk Hv)
      as (r' & t1' & ev' & Hput' & _ & _ & Hcases).
    rewrite Hput in Hput'. injection Hput' as <- <- <-.
    destruct Hcases as [(p & others & _ & _ & _ & _ & Hcount & Hbuckets)
                       |[(Habsent & -> & _ & _ & Hcount)|(_ & _ & _ & -> & _)]].
    + rewrite Hcount, Hbuckets. lia.
    + destruct (HashTablePut_growth true t k v Hinv Hok Hk Hv Habsent Hideal Hupper
                  ltac:(lia) Hnb) as (t1' & Hput' & _ & Hstay & Hgrow).
      rewrite Hput in Hput'. injection Hput' as _ <- _.
      unfold HashTableSize, HashTableGetNumBuckets in *.
      destruct (Z.le_gt_cases (numOfElements t + 1) (15 * numOfBuckets t))
        as [Hle|Hgt].
      * rewrite Hcount, (Hstay Hle). lia.
      * destruct (Hgrow ltac:(lia)) as [Hnb1 _].
        assert (Hideal1 : idealRatio t1 = float_3_0).
        { destruct (HashTablePut_config _ _ _ _ _ _ _ _ Hput)
            as (_ & _ & _ & _ & _ & H & _). rewrite H. exact Hideal. }
        destruct (calculateIdealNumOfBuckets_load t1 Hideal1 ltac:(lia))
          as [Hl1 Hb1].
        rewrite Hnb1. split; [lia|]. split; assumption.
    + lia.
  - (* get *)
    injection Hstep as <-. lia.
  - (* remove *)
    destruct (HashTableRemove array_ok t k) as [[t1 ev]|] eqn:Hrm; [|discriminate].
    simpl in Hstep. injection Hstep as <-.
    destruct (HashTableRemove_no_lower_threshold array_ok array_ok t t1 k ev
                Hlower Hrm) as [Hbuckets _].
    destruct (HashTableRemove_spec array_ok t k Hinv)
      as (t1' & ev' & Hrm' & _ & _ & Hcases).
    rewrite Hrm in Hrm'. injection Hrm' as <- <-.
    rewrite Hbuckets.
    destruct Hcases as [(p & _ & _ & _ & Hcount & _)|(_ & -> & _)]; lia.
  - (* removeAll *)
    destruct (HashTableRemoveAll array_ok t) as [[t1 ev]|] eqn:Hrm; [|discriminate].
    simpl in Hstep. injection Hstep as <-.
    apply HashTableRemoveAll_count in Hrm as [Hcount [Hbuckets|Hbuckets]];
      rewrite Hcount, Hbuckets; change (2 ^ 24) with 16777216 in *; lia.
  - (* rehash to the ideal count *)
    apply Z.eqb_eq in Hfree. subst n.
    apply HashTableRehash_count in Hstep as [Hcount [Hbuckets|Hbuckets]];
      rewrite Hcount, Hbuckets; [lia|].
    simpl. destruct (calculateIdealNumOfBuckets_load t Hideal ltac:(lia)).
    lia.
  - (* value comparison *)
    injection Hstep as <-. simpl. lia.
  - (* release callbacks *)
    injection Hstep as <-. simpl. lia.
Qed.

Lemma run_load (ops : list Op) (t0 t : HashTable) (c : Z) :
  Inv t0 -> Strategies_ok t0 ->
  idealRatio t0 = float_3_0 -> lowerRehashThreshold t0 = float_0_0 ->
  upperRehashThreshold t0 = float_15_0 ->
  forallb grows_freely ops = true -> run t0 ops = Some t ->
  c + Z.of_nat (length ops) < 2 ^ 24 - 1 ->
  numOfElements t0 <= c -> numOfBuckets t0 < 2 ^ 24 ->
  numOfElements t0 <= 15 * numOfBuckets t0 ->
  numOfElements t <= c + Z.of_nat (length ops) /\ numOfBuckets t < 2 ^ 24 /\
  numOfElements t <= 15 * numOfBuckets t.
Proof.
  revert t0 c. induction ops as [|op ops IH];
    intros t0 c Hinv Hok Hideal Hlower Hupper Hfree Hrun Hc Hn Hnb Hload.
  - simpl in Hrun. injection Hrun as <-. simpl. lia.
  - simpl in Hfree, Hrun. apply andb_true_iff in Hfree as [Hop Hfree].
    destruct (step t0 op) as [t1|] eqn:Hstep; [|discriminate]. simpl in Hrun.
    simpl length in Hc |- *. rewrite Nat2Z.inj_succ in Hc |- *.
    assert (Hkeep : keeps_strategies op = true) by (destruct op; auto; discriminate).
    assert (Hdisc : disciplined t0 op) by (destruct op; simpl; auto; discriminate).
    destruct (step_thresholds _ _ _ Hstep) as (H1 & H2 & H3).
    destruct (step_load t0 t1 op c Hinv Hok Hideal Hlower Hupper Hop Hstep
                ltac:(lia) Hn Hnb Hload) as (Hn1 & Hnb1 & Hload1).
    destruct (IH t1 (c + 1)) as (Hn' & Hnb' & Hload'); try assumption.
    + apply (step_Inv t0 t1 op); assumption.
    + apply (step_Strategies_ok t0 t1 op); assumption.
    + congruence.
    + congruence.
    + congruence.
    + lia.
    + split; [lia|]. split; assumption.
Qed.

(** X23: the load of a table in use stays bounded.  Take a table from
    [HashTableCreate] with fewer than 2^24 buckets and apply fewer than
    2^24 - 1 operations to it, among which no put whose automatic
    rehash fails to allocate, no rehash to a bucket count chosen by the
    caller and no replacement of the key comparison or of the hash
    function: at the end, as at every moment before, the table holds at
    most 15 elements per bucket. *)
Theorem load_never_exceeds_15 (table_ok array_ok : bool) (n : Z)
    (t0 t : HashTable) (ops : list Op) :
  HashTableCreate table_ok array_ok n = Some (Some t0) ->
  n < 2 ^ 24 -> Z.of_nat (length ops) < 2 ^ 24 - 1 ->
  forallb grows_freely ops = true ->
  run t0 ops = Some t ->
  HashTableSize t <= 15 * HashTableGetNumBuckets t /\
  HashTableSize t <= Z.of_nat (length ops) /\
  HashTableGetNumBuckets t < 2 ^ 24.
Proof.
  intros Hcreate Hn Hlen Hfree Hrun.
  apply HashTableCreate_inv in Hcreate as [Hn0 ->].
  destruct (run_load ops (fresh_table n) t 0
              (Inv_fresh n Hn0) (Strategies_ok_fresh n) eq_refl eq_refl eq_refl
              Hfree Hrun)
    as (H1 & H2 & H3).
  - lia.
  - simpl. lia.
  - exact Hn.
  - simpl. lia.
  - unfold HashTableSize, HashTableGetNumBuckets. split; [assumption|].
    split; [lia|assumption].
Qed.

Lemma load_never_exceeds_15_witness :
  HashTableCreate true true 1 = Some (Some (fresh_table 1)) /\
  1 < 2 ^ 24 /\ Z.of_nat (length crowded_ops) < 2 ^ 24 - 1 /\
  forallb grows_freely crowded_ops = true /\
  run (fresh_table 1) crowded_ops = Some crowded_table /\
  HashTableSize crowded_table <= 15 * HashTableGetNumBuckets crowded_table /\
  HashTableSize crowded_table <= Z.of_nat (length crowded_ops) /\
  HashTableGetNumBuckets crowded_table < 2 ^ 24.
Proof.
  assert (Hcreate : HashTableCreate true true 1 = Some (Some (fresh_table 1)))
    by (apply HashTableCreate_fresh; lia).
  assert (Hn : 1 < 2 ^ 24) by reflexivity.
  assert (Hlen : Z.of_nat (length crowded_ops) < 2 ^ 24 - 1) by reflexivity.
  assert (Hfree : forallb grows_freely crowded_ops = true) by reflexivity.
  split; [exact Hcreate|]. split; [exact Hn|]. split; [exact Hlen|].
  split; [exact Hfree|]. split; [exact crowded_run|].
  exact (load_never_exceeds_15 true true 1 (fresh_table 1) crowded_table crowded_ops
           Hcreate Hn Hlen Hfree crowded_run).
Defined.
